(** * Music Machine: the step sequencer and its synth envelopes

    A shallow embedding of [static/js/sequencer.js] (class [Sequencer]), of
    the synth voices and the mixer of the two audio-engine sources, and of
    the handlers of [static/js/app.js] that drive the sequencer, with the
    properties of the written specification stated over it, followed by
    further properties of the same code.

    Conventions of the embedding.
    - JavaScript integers are [Z]; array indices and lengths are compared in
      [Z] the way the source compares numbers.  [NaN] and non-integer numbers
      are outside the model.
    - Mixer levels and times in seconds are exact rationals [Q].
    - The objects keyed by instrument name always carry the ten names of the
      constructor, so they are records with one field per name.
    - [JSON.parse(JSON.stringify(o))] is the identity on the values of the
      model; since every copy between the live sequence and the pattern store
      goes through it, the two never share an array and values suffice.
    - A thrown exception is the result [None].
    - The host's timer table and the log of voices handed to the audio engine
      are fields of the state, so that scheduling and firing are visible.
    - The methods of [Sequencer] are embedded for a page whose audio context
      was created, where the calls into the engine return; [playOn],
      [withEngine] and [handleOn] add the engine's [ensureAudioContext], which
      throws on a page without one. *)

From Stdlib Require Import ZArith QArith Qround Qminmax Lia Lqa.
From stdpp Require Import base option list gmap strings pretty.

Local Open Scope Z_scope.

(** ** Instruments *)

Inductive Drum := kick | snare | hihat | openhat | crash | clap.
Inductive Synth := bass | lead | pad | arp.

(** A section ('drums' or 'synths') together with a sound name. *)
Inductive Instrument :=
| InDrums (d : Drum)
| InSynths (y : Synth).

(** [Object.keys] of the two track objects, in insertion order. *)
Definition drumNames : list Drum := [kick; snare; hihat; openhat; crash; clap].
Definition synthNames : list Synth := [bass; lead; pad; arp].

(** An object with one property per drum name. *)
Record Drums (A : Type) := mkDrums {
  d_kick : A; d_snare : A; d_hihat : A; d_openhat : A; d_crash : A; d_clap : A
}.
Arguments mkDrums {A}.
Arguments d_kick {A}. Arguments d_snare {A}. Arguments d_hihat {A}.
Arguments d_openhat {A}. Arguments d_crash {A}. Arguments d_clap {A}.

(** An object with one property per synth name. *)
Record Synths (A : Type) := mkSynths {
  y_bass : A; y_lead : A; y_pad : A; y_arp : A
}.
Arguments mkSynths {A}.
Arguments y_bass {A}. Arguments y_lead {A}. Arguments y_pad {A}. Arguments y_arp {A}.

Definition drumAt {A} (n : Drum) (o : Drums A) : A :=
  match n with
  | kick => d_kick o | snare => d_snare o | hihat => d_hihat o
  | openhat => d_openhat o | crash => d_crash o | clap => d_clap o
  end.

Definition synthAt {A} (n : Synth) (o : Synths A) : A :=
  match n with
  | bass => y_bass o | lead => y_lead o | pad => y_pad o | arp => y_arp o
  end.

Definition drumSet {A} (n : Drum) (v : A) (o : Drums A) : Drums A :=
  match n with
  | kick => mkDrums v (d_snare o) (d_hihat o) (d_openhat o) (d_crash o) (d_clap o)
  | snare => mkDrums (d_kick o) v (d_hihat o) (d_openhat o) (d_crash o) (d_clap o)
  | hihat => mkDrums (d_kick o) (d_snare o) v (d_openhat o) (d_crash o) (d_clap o)
  | openhat => mkDrums (d_kick o) (d_snare o) (d_hihat o) v (d_crash o) (d_clap o)
  | crash => mkDrums (d_kick o) (d_snare o) (d_hihat o) (d_openhat o) v (d_clap o)
  | clap => mkDrums (d_kick o) (d_snare o) (d_hihat o) (d_openhat o) (d_crash o) v
  end.

Definition synthSet {A} (n : Synth) (v : A) (o : Synths A) : Synths A :=
  match n with
  | bass => mkSynths v (y_lead o) (y_pad o) (y_arp o)
  | lead => mkSynths (y_bass o) v (y_pad o) (y_arp o)
  | pad => mkSynths (y_bass o) (y_lead o) v (y_arp o)
  | arp => mkSynths (y_bass o) (y_lead o) (y_pad o) v
  end.

(** [Object.keys(o).forEach(name => o[name] = f(o[name]))]. *)
Definition drumsMap {A B} (f : A -> B) (o : Drums A) : Drums B :=
  mkDrums (f (d_kick o)) (f (d_snare o)) (f (d_hihat o))
          (f (d_openhat o)) (f (d_crash o)) (f (d_clap o)).

Definition synthsMap {A B} (f : A -> B) (o : Synths A) : Synths B :=
  mkSynths (f (y_bass o)) (f (y_lead o)) (f (y_pad o)) (f (y_arp o)).

Definition drumsAll {A} (v : A) : Drums A := mkDrums v v v v v v.
Definition synthsAll {A} (v : A) : Synths A := mkSynths v v v v.

(** ** JavaScript primitives used by the sequencer *)

(** [arr.length] as a number. *)
Definition len {A} (arr : list A) : Z := Z.of_nat (length arr).

(** [arr[i]]: [undefined] (here [None]) outside the array. *)
Definition at_index {A} (arr : list A) (i : Z) : option A :=
  if i <? 0 then None else arr !! Z.to_nat i.

(** Truthiness of an array cell of booleans. *)
Definition truthy (c : option bool) : bool := default false c.

(** [new Array(n).fill(v)]; a negative length is a [RangeError]. *)
Definition newArray {A} (n : Z) (v : A) : option (list A) :=
  if n <? 0 then None else Some (replicate (Z.to_nat n) v).

(** [arr.slice(0, L)]: a negative [L] counts from the end. *)
Definition slice0 {A} (arr : list A) (L : Z) : list A :=
  if L <? 0 then take (Z.to_nat (len arr + L)) arr else take (Z.to_nat L) arr.

(** [x || 1] on numbers. *)
Definition or1 (x : Z) : Z := if x =? 0 then 1 else x.

(** [Math.round]: the nearest integer, halves towards plus infinity. *)
Definition Math_round (q : Q) : Z := Qfloor (q + (1 # 2))%Q.

(** [JSON.parse(JSON.stringify(o))]. *)
Definition deepCopy {A} (o : A) : A := o.

(** ** The sequence, the patterns and the transport *)

Definition SeqId := string.

Record Tracks := mkTracks {
  drums : Drums (list bool);
  synths : Synths (list bool)
}.

Record PerInstrument := mkPerInstrument {
  pi_drums : Drums Q;
  pi_synths : Synths Q
}.

Record Volume := mkVolume {
  master : Q;
  vol_drums : Q;
  vol_synths : Q;
  perInstrument : PerInstrument
}.

Record Effects := mkEffects {
  reverb : Q;
  delay : Q;
  fx_filter : Q
}.

Record Removed := mkRemoved {
  rm_drums : Drums bool;
  rm_synths : Synths bool
}.

(** [this.sequence].  [seq_id] is the [id] property a loaded snapshot leaves
    behind; the constructor does not create it. *)
Record Sequence := mkSequence {
  name : string;
  seq_bpm : Z;
  seq_steps : Z;
  tracks : Tracks;
  volume : Volume;
  effects : Effects;
  removed : Removed;
  seq_id : option SeqId
}.

(** One slot of [this.patterns.store]. *)
Record Pattern := mkPattern {
  bars : Z;
  p_tracks : Tracks;
  p_removed : Removed;
  p_synthNotes : Synths (list Z)
}.

Record Patterns := mkPatterns {
  active : Z;
  pending : option Z;
  store : gmap Z Pattern
}.

Record TimeSignature := mkTimeSignature { num : Z; den : Z }.

(** The two closures the sequencer hands to [setInterval]: the one written in
    [play] and the one written in [updateStepInterval]. *)
Inductive Callback := PlayTick | RebuiltTick.

Record Timer := mkTimer {
  callback : Callback;
  period : Q
}.

(** What the audio engine is asked to sound.  A synth voice carries the MIDI
    number; the engine receives [midiToFreq] of it. *)
Inductive Voice :=
| DrumVoice (d : Drum)
| SynthVoice (y : Synth) (midi : Z).

Record Sequencer := mkSequencer {
  isPlaying : bool;
  currentStep : Z;
  bpm : Z;
  timeSignature : TimeSignature;
  steps : Z;
  stepInterval : option nat;
  currentSequenceId : option SeqId;
  synthNotes : Synths (list Z);
  patterns : Patterns;
  sequence : Sequence;
  (* host: the active interval timers and the next handle *)
  timers : gmap nat Timer;
  nextTimer : nat;
  (* audio engine: the voices triggered so far, oldest first *)
  fired : list Voice
}.

(** *** Field updates *)

Definition set_isPlaying (v : bool) (s : Sequencer) : Sequencer :=
  mkSequencer v (currentStep s) (bpm s) (timeSignature s) (steps s) (stepInterval s)
    (currentSequenceId s) (synthNotes s) (patterns s) (sequence s)
    (timers s) (nextTimer s) (fired s).

Definition set_currentStep (v : Z) (s : Sequencer) : Sequencer :=
  mkSequencer (isPlaying s) v (bpm s) (timeSignature s) (steps s) (stepInterval s)
    (currentSequenceId s) (synthNotes s) (patterns s) (sequence s)
    (timers s) (nextTimer s) (fired s).

Definition set_bpm (v : Z) (s : Sequencer) : Sequencer :=
  mkSequencer (isPlaying s) (currentStep s) v (timeSignature s) (steps s) (stepInterval s)
    (currentSequenceId s) (synthNotes s) (patterns s) (sequence s)
    (timers s) (nextTimer s) (fired s).

Definition set_timeSignature (v : TimeSignature) (s : Sequencer) : Sequencer :=
  mkSequencer (isPlaying s) (currentStep s) (bpm s) v (steps s) (stepInterval s)
    (currentSequenceId s) (synthNotes s) (patterns s) (sequence s)
    (timers s) (nextTimer s) (fired s).

Definition set_steps (v : Z) (s : Sequencer) : Sequencer :=
  mkSequencer (isPlaying s) (currentStep s) (bpm s) (timeSignature s) v (stepInterval s)
    (currentSequenceId s) (synthNotes s) (patterns s) (sequence s)
    (timers s) (nextTimer s) (fired s).

Definition set_stepInterval (v : option nat) (s : Sequencer) : Sequencer :=
  mkSequencer (isPlaying s) (currentStep s) (bpm s) (timeSignature s) (steps s) v
    (currentSequenceId s) (synthNotes s) (patterns s) (sequence s)
    (timers s) (nextTimer s) (fired s).

Definition set_currentSequenceId (v : option SeqId) (s : Sequencer) : Sequencer :=
  mkSequencer (isPlaying s) (currentStep s) (bpm s) (timeSignature s) (steps s)
    (stepInterval s) v (synthNotes s) (patterns s) (sequence s)
    (timers s) (nextTimer s) (fired s).

Definition set_synthNotes (v : Synths (list Z)) (s : Sequencer) : Sequencer :=
  mkSequencer (isPlaying s) (currentStep s) (bpm s) (timeSignature s) (steps s)
    (stepInterval s) (currentSequenceId s) v (patterns s) (sequence s)
    (timers s) (nextTimer s) (fired s).

Definition set_patterns (v : Patterns) (s : Sequencer) : Sequencer :=
  mkSequencer (isPlaying s) (currentStep s) (bpm s) (timeSignature s) (steps s)
    (stepInterval s) (currentSequenceId s) (synthNotes s) v (sequence s)
    (timers s) (nextTimer s) (fired s).

Definition set_sequence (v : Sequence) (s : Sequencer) : Sequencer :=
  mkSequencer (isPlaying s) (currentStep s) (bpm s) (timeSignature s) (steps s)
    (stepInterval s) (currentSequenceId s) (synthNotes s) (patterns s) v
    (timers s) (nextTimer s) (fired s).

Definition set_timers (v : gmap nat Timer) (n : nat) (s : Sequencer) : Sequencer :=
  mkSequencer (isPlaying s) (currentStep s) (bpm s) (timeSignature s) (steps s)
    (stepInterval s) (currentSequenceId s) (synthNotes s) (patterns s) (sequence s)
    v n (fired s).

Definition set_fired (v : list Voice) (s : Sequencer) : Sequencer :=
  mkSequencer (isPlaying s) (currentStep s) (bpm s) (timeSignature s) (steps s)
    (stepInterval s) (currentSequenceId s) (synthNotes s) (patterns s) (sequence s)
    (timers s) (nextTimer s) v.

Definition set_active (i : Z) (s : Sequencer) : Sequencer :=
  set_patterns (mkPatterns i (pending (patterns s)) (store (patterns s))) s.

Definition set_pending (p : option Z) (s : Sequencer) : Sequencer :=
  set_patterns (mkPatterns (active (patterns s)) p (store (patterns s))) s.

Definition set_store (m : gmap Z Pattern) (s : Sequencer) : Sequencer :=
  set_patterns (mkPatterns (active (patterns s)) (pending (patterns s)) m) s.

Definition seq_set_bpm (v : Z) (q : Sequence) : Sequence :=
  mkSequence (name q) v (seq_steps q) (tracks q) (volume q) (effects q) (removed q) (seq_id q).

Definition seq_set_steps (v : Z) (q : Sequence) : Sequence :=
  mkSequence (name q) (seq_bpm q) v (tracks q) (volume q) (effects q) (removed q) (seq_id q).

Definition seq_set_tracks (v : Tracks) (q : Sequence) : Sequence :=
  mkSequence (name q) (seq_bpm q) (seq_steps q) v (volume q) (effects q) (removed q) (seq_id q).

Definition seq_set_volume (v : Volume) (q : Sequence) : Sequence :=
  mkSequence (name q) (seq_bpm q) (seq_steps q) (tracks q) v (effects q) (removed q) (seq_id q).

Definition seq_set_removed (v : Removed) (q : Sequence) : Sequence :=
  mkSequence (name q) (seq_bpm q) (seq_steps q) (tracks q) (volume q) (effects q) v (seq_id q).

(** *** The host's timers *)

(** [setInterval(cb, ms)]: registers the timer and returns its handle. *)
Definition setInterval (cb : Callback) (ms : Q) (s : Sequencer) : nat * Sequencer :=
  (nextTimer s,
   set_timers (<[nextTimer s := mkTimer cb ms]> (timers s)) (S (nextTimer s)) s).

(** [clearInterval(id)]. *)
Definition clearInterval (id : nat) (s : Sequencer) : Sequencer :=
  set_timers (delete id (timers s)) (nextTimer s) s.

(** ** The methods of [Sequencer] *)

Definition toggleInstrumentRemoved (i : Instrument) (s : Sequencer) : Sequencer :=
  let r := removed (sequence s) in
  let r' :=
    match i with
    | InDrums d => mkRemoved (drumSet d (negb (drumAt d (rm_drums r))) (rm_drums r)) (rm_synths r)
    | InSynths y => mkRemoved (rm_drums r) (synthSet y (negb (synthAt y (rm_synths r))) (rm_synths r))
    end in
  set_sequence (seq_set_removed r' (sequence s)) s.

Definition setInstrumentVolume (i : Instrument) (value : Q) (s : Sequencer) : Sequencer :=
  let v := volume (sequence s) in
  let p := perInstrument v in
  let p' :=
    match i with
    | InDrums d => mkPerInstrument (drumSet d value (pi_drums p)) (pi_synths p)
    | InSynths y => mkPerInstrument (pi_drums p) (synthSet y value (pi_synths p))
    end in
  set_sequence
    (seq_set_volume (mkVolume (master v) (vol_drums v) (vol_synths v) p') (sequence s)) s.

(** [this.synthNotes[sound]?.[step] ?? 69]. *)
Definition noteAt (y : Synth) (step : Z) (s : Sequencer) : Z :=
  default 69 (at_index (synthAt y (synthNotes s)) step).

(** [arr[step] = v].  Inside the array this is an update in place.  Past the
    end JavaScript extends the array with holes, which read as [undefined];
    the model pads with [false], which the sequencer cannot tell apart since
    it only tests cells for truthiness.  A negative index leaves the cells
    and the length alone. *)
Definition assign (arr : list bool) (step : Z) (v : bool) : list bool :=
  if step <? 0 then arr
  else if step <? len arr then <[Z.to_nat step := v]> arr
  else arr ++ replicate (Z.to_nat (step - len arr)) false ++ [v].

(** [setStep] where the preview call into the engine returns: the voice is
    logged.  [withEngine] has the engine without a context, where that call
    throws once the cell is written. *)
Definition setStep (i : Instrument) (step : Z) (value : bool) (s : Sequencer) : Sequencer :=
  let t := tracks (sequence s) in
  let t' :=
    match i with
    | InDrums d => mkTracks (drumSet d (assign (drumAt d (drums t)) step value) (drums t)) (synths t)
    | InSynths y => mkTracks (drums t) (synthSet y (assign (synthAt y (synths t)) step value) (synths t))
    end in
  let s1 := set_sequence (seq_set_tracks t' (sequence s)) s in
  if value then
    match i with
    | InDrums d => set_fired (fired s1 ++ [DrumVoice d]) s1
    | InSynths y => set_fired (fired s1 ++ [SynthVoice y (noteAt y step s1)]) s1
    end
  else s1.

(** The assignment the note drag makes: [this.synthNotes[sound][step] = midi],
    for a step of the grid. *)
Definition setNote (y : Synth) (step : nat) (midi : Z) (s : Sequencer) : Sequencer :=
  set_synthNotes (synthSet y (<[step := midi]> (synthAt y (synthNotes s))) (synthNotes s)) s.

(** The voices [playStep] hands to the audio engine, drums first. *)
Definition voicesAt (step : Z) (s : Sequencer) : list Voice :=
  let q := sequence s in
  flat_map (fun n =>
      if negb (drumAt n (rm_drums (removed q)))
         && truthy (at_index (drumAt n (drums (tracks q))) step)
      then [DrumVoice n] else []) drumNames
  ++
  flat_map (fun n =>
      if negb (synthAt n (rm_synths (removed q)))
         && truthy (at_index (synthAt n (synths (tracks q))) step)
      then [SynthVoice n (noteAt n step s)] else []) synthNames.

Definition playStep (s : Sequencer) : Sequencer :=
  let step := currentStep s in
  set_fired (fired s ++ voicesAt step s) s.

(** [(60 / this.bpm / 4) * 1000], in milliseconds. *)
Definition getStepDuration (s : Sequencer) : Q :=
  ((60 / inject_Z (bpm s) / 4) * 1000)%Q.

(** The closure of [updateStepInterval]. *)
Definition rebuiltTick (s : Sequencer) : Sequencer :=
  let s1 := playStep s in
  set_currentStep (Z.rem (currentStep s1 + 1) (steps s1)) s1.

Definition updateStepInterval (s : Sequencer) : Sequencer :=
  match stepInterval s with
  | Some (S k) =>
      if isPlaying s then
        let s1 := clearInterval (S k) s in
        let '(id, s2) := setInterval RebuiltTick (getStepDuration s1) s1 in
        set_stepInterval (Some id) s2
      else s
  | _ => s
  end.

Definition setBpm (t : Z) (s : Sequencer) : Sequencer :=
  let s1 := set_bpm (Z.max 60 (Z.min 200 t)) s in
  let s2 := set_sequence (seq_set_bpm (bpm s1) (sequence s1)) s1 in
  if isPlaying s2 then updateStepInterval s2 else s2.

Definition stop (s : Sequencer) : Sequencer :=
  let s1 := set_isPlaying false s in
  let s2 :=
    match stepInterval s1 with
    | Some (S k) => set_stepInterval None (clearInterval (S k) s1)
    | _ => s1
    end in
  set_currentStep 0 s2.

Definition clearSequence (s : Sequencer) : Sequencer :=
  let t := tracks (sequence s) in
  let fillFalse := fun arr : list bool => (fun _ => false) <$> arr in
  set_sequence
    (seq_set_tracks (mkTracks (drumsMap fillFalse (drums t)) (synthsMap fillFalse (synths t)))
       (sequence s)) s.

(** *** Bars and time signature *)

(** [Math.max(1, Math.round(num * (16 / den)))].  The rounding is computed on
    exact rationals; the double-precision computation of the source gives the
    same integer whenever [16 / den] is exact, as for the powers of two a
    denominator takes.  With a denominator 0 the source computes [Infinity] or
    [NaN], which no integer stands for: the statements below that depend on
    the value exclude it. *)
Definition stepsPerBar (s : Sequencer) : Z :=
  let ts := timeSignature s in
  Z.max 1 (Math_round (inject_Z (num ts) * (16 / inject_Z (den ts)))%Q).

Definition getBars (s : Sequencer) : Z :=
  match store (patterns s) !! active (patterns s) with
  | Some p => or1 (bars p)
  | None => 1
  end.

(** The local [resize] of [setBars]. *)
Definition resize {A} (arr : list A) (n : Z) (fillVal : A) : list A :=
  if len arr =? n then arr
  else if len arr <? n then arr ++ replicate (Z.to_nat (n - len arr)) fillVal
  else slice0 arr n.

(** The local [resize] of [resizePatternsTo]. *)
Definition resizeStored {A} (arr : list A) (L : Z) (fillVal : A) : list A :=
  if len arr <? L then arr ++ replicate (Z.to_nat (L - len arr)) fillVal
  else slice0 arr L.

Definition resizePattern (L : Z) (p : Pattern) : Pattern :=
  mkPattern (bars p)
    (mkTracks (drumsMap (fun a => resizeStored a L false) (drums (p_tracks p)))
              (synthsMap (fun a => resizeStored a L false) (synths (p_tracks p))))
    (p_removed p)
    (synthsMap (fun a => resizeStored a L 69) (p_synthNotes p)).

Definition slotIds : list Z := [1; 2; 3; 4].

Definition resizePatternsTo (L : Z) (s : Sequencer) : Sequencer :=
  set_store (foldl (fun m i => alter (resizePattern L) i m) (store (patterns s)) slotIds) s.

(** The note check at the head of [renderSynthTracks], the one part of
    rendering that writes sequencer state. *)
Definition ensureNotes (n : Z) (notes : list Z) : option (list Z) :=
  if len notes =? n then Some notes else newArray n 69.

Definition renderSynthTracks (s : Sequencer) : option Sequencer :=
  let sn := synthNotes s in
  b ← ensureNotes (steps s) (y_bass sn);
  l ← ensureNotes (steps s) (y_lead sn);
  p ← ensureNotes (steps s) (y_pad sn);
  a ← ensureNotes (steps s) (y_arp sn);
  Some (set_synthNotes (mkSynths b l p a) s).

Definition renderTracks (s : Sequencer) : option Sequencer :=
  renderSynthTracks s.

Definition setBars (b : Z) (s : Sequencer) : option Sequencer :=
  let clamped := Z.max 1 (Z.min 16 b) in
  match store (patterns s) !! active (patterns s) with
  | None => Some s
  | Some pat =>
      let pat' := mkPattern clamped (p_tracks pat) (p_removed pat) (p_synthNotes pat) in
      let s1 := set_store (<[active (patterns s) := pat']> (store (patterns s))) s in
      let newSteps := clamped * stepsPerBar s1 in
      if newSteps =? steps s1 then Some s1
      else
        let s2 := set_steps newSteps s1 in
        let s3 := set_sequence (seq_set_steps newSteps (sequence s2)) s2 in
        let t := tracks (sequence s3) in
        let s4 :=
          set_sequence
            (seq_set_tracks
               (mkTracks (drumsMap (fun a => resize a newSteps false) (drums t))
                         (synthsMap (fun a => resize a newSteps false) (synths t)))
               (sequence s3)) s3 in
        let s5 := set_synthNotes (synthsMap (fun a => resize a newSteps 69) (synthNotes s4)) s4 in
        s6 ← renderTracks s5;
        let s7 := set_currentStep (Z.rem (currentStep s6) (steps s6)) s6 in
        let s8 := if isPlaying s7 then updateStepInterval s7 else s7 in
        Some (resizePatternsTo (steps s8) s8)
  end.

Definition addBars (delta : Z) (s : Sequencer) : option Sequencer :=
  setBars (getBars s + delta) s.

Definition applyTimeSignature (s : Sequencer) : option Sequencer :=
  let b := getBars s in
  setBars b s.

(** The [change] handler of the two time-signature inputs. *)
Definition onTsChange (n d : Z) (s : Sequencer) : option Sequencer :=
  applyTimeSignature (set_timeSignature (mkTimeSignature n d) s).

(** *** Patterns *)

Definition defaultRemoved : Removed :=
  mkRemoved (drumsAll false) (synthsAll false).

Definition createEmptyPattern (s : Sequencer) : option Pattern :=
  let n := steps s in
  t ← newArray n false;
  m ← newArray n 69;
  Some (mkPattern 1 (mkTracks (drumsAll t) (synthsAll t)) defaultRemoved (synthsAll m)).

(** Assigning to the properties of [store[active]] throws when the slot is
    missing. *)
Definition saveCurrentPattern (s : Sequencer) : option Sequencer :=
  let i := active (patterns s) in
  match store (patterns s) !! i with
  | None => None
  | Some _ =>
      let p := mkPattern (getBars s) (deepCopy (tracks (sequence s)))
                 (deepCopy (removed (sequence s))) (deepCopy (synthNotes s)) in
      Some (set_store (<[i := p]> (store (patterns s))) s)
  end.

(** [p] in the source is a reference to slot [i]: it is read again after
    [saveCurrentPattern] and after [resizePatternsTo] have written the store. *)
Definition applyPattern (i : Z) (s : Sequencer) : option Sequencer :=
  match store (patterns s) !! i with
  | None => Some s
  | Some _ =>
      s1 ← saveCurrentPattern s;
      p ← store (patterns s1) !! i;
      let newSteps := or1 (bars p) * stepsPerBar s1 in
      let s2 := set_steps newSteps s1 in
      let s3 := set_sequence (seq_set_steps newSteps (sequence s2)) s2 in
      let s4 := resizePatternsTo (steps s3) s3 in
      p' ← store (patterns s4) !! i;
      let s5 := set_sequence (seq_set_tracks (deepCopy (p_tracks p')) (sequence s4)) s4 in
      let s6 := set_sequence (seq_set_removed (deepCopy (p_removed p')) (sequence s5)) s5 in
      let s7 := set_synthNotes (deepCopy (p_synthNotes p')) s6 in
      let s8 := set_active i s7 in
      renderTracks s8
  end.

Definition requestPattern (i : Z) (s : Sequencer) : option Sequencer :=
  if i =? active (patterns s) then Some s
  else if isPlaying s then Some (set_pending (Some i) s)
  else applyPattern i s.

(** Truthiness of [this.patterns.pending]: [null] and [0] are falsy. *)
Definition pendingPattern (s : Sequencer) : option Z :=
  match pending (patterns s) with
  | Some i => if i =? 0 then None else Some i
  | None => None
  end.

(** *** Transport *)

(** The closure of [play]. *)
Definition playTick (s : Sequencer) : option Sequencer :=
  let s1 := playStep s in
  s2 ← (if currentStep s1 =? steps s1 - 1 then
          match pendingPattern s1 with
          | Some i => s' ← applyPattern i s1; Some (set_pending None s')
          | None => Some s1
          end
        else Some s1);
  Some (set_currentStep (Z.rem (currentStep s2 + 1) (steps s2)) s2).

(** [play] where the engine's [ensureAudioContext] returns; [playOn] has the
    call. *)
Definition play (s : Sequencer) : Sequencer :=
  let s1 := set_isPlaying true s in
  let '(id, s2) := setInterval PlayTick (getStepDuration s1) s1 in
  set_stepInterval (Some id) s2.

Definition runCallback (cb : Callback) (s : Sequencer) : option Sequencer :=
  match cb with
  | PlayTick => playTick s
  | RebuiltTick => Some (rebuiltTick s)
  end.

(** The host fires timer [id]; a cleared timer does nothing. *)
Definition tick (id : nat) (s : Sequencer) : option Sequencer :=
  match timers s !! id with
  | Some t => runCallback (callback t) s
  | None => Some s
  end.

(** *** Snapshots *)

(** The [volume] object of a snapshot; older snapshots have no
    [perInstrument]. *)
Record SnapVolume := mkSnapVolume {
  sv_master : Q;
  sv_drums : Q;
  sv_synths : Q;
  sv_perInstrument : option PerInstrument
}.

(** A snapshot as exchanged with persistence: every property may be absent.
    [snap_id] distinguishes an absent [id] from [id: null]. *)
Record Snapshot := mkSnapshot {
  snap_name : option string;
  snap_bpm : option Z;
  snap_steps : option Z;
  snap_tracks : option Tracks;
  snap_volume : option SnapVolume;
  snap_effects : option Effects;
  snap_removed : option Removed;
  snap_id : option (option SeqId)
}.

Definition defaultPerInstrument : PerInstrument :=
  mkPerInstrument
    (mkDrums 0.8 0.8 0.7 0.7 0.6 0.7)%Q
    (mkSynths 0.7 0.6 0.6 0.5)%Q.

(** [{ ...this.sequence, ...sequenceData }] followed by the two
    [perInstrument] and [removed] defaults. *)
Definition mergeSnapshot (q : Sequence) (d : Snapshot) : Sequence :=
  mkSequence
    (default (name q) (snap_name d))
    (default (seq_bpm q) (snap_bpm d))
    (default (seq_steps q) (snap_steps d))
    (default (tracks q) (snap_tracks d))
    (match snap_volume d with
     | Some v => mkVolume (sv_master v) (sv_drums v) (sv_synths v)
                   (default defaultPerInstrument (sv_perInstrument v))
     | None => volume q
     end)
    (default (effects q) (snap_effects d))
    (default (removed q) (snap_removed d))
    (match snap_id d with
     | Some i => i
     | None => seq_id q
     end).

Definition loadSequence (sequenceData : option Snapshot) (s : Sequencer) : option Sequencer :=
  match sequenceData with
  | None => Some s
  | Some d =>
      let s1 := set_sequence (mergeSnapshot (sequence s) d) s in
      let s2 := set_currentSequenceId (mjoin (snap_id d)) s1 in
      let s3 := setBpm (seq_bpm (sequence s2)) s2 in
      renderTracks s3
  end.

Definition getSequenceData (s : Sequencer) : Snapshot :=
  let q := sequence s in
  let v := volume q in
  mkSnapshot (Some (name q)) (Some (seq_bpm q)) (Some (seq_steps q)) (Some (tracks q))
    (Some (mkSnapVolume (master v) (vol_drums v) (vol_synths v) (Some (perInstrument v))))
    (Some (effects q)) (Some (removed q)) (Some (currentSequenceId s)).

(** *** The constructor *)

(** The field initialisers of the constructor, before [initializeSequencer]. *)
Definition fields0 : Sequencer :=
  mkSequencer false 0 120 (mkTimeSignature 4 4) 16 None None
    (synthsAll (replicate 16 69))
    (mkPatterns 1 None ∅)
    (mkSequence "Untitled Sequence" 120 16
       (mkTracks (drumsAll (replicate 16 false)) (synthsAll (replicate 16 false)))
       (mkVolume 0.8 0.8 0.8 defaultPerInstrument)%Q
       (mkEffects 0.2 0.1 0.0)%Q
       defaultRemoved
       None)
    ∅ 1 [].

Definition initializeSequencer (s : Sequencer) : option Sequencer :=
  s1 ← renderTracks s;
  let s2 := updateStepInterval s1 in
  s3 ← foldl (fun acc i =>
                m ← acc;
                p ← createEmptyPattern m;
                Some (set_store (<[i := p]> (store (patterns m))) m))
             (Some s2) slotIds;
  saveCurrentPattern s3.

(** [new Sequencer(audioEngine)]. *)
Definition newSequencer : option Sequencer := initializeSequencer fields0.

(** *** Public operations as data *)

Inductive Op :=
| OpPlay
| OpStop
| OpTick (id : nat)
| OpSetBpm (t : Z)
| OpSetBars (b : Z)
| OpTimeSignature (n d : Z)
| OpRequestPattern (i : Z)
| OpApplyPattern (i : Z)
| OpLoadSequence (d : option Snapshot)
| OpClearSequence.

Definition run (o : Op) (s : Sequencer) : option Sequencer :=
  match o with
  | OpPlay => Some (play s)
  | OpStop => Some (stop s)
  | OpTick id => tick id s
  | OpSetBpm t => Some (setBpm t s)
  | OpSetBars b => setBars b s
  | OpTimeSignature n d => onTsChange n d s
  | OpRequestPattern i => requestPattern i s
  | OpApplyPattern i => applyPattern i s
  | OpLoadSequence d => loadSequence d s
  | OpClearSequence => Some (clearSequence s)
  end.

(** Runs a script of operations, stopping at the first exception. *)
Fixpoint runAll (os : list Op) (s : Sequencer) : option Sequencer :=
  match os with
  | [] => Some s
  | o :: os' => s' ← run o s; runAll os' s'
  end.

(** ** Synth voices of the audio engine *)

Inductive Waveform := sine | square | sawtooth | triangle.

(** The calls made on the gain parameter of a voice's envelope. *)
Inductive Automation :=
| setValueAtTime (value time : Q)
| linearRampToValueAtTime (value time : Q).

Definition eventTime (a : Automation) : Q :=
  match a with
  | setValueAtTime _ t => t
  | linearRampToValueAtTime _ t => t
  end.

(** One voice: its oscillators (type and frequency), the automation of its
    envelope gain in the order the source issues it, and the stop time. *)
Record Chain := mkChain {
  oscillators : list (Waveform * Q);
  envelope : list Automation;
  stopTime : Q
}.

(** The stage boundaries of an envelope, in the order the source schedules
    them: start, end of attack, end of decay, start of release, end. *)
Definition boundaries (c : Chain) : list Q := eventTime <$> envelope c.

Fixpoint nondecreasing (l : list Q) : Prop :=
  match l with
  | a :: (b :: _) as t => (a <= b)%Q /\ nondecreasing t
  | _ => True
  end.

(** The arguments of [generateSynth] after [frequency] and [waveform]. *)
Record Adsr := mkAdsr {
  duration : Q;
  attack : Q;
  decay : Q;
  sustain : Q;
  release : Q
}.

(** [attack <= attack+decay <= duration-release <= duration]. *)
Definition stagesOrdered (p : Adsr) : Prop :=
  (attack p <= attack p + decay p)%Q /\
  (attack p + decay p <= duration p - release p)%Q /\
  (duration p - release p <= duration p)%Q.

(** The default values of the parameters of [generateSynth], the same in both
    engine sources. *)
Definition defaultAdsr : Adsr := mkAdsr 0.5 0.01 0.3 0.7 0.5.

(** The engine with per-instrument gain stages. *)
Module GainEngine.

Definition generateSynth (frequency : Q) (waveform : Waveform) (p : Adsr)
    (level : Q) (now : Q) : Chain :=
  let peak := Qmax 0 (Qmin 1 level) in
  let sus := (Qmax 0 (Qmin 1 (sustain p)) * peak)%Q in
  mkChain [(waveform, frequency)]
    [ setValueAtTime 0 now;
      linearRampToValueAtTime peak (now + attack p);
      linearRampToValueAtTime sus (now + attack p + decay p);
      setValueAtTime sus (now + duration p - release p);
      linearRampToValueAtTime 0 (now + duration p) ]%Q
    (now + duration p)%Q.

(** The envelope arguments each case of [playSynthSound] passes. *)
Definition recipe (n : Synth) : Adsr :=
  match n with
  | bass => mkAdsr 0.5 0.01 0.3 0.6 0.4
  | lead => mkAdsr 0.3 0.02 0.15 0.5 0.2
  | pad => mkAdsr 1.2 0.4 0.4 0.8 0.8
  | arp => mkAdsr 0.18 0.01 0.08 0.3 0.15
  end.

Definition playSynthSound (n : Synth) (frequency : Q) (now : Q) : Chain :=
  match n with
  | bass => generateSynth (frequency * 0.5) sawtooth (recipe bass) 0.45 now
  | lead => generateSynth frequency square (recipe lead) 0.35 now
  | pad => generateSynth frequency sine (recipe pad) 0.4 now
  | arp => generateSynth frequency triangle (recipe arp) 0.3 now
  end.

End GainEngine.

(** The engine of [static/js/audio-engine.js], with the enhanced voices. *)
Module EnhancedEngine.

Definition generateSynth (frequency : Q) (waveform : Waveform) (p : Adsr)
    (now : Q) : Chain :=
  mkChain [(waveform, frequency); (sine, frequency * 0.5)]%Q
    [ setValueAtTime 0 now;
      linearRampToValueAtTime 1 (now + attack p);
      linearRampToValueAtTime (sustain p) (now + attack p + decay p);
      setValueAtTime (sustain p) (now + duration p - release p);
      linearRampToValueAtTime 0 (now + duration p) ]%Q
    (now + duration p)%Q.

Definition generateEnhancedBass (frequency : Q) (now : Q) : Chain :=
  let duration := 0.6%Q in
  mkChain [(sawtooth, frequency); (sine, frequency * 0.5); (square, frequency * 2)]%Q
    [ setValueAtTime 0 now;
      linearRampToValueAtTime 1 (now + 0.01);
      linearRampToValueAtTime 0.7 (now + 0.1);
      setValueAtTime 0.7 (now + duration - 0.3);
      linearRampToValueAtTime 0 (now + duration) ]%Q
    (now + duration)%Q.

Definition generateEnhancedLead (frequency : Q) (now : Q) : Chain :=
  let duration := 0.4%Q in
  mkChain [(square, frequency); (sawtooth, frequency * 1.007); (sine, 5)]%Q
    [ setValueAtTime 0 now;
      linearRampToValueAtTime 1 (now + 0.02);
      linearRampToValueAtTime 0.5 (now + 0.1);
      setValueAtTime 0.5 (now + duration - 0.2);
      linearRampToValueAtTime 0 (now + duration) ]%Q
    (now + duration)%Q.

Definition generateEnhancedPad (frequency : Q) (now : Q) : Chain :=
  let duration := 1.2%Q in
  mkChain
    [ (sine, frequency * (1 + 0));
      (triangle, frequency * (1 + 0.003));
      (sine, frequency * (1 + - 0.005));
      (triangle, frequency * (1 + 0.007)) ]%Q
    [ setValueAtTime 0 now;
      linearRampToValueAtTime 0.8 (now + 0.3);
      setValueAtTime 0.8 (now + duration - 0.5);
      linearRampToValueAtTime 0 (now + duration) ]%Q
    (now + duration)%Q.

(** The arguments of the one case that still goes through
    [generateSynth]. *)
Definition arpRecipe : Adsr := mkAdsr 0.2 0.01 0.1 0.3 0.2.

Definition playSynthSound (n : Synth) (frequency : Q) (now : Q) : Chain :=
  match n with
  | bass => generateEnhancedBass (frequency * 0.5) now
  | lead => generateEnhancedLead frequency now
  | pad => generateEnhancedPad frequency now
  | arp => generateSynth frequency triangle arpRecipe now
  end.

End EnhancedEngine.

(** ** Predicates of the specification *)

(** The step index is usable: at least one step, index inside the loop. *)
Definition StepInv (s : Sequencer) : Prop :=
  1 <= steps s /\ 0 <= currentStep s < steps s.

(** What the pattern store and the time signature satisfy along every run:
    the active slot exists, stored bar counts are not negative and the
    denominator is not zero. *)
Definition StoreInv (s : Sequencer) : Prop :=
  is_Some (store (patterns s) !! active (patterns s)) /\
  (forall i p, store (patterns s) !! i = Some p -> 0 <= bars p) /\
  den (timeSignature s) <> 0.



Definition tracksShape (n : Z) (t : Tracks) : Prop :=
  (forall d, len (drumAt d (drums t)) = n) /\
  (forall y, len (synthAt y (synths t)) = n).

Definition notesShape (n : Z) (m : Synths (list Z)) : Prop :=
  forall y, len (synthAt y m) = n.

Definition patternShape (n : Z) (p : Pattern) : Prop :=
  tracksShape n (p_tracks p) /\ notesShape n (p_synthNotes p).

(** Every activation and pitch array, live and in the four slots, has the
    length of the step count. *)
Definition Shape (s : Sequencer) : Prop :=
  tracksShape (steps s) (tracks (sequence s)) /\
  notesShape (steps s) (synthNotes s) /\
  (forall i p, i ∈ slotIds -> store (patterns s) !! i = Some p -> patternShape (steps s) p).

(** Resizing as the specification words it: keep the head, pad the tail with
    the fill value when growing, drop the tail when shrinking. *)
Definition padOrTruncate {A} (arr : list A) (n : Z) (fillVal : A) : list A :=
  take (Z.to_nat n) arr ++ replicate (Z.to_nat n - length arr) fillVal.

Definition tracksResized (n : Z) (t : Tracks) : Tracks :=
  mkTracks (drumsMap (fun a => padOrTruncate a n false) (drums t))
           (synthsMap (fun a => padOrTruncate a n false) (synths t)).

Definition notesResized (n : Z) (m : Synths (list Z)) : Synths (list Z) :=
  synthsMap (fun a => padOrTruncate a n 69) m.

(** What a resize to [b] bars leaves behind, from state [s] with result [r]:
    no exception, the step count [b * stepsPerBar]; when the count changed,
    every live and stored array padded or truncated to it and the step index
    taken modulo it; when it did not, every array and the index as before. *)
Definition resizeOutcome (b : Z) (s : Sequencer) (r : option Sequencer) : Prop :=
  let n := b * stepsPerBar s in
  exists s', r = Some s' /\ steps s' = n /\
    (steps s <> n ->
       Shape s' /\
       tracks (sequence s') = tracksResized n (tracks (sequence s)) /\
       synthNotes s' = notesResized n (synthNotes s) /\
       currentStep s' = Z.rem (currentStep s) n /\
       (forall j p, j ∈ slotIds -> store (patterns s) !! j = Some p ->
          exists p', store (patterns s') !! j = Some p' /\
            p_tracks p' = tracksResized n (p_tracks p) /\
            p_synthNotes p' = notesResized n (p_synthNotes p))) /\
    (steps s = n ->
       (Shape s -> Shape s') /\
       tracks (sequence s') = tracks (sequence s) /\
       synthNotes s' = synthNotes s /\
       currentStep s' = currentStep s /\
       (forall j p, store (patterns s) !! j = Some p ->
          exists p', store (patterns s') !! j = Some p' /\
            p_tracks p' = p_tracks p /\
            p_synthNotes p' = p_synthNotes p)).

(** The instrument a voice belongs to, and its removed flag. *)
Definition instrumentOf (v : Voice) : Instrument :=
  match v with
  | DrumVoice d => InDrums d
  | SynthVoice y _ => InSynths y
  end.

Definition isRemoved (i : Instrument) (s : Sequencer) : bool :=
  match i with
  | InDrums d => drumAt d (rm_drums (removed (sequence s)))
  | InSynths y => synthAt y (rm_synths (removed (sequence s)))
  end.

(** ** Concrete runs *)

(** The sequencer as the constructor leaves it. *)
Definition init : Sequencer := Eval vm_compute in default fields0 newSequencer.

Definition after (os : list Op) : option Sequencer := runAll os init.

(** Playing from the start up to step 10, then asking for pattern 2. *)
Definition toStepTen : list Op :=
  [OpPlay] ++ replicate 10 (OpTick 1) ++ [OpRequestPattern 2].

(** A two-bar loop saved to a snapshot. *)
Definition twoBarSnapshot : option Snapshot :=
  getSequenceData <$> after [OpSetBars 2].


(** A grid with the kick on the first step, the bass on the second with the
    note moved to 57, and both instruments removed. *)
Definition kickAndBassRemoved : Sequencer :=
  let s1 := setStep (InDrums kick) 0 true init in
  let s2 := setStep (InSynths bass) 1 true s1 in
  let s3 := setNote bass 1 57 s2 in
  toggleInstrumentRemoved (InSynths bass) (toggleInstrumentRemoved (InDrums kick) s3).

(** ** Further methods of [Sequencer] *)

#[global] Instance Drum_eq_dec : EqDecision Drum.
Proof. solve_decision. Defined.

#[global] Instance Synth_eq_dec : EqDecision Synth.
Proof. solve_decision. Defined.

#[global] Instance Instrument_eq_dec : EqDecision Instrument.
Proof. solve_decision. Defined.

(** *** Note helpers *)

Definition noteNames : list string :=
  ["C"; "C#"; "D"; "D#"; "E"; "F"; "F#"; "G"; "G#"; "A"; "A#"; "B"].

(** [((midi % 12) + 12) % 12]. *)
Definition pitchClass (midi : Z) : Z := Z.rem (Z.rem midi 12 + 12) 12.

(** [names[...]]: [None] would be [undefined]. *)
Definition midiToName (midi : Z) : option string := at_index noteNames (pitchClass midi).

(** [`hsl(${hue}, 90%, 50%)`]. *)
Definition noteColorForMidi (midi : Z) : string :=
  let hue := pitchClass midi * 30 in
  "hsl(" +:+ pretty hue +:+ ", 90%, 50%)".

(** *** Editing the grid *)

Definition trackOf (i : Instrument) (s : Sequencer) : list bool :=
  match i with
  | InDrums d => drumAt d (drums (tracks (sequence s)))
  | InSynths y => synthAt y (synths (tracks (sequence s)))
  end.

Definition toggleStep (i : Instrument) (step : Z) (s : Sequencer) : Sequencer :=
  let t := tracks (sequence s) in
  let currentState := truthy (at_index (trackOf i s) step) in
  let t' :=
    match i with
    | InDrums d =>
        mkTracks (drumSet d (assign (drumAt d (drums t)) step (negb currentState)) (drums t))
                 (synths t)
    | InSynths y =>
        mkTracks (drums t)
                 (synthSet y (assign (synthAt y (synths t)) step (negb currentState)) (synths t))
    end in
  let s1 := set_sequence (seq_set_tracks t' (sequence s)) s in
  if negb currentState then
    match i with
    | InDrums d => set_fired (fired s1 ++ [DrumVoice d]) s1
    | InSynths y => set_fired (fired s1 ++ [SynthVoice y (noteAt y step s1)]) s1
    end
  else s1.

(** The [onMove] of [bindLabelVolumeDrag]: the pointer position inside the
    label, clamped to [[0,1]], becomes the instrument's volume. *)
Definition labelVolumeAt (clientX left width : Q) : Q :=
  let ratio := ((clientX - left) / width)%Q in
  Qmax 0 (Qmin 1 ratio).

Definition labelVolumeDrag (i : Instrument) (clientX left width : Q) (s : Sequencer) : Sequencer :=
  setInstrumentVolume i (labelVolumeAt clientX left width) s.

(** The width of the volume fill, in percent: [Math.round(v * 100)]. *)
Definition fillPercent (v : Q) : Z := Math_round (v * 100)%Q.

(** [this._dragState] while a note is dragged. *)
Record DragState := mkDragState {
  dr_sound : Synth;
  dr_step : nat;
  dr_startY : Q;
  dr_startMidi : Z;
  dr_moved : bool;
  dr_activatedOnDrag : bool
}.

(** The [mousedown] handler of a synth step button. *)
Definition dragStart (y : Synth) (i : nat) (clientY : Q) (s : Sequencer) : DragState :=
  mkDragState y i clientY (noteAt y (Z.of_nat i) s) false false.

(** The [onMove] of a note drag: 8 pixels per semitone, clamped to four
    octaves; the first move activates an inactive step, and a changed note is
    stored and previewed. *)
Definition dragMove (d : DragState) (clientY : Q) (s : Sequencer) : DragState * Sequencer :=
  let dy := (dr_startY d - clientY)%Q in
  let semis := Math_round (dy / 8)%Q in
  let midi := Z.max 48 (Z.min 84 (dr_startMidi d + semis)) in
  let y := dr_sound d in
  let step := Z.of_nat (dr_step d) in
  let '(d1, s1) :=
    if negb (dr_activatedOnDrag d)
       && negb (truthy (at_index (synthAt y (synths (tracks (sequence s)))) step))
    then (mkDragState y (dr_step d) (dr_startY d) (dr_startMidi d) (dr_moved d) true,
          setStep (InSynths y) step true s)
    else (d, s) in
  if bool_decide (at_index (synthAt y (synthNotes s1)) step = Some midi) then (d1, s1)
  else
    let s2 := setNote y (dr_step d) midi s1 in
    (mkDragState y (dr_step d) (dr_startY d) (dr_startMidi d) true (dr_activatedOnDrag d1),
     set_fired (fired s2 ++ [SynthVoice y midi]) s2).

(** *** The mixer and effect inputs *)

Definition onMasterVolume (v : Q) (s : Sequencer) : Sequencer :=
  let o := volume (sequence s) in
  set_sequence (seq_set_volume (mkVolume v (vol_drums o) (vol_synths o) (perInstrument o))
                  (sequence s)) s.

Definition onDrumsVolume (v : Q) (s : Sequencer) : Sequencer :=
  let o := volume (sequence s) in
  set_sequence (seq_set_volume (mkVolume (master o) v (vol_synths o) (perInstrument o))
                  (sequence s)) s.

Definition onSynthsVolume (v : Q) (s : Sequencer) : Sequencer :=
  let o := volume (sequence s) in
  set_sequence (seq_set_volume (mkVolume (master o) (vol_drums o) v (perInstrument o))
                  (sequence s)) s.

Definition seq_set_effects (v : Effects) (q : Sequence) : Sequence :=
  mkSequence (name q) (seq_bpm q) (seq_steps q) (tracks q) (volume q) v (removed q) (seq_id q).

Definition seq_set_name (v : string) (q : Sequence) : Sequence :=
  mkSequence v (seq_bpm q) (seq_steps q) (tracks q) (volume q) (effects q) (removed q) (seq_id q).

Definition onReverbLevel (v : Q) (s : Sequencer) : Sequencer :=
  let e := effects (sequence s) in
  set_sequence (seq_set_effects (mkEffects v (delay e) (fx_filter e)) (sequence s)) s.

Definition onDelayLevel (v : Q) (s : Sequencer) : Sequencer :=
  let e := effects (sequence s) in
  set_sequence (seq_set_effects (mkEffects (reverb e) v (fx_filter e)) (sequence s)) s.

Definition onFilterLevel (v : Q) (s : Sequencer) : Sequencer :=
  let e := effects (sequence s) in
  set_sequence (seq_set_effects (mkEffects (reverb e) (delay e) v) (sequence s)) s.

(** *** The application around the sequencer *)

(** [this.isPlaying ? this.stop() : this.play()], on the play button and on
    the space key. *)
Definition onPlayButton (s : Sequencer) : Sequencer :=
  if isPlaying s then stop s else play s.

(** [MusicMachineApp.newSequence]. *)
Definition newSequence (s : Sequencer) : Sequencer :=
  set_currentSequenceId None (clearSequence s).

(** The [contextmenu] handler of a track label. *)
Definition onLabelContextMenu (i : Instrument) (s : Sequencer) : option Sequencer :=
  let s1 := toggleInstrumentRemoved i s in
  match i with
  | InDrums _ => Some s1
  | InSynths _ => renderSynthTracks s1
  end.

(** What [saveNewSequence] sends: the snapshot under the name typed, or
    under 'Untitled Sequence' when the trimmed name is empty, as an update
    of the known id or as a new sequence. *)
Inductive SaveRequest :=
| UpdateSequence (id : SeqId) (data : Snapshot)
| CreateSequence (data : Snapshot).

Definition sequenceNameOf (trimmed : string) : string :=
  if bool_decide (trimmed = "") then "Untitled Sequence" else trimmed.

Definition snap_set_name (v : string) (d : Snapshot) : Snapshot :=
  mkSnapshot (Some v) (snap_bpm d) (snap_steps d) (snap_tracks d) (snap_volume d)
    (snap_effects d) (snap_removed d) (snap_id d).

Definition saveRequest (trimmed : string) (s : Sequencer) : SaveRequest :=
  let sequenceData := snap_set_name (sequenceNameOf trimmed) (getSequenceData s) in
  match currentSequenceId s with
  | Some id => if bool_decide (id = "") then CreateSequence sequenceData
               else UpdateSequence id sequenceData
  | None => CreateSequence sequenceData
  end.

(** The rest of [saveNewSequence], once the request [r] has succeeded;
    [created] is the [sequence_id] of the response to a create. *)
Definition saveCompleted (r : SaveRequest) (trimmed : string) (created : option SeqId)
    (s : Sequencer) : Sequencer :=
  let s1 :=
    match r with
    | UpdateSequence _ _ => s
    | CreateSequence _ => set_currentSequenceId created s
    end in
  set_sequence (seq_set_name (sequenceNameOf trimmed) (sequence s1)) s1.

(** The events the page and the host deliver to the sequencer. *)
Inductive UiEvent :=
| EvPlayButton
| EvStopButton
| EvTimer (id : nat)
| EvBpmInput (t : Z)
| EvMasterVolume (v : Q)
| EvDrumsVolume (v : Q)
| EvSynthsVolume (v : Q)
| EvReverbLevel (v : Q)
| EvDelayLevel (v : Q)
| EvFilterLevel (v : Q)
| EvBarsMinus
| EvBarsPlus
| EvTimeSignature (n d : Z)
| EvPatternButton (i : Z)
| EvLabelContextMenu (i : Instrument)
| EvLabelDrag (i : Instrument) (clientX left width : Q)
| EvStepClick (i : Instrument) (step : nat)
| EvStepContextMenu (i : Instrument) (step : nat)
| EvNoteDrag (d : DragState) (clientY : Q)
| EvNewSequence
| EvSequenceLoaded (d : option Snapshot)
| EvSaved (r : SaveRequest) (trimmed : string) (created : option SeqId).

Definition handle (e : UiEvent) (s : Sequencer) : option Sequencer :=
  match e with
  | EvPlayButton => Some (onPlayButton s)
  | EvStopButton => Some (stop s)
  | EvTimer id => tick id s
  | EvBpmInput t => Some (setBpm t s)
  | EvMasterVolume v => Some (onMasterVolume v s)
  | EvDrumsVolume v => Some (onDrumsVolume v s)
  | EvSynthsVolume v => Some (onSynthsVolume v s)
  | EvReverbLevel v => Some (onReverbLevel v s)
  | EvDelayLevel v => Some (onDelayLevel v s)
  | EvFilterLevel v => Some (onFilterLevel v s)
  | EvBarsMinus => addBars (-1) s
  | EvBarsPlus => addBars 1 s
  | EvTimeSignature n d => onTsChange n d s
  | EvPatternButton i => requestPattern i s
  | EvLabelContextMenu i => onLabelContextMenu i s
  | EvLabelDrag i x l w => Some (labelVolumeDrag i x l w s)
  | EvStepClick i step => Some (setStep i (Z.of_nat step) true s)
  | EvStepContextMenu i step => Some (setStep i (Z.of_nat step) false s)
  | EvNoteDrag d y => Some (snd (dragMove d y s))
  | EvNewSequence => Some (newSequence s)
  | EvSequenceLoaded d => loadSequence d s
  | EvSaved r n c => Some (saveCompleted r n c s)
  end.

(** Delivers a list of events, stopping at the first exception. *)
Fixpoint handleAll (es : list UiEvent) (s : Sequencer) : option Sequencer :=
  match es with
  | [] => Some s
  | e :: es' => s' ← handle e s; handleAll es' s'
  end.

(** *** The page with and without audio *)

(** [AudioEngine.ensureAudioContext], the same in both engine sources: on an
    engine that is not initialised, or whose context is suspended, it calls
    [this.audioContext.resume()].  When the audio context could not be
    created, [audioContext] is [null], [isInitialized] is [false] and that
    call throws; [contextCreated] tells which engine the page has. *)
Definition ensureAudioContext (contextCreated : bool) : option unit :=
  if contextCreated then Some () else None.

(** [play] with its call into the engine: the playing flag is set, then
    [ensureAudioContext] runs, then the interval is registered. *)
Definition playOn (contextCreated : bool) (s : Sequencer) : option Sequencer :=
  ensureAudioContext contextCreated ≫= fun _ => Some (play s).

(** What [play] has written when [ensureAudioContext] throws: the playing
    flag, and no interval. *)
Definition playThrown (s : Sequencer) : Sequencer := set_isPlaying true s.

(** Every voice handed to the engine goes through [playDrumSound] or
    [playSynthSound] to a generator, and every generator begins with
    [ensureAudioContext].  [withEngine c s r] is the run [r] from [s] on the
    page [c]: the voices the run has logged are asked of the engine one by
    one, and the first one throws where there is no context. *)
Definition withEngine (contextCreated : bool) (s : Sequencer) (r : option Sequencer) :
    option Sequencer :=
  s' ← r;
  mapM (fun _ : Voice => ensureAudioContext contextCreated)
       (drop (length (fired s)) (fired s')) ≫= fun _ => Some s'.

(** The handlers on the page [contextCreated]. *)
Definition handleOn (contextCreated : bool) (e : UiEvent) (s : Sequencer) : option Sequencer :=
  match e with
  | EvPlayButton => if isPlaying s then Some (stop s) else playOn contextCreated s
  | _ => withEngine contextCreated s (handle e s)
  end.


(** The per-instrument volume of the sequence. *)
Definition instrumentVolume (i : Instrument) (s : Sequencer) : Q :=
  match i with
  | InDrums d => drumAt d (pi_drums (perInstrument (volume (sequence s))))
  | InSynths y => synthAt y (pi_synths (perInstrument (volume (sequence s))))
  end.

(** The target value of an automation call. *)
Definition eventValue (a : Automation) : Q :=
  match a with
  | setValueAtTime v _ => v
  | linearRampToValueAtTime v _ => v
  end.

(** ** The mixer of the audio engine *)

(** The gain stages and the filter of the engine with per-instrument gains.
    A node that has not been created is [None]: the constructor leaves
    [masterGain], [drumsGain], [synthsGain] and [filter] at [null] and the two
    [instrumentGains] objects empty.  A node that exists is represented by the
    value of its parameter ([gain.value], [frequency.value]). *)
Module EngineMixer.

Record Mixer := mkMixer {
  masterGain : option Q;
  drumsGain : option Q;
  synthsGain : option Q;
  filter : option Q;
  ig_drums : Drums (option Q);
  ig_synths : Synths (option Q)
}.

(** The fields as the constructor sets them, before [initializeAudio]. *)
Definition constructed : Mixer :=
  mkMixer None None None None (drumsAll None) (synthsAll None).

(** [initializeAudio].  The audio context either is created, and then every
    node is, or its constructor throws, and the [catch] leaves the fields as
    they were. *)
Definition initializeAudio (contextCreated : bool) (m : Mixer) : Mixer :=
  if contextCreated then
    mkMixer (Some 0.8%Q) (Some 0.8%Q) (Some 0.8%Q) (Some 22050%Q)
      (drumsAll (Some 0.8%Q)) (synthsAll (Some 0.8%Q))
  else m.

Definition setMasterVolume (value : Q) (m : Mixer) : Mixer :=
  match masterGain m with
  | Some _ => mkMixer (Some value) (drumsGain m) (synthsGain m) (filter m) (ig_drums m) (ig_synths m)
  | None => m
  end.

Definition setDrumsVolume (value : Q) (m : Mixer) : Mixer :=
  match drumsGain m with
  | Some _ => mkMixer (masterGain m) (Some value) (synthsGain m) (filter m) (ig_drums m) (ig_synths m)
  | None => m
  end.

Definition setSynthsVolume (value : Q) (m : Mixer) : Mixer :=
  match synthsGain m with
  | Some _ => mkMixer (masterGain m) (drumsGain m) (Some value) (filter m) (ig_drums m) (ig_synths m)
  | None => m
  end.

(** The two effect levels are only logged. *)
Definition setReverbLevel (value : Q) (m : Mixer) : Mixer := m.

Definition setDelayLevel (value : Q) (m : Mixer) : Mixer := m.

(** [minFreq + (value * (maxFreq - minFreq))]. *)
Definition filterFrequency (value : Q) : Q := (200 + value * (22050 - 200))%Q.

Definition setFilterLevel (value : Q) (m : Mixer) : Mixer :=
  match filter m with
  | Some _ =>
      mkMixer (masterGain m) (drumsGain m) (synthsGain m) (Some (filterFrequency value))
        (ig_drums m) (ig_synths m)
  | None => m
  end.

(** [group && group[name]]: both groups exist from the constructor on. *)
Definition setInstrumentVolume (i : Instrument) (value : Q) (m : Mixer) : Mixer :=
  match i with
  | InDrums d =>
      match drumAt d (ig_drums m) with
      | Some _ =>
          mkMixer (masterGain m) (drumsGain m) (synthsGain m) (filter m)
            (drumSet d (Some value) (ig_drums m)) (ig_synths m)
      | None => m
      end
  | InSynths y =>
      match synthAt y (ig_synths m) with
      | Some _ =>
          mkMixer (masterGain m) (drumsGain m) (synthsGain m) (filter m)
            (ig_drums m) (synthSet y (Some value) (ig_synths m))
      | None => m
      end
  end.

(** The gain node of an instrument. *)
Definition instrumentGain (i : Instrument) (m : Mixer) : option Q :=
  match i with
  | InDrums d => drumAt d (ig_drums m)
  | InSynths y => synthAt y (ig_synths m)
  end.

(** The calls [Sequencer.loadSequence] makes on the engine once the snapshot
    is merged: the three section volumes, the three effect levels, then every
    per-instrument volume in the order of [Object.entries]. *)
Definition applySequence (q : Sequence) (m : Mixer) : Mixer :=
  let v := volume q in
  let e := effects q in
  let m1 := setMasterVolume (master v) m in
  let m2 := setDrumsVolume (vol_drums v) m1 in
  let m3 := setSynthsVolume (vol_synths v) m2 in
  let m4 := setReverbLevel (reverb e) m3 in
  let m5 := setDelayLevel (delay e) m4 in
  let m6 := setFilterLevel (fx_filter e) m5 in
  let m7 := foldl (fun acc d =>
                     setInstrumentVolume (InDrums d) (drumAt d (pi_drums (perInstrument v))) acc)
                  m6 drumNames in
  foldl (fun acc y =>
           setInstrumentVolume (InSynths y) (synthAt y (pi_synths (perInstrument v))) acc)
        m7 synthNames.

(** Every node exists. *)
Definition initialized (m : Mixer) : Prop :=
  is_Some (masterGain m) /\ is_Some (drumsGain m) /\ is_Some (synthsGain m) /\
  is_Some (filter m) /\ forall i, is_Some (instrumentGain i m).

End EngineMixer.

(** ** Further predicates *)

(** One timer while playing, held by [stepInterval]; none while stopped,
    with the step index at 0.  Handles are positive and below the next one
    the host hands out. *)
Definition TimerInv (s : Sequencer) : Prop :=
  nextTimer s <> 0%nat /\
  (forall id, is_Some (timers s !! id) -> (id < nextTimer s)%nat) /\
  if isPlaying s
  then exists k t, stepInterval s = Some (S k) /\ timers s = {[S k := t]}
  else timers s = ∅ /\ stepInterval s = None /\ currentStep s = 0.

(** The store holds nothing but the four slots. *)
Definition DomInv (s : Sequencer) : Prop :=
  forall i, is_Some (store (patterns s) !! i) -> i ∈ slotIds.



(** * Properties *)

(** ** Arrays *)

Lemma len_nonneg {A} (arr : list A) : 0 <= len arr.
Proof. unfold len. lia. Qed.

Lemma len_replicate {A} (n : nat) (v : A) : len (replicate n v) = Z.of_nat n.
Proof. unfold len. by rewrite length_replicate. Qed.

Lemma fill_false (arr : list bool) :
  (fun _ => false) <$> arr = replicate (length arr) false.
Proof. induction arr as [|b arr IH]; [done |]. cbn. f_equal. exact IH. Qed.

Lemma slice0_take {A} (arr : list A) (n : Z) :
  0 <= n -> slice0 arr n = take (Z.to_nat n) arr.
Proof. intros Hn. unfold slice0. destruct (Z.ltb_spec n 0); [lia | done]. Qed.

(** The resize of [setBars] is the padding and truncation of the
    specification. *)
Lemma resize_padOrTruncate {A} (arr : list A) (n : Z) (v : A) :
  0 <= n -> resize arr n v = padOrTruncate arr n v.
Proof.
  intros Hn. unfold resize, padOrTruncate, len.
  destruct (Z.eqb_spec (Z.of_nat (length arr)) n) as [He|Hne].
  - replace (Z.to_nat n) with (length arr) by lia.
    rewrite firstn_all, Nat.sub_diag. simpl. by rewrite app_nil_r.
  - destruct (Z.ltb_spec (Z.of_nat (length arr)) n) as [Hlt|Hge].
    + rewrite take_ge by lia. f_equal. f_equal. lia.
    + rewrite slice0_take by done.
      replace (Z.to_nat n - length arr)%nat with 0%nat by lia.
      simpl. by rewrite app_nil_r.
Qed.

(** So is the resize of [resizePatternsTo]. *)
Lemma resizeStored_padOrTruncate {A} (arr : list A) (n : Z) (v : A) :
  0 <= n -> resizeStored arr n v = padOrTruncate arr n v.
Proof.
  intros Hn. unfold resizeStored, padOrTruncate, len.
  destruct (Z.ltb_spec (Z.of_nat (length arr)) n) as [Hlt|Hge].
  - rewrite take_ge by lia. f_equal. f_equal. lia.
  - rewrite slice0_take by done.
    replace (Z.to_nat n - length arr)%nat with 0%nat by lia.
    simpl. by rewrite app_nil_r.
Qed.

Lemma len_padOrTruncate {A} (arr : list A) (n : Z) (v : A) :
  0 <= n -> len (padOrTruncate arr n v) = n.
Proof.
  intros Hn. unfold padOrTruncate, len.
  rewrite length_app, length_take, length_replicate. lia.
Qed.

Lemma padOrTruncate_same {A} (arr : list A) (v : A) :
  padOrTruncate arr (len arr) v = arr.
Proof.
  unfold padOrTruncate, len. rewrite Nat2Z.id, firstn_all, Nat.sub_diag.
  simpl. by rewrite app_nil_r.
Qed.

(** The cells a resize keeps are the old ones, the new ones hold the fill
    value. *)
Lemma padOrTruncate_lookup {A} (arr : list A) (n : Z) (v : A) (k : nat) :
  (Z.of_nat k < n) ->
  padOrTruncate arr n v !! k = Some (default v (arr !! k)).
Proof.
  intros Hk. unfold padOrTruncate.
  destruct (decide (k < length arr)%nat) as [Hin|Hout].
  - rewrite lookup_app_l by (rewrite length_take; lia).
    rewrite lookup_take_lt by lia.
    destruct (lookup_lt_is_Some_2 arr k Hin) as [x Hx]. by rewrite Hx.
  - rewrite lookup_app_r by (rewrite length_take; lia).
    rewrite length_take.
    rewrite (lookup_ge_None_2 arr k) by lia. simpl.
    apply lookup_replicate_2. lia.
Qed.

(** ** Tempo *)

Lemma setBpm_stores (t : Z) (s : Sequencer) :
  bpm (setBpm t s) = Z.max 60 (Z.min 200 t) /\
  seq_bpm (sequence (setBpm t s)) = Z.max 60 (Z.min 200 t).
Proof.
  unfold setBpm, updateStepInterval. simpl.
  destruct (isPlaying s); [|done].
  destruct (stepInterval s) as [[|k]|]; done.
Qed.

(** C8.  For every integer [t], [setBpm t] stores [min 200 (max 60 t)] both
    in the transport tempo and in the tempo of the sequence, and it never
    fails: as an operation it always returns a state. *)
Theorem setBpm_clamps (t : Z) (s : Sequencer) :
  bpm (setBpm t s) = Z.min 200 (Z.max 60 t) /\
  seq_bpm (sequence (setBpm t s)) = Z.min 200 (Z.max 60 t) /\
  60 <= bpm (setBpm t s) <= 200 /\
  run (OpSetBpm t) s = Some (setBpm t s).
Proof.
  destruct (setBpm_stores t s) as [Hb Hq].
  rewrite Hb, Hq. repeat split; lia.
Qed.

(** Apart from the tempo and the timer, [setBpm] changes nothing. *)
Lemma setBpm_frame (t : Z) (s : Sequencer) :
  let s' := setBpm t s in
  isPlaying s' = isPlaying s /\ currentStep s' = currentStep s /\
  steps s' = steps s /\ timeSignature s' = timeSignature s /\
  patterns s' = patterns s /\ synthNotes s' = synthNotes s /\
  currentSequenceId s' = currentSequenceId s /\ fired s' = fired s /\
  sequence s' = seq_set_bpm (Z.max 60 (Z.min 200 t)) (sequence s).
Proof.
  unfold setBpm, updateStepInterval. simpl.
  destruct (isPlaying s) eqn:Hp; simpl; [|by rewrite ?Hp].
  destruct (stepInterval s) as [[|k]|]; simpl; by rewrite ?Hp.
Qed.

(** ** Clearing the grid *)

(** C10.  [clearSequence] turns every drum and synth activation flag of the
    live sequence to [false], keeping each array's length, and leaves the
    tempo, the step count, the volumes, the effect levels, the removed flags,
    the pitch arrays, the pattern store with its active and pending ids, the
    playing flag, the step index and everything else as they were. *)
Theorem clearSequence_frame (s : Sequencer) :
  let s' := clearSequence s in
  (forall d, drumAt d (drums (tracks (sequence s')))
             = replicate (length (drumAt d (drums (tracks (sequence s))))) false) /\
  (forall y, synthAt y (synths (tracks (sequence s')))
             = replicate (length (synthAt y (synths (tracks (sequence s))))) false) /\
  bpm s' = bpm s /\ seq_bpm (sequence s') = seq_bpm (sequence s) /\
  steps s' = steps s /\ seq_steps (sequence s') = seq_steps (sequence s) /\
  name (sequence s') = name (sequence s) /\
  volume (sequence s') = volume (sequence s) /\
  effects (sequence s') = effects (sequence s) /\
  removed (sequence s') = removed (sequence s) /\
  seq_id (sequence s') = seq_id (sequence s) /\
  synthNotes s' = synthNotes s /\
  patterns s' = patterns s /\
  isPlaying s' = isPlaying s /\
  currentStep s' = currentStep s /\
  timeSignature s' = timeSignature s /\
  stepInterval s' = stepInterval s /\
  currentSequenceId s' = currentSequenceId s /\
  timers s' = timers s /\ nextTimer s' = nextTimer s /\ fired s' = fired s.
Proof.
  simpl. split; [|split]; [| | repeat split].
  - intros []; simpl; apply fill_false.
  - intros []; simpl; apply fill_false.
Qed.

(** ** Removed instruments *)

Lemma voicesAt_skips_removed (i : Instrument) (step : Z) (s : Sequencer) (v : Voice) :
  isRemoved i s = true -> v ∈ voicesAt step s -> instrumentOf v <> i.
Proof.
  intros Hr Hv Heq. subst i. unfold voicesAt in Hv.
  apply elem_of_app in Hv as [Hv|Hv];
    apply list_elem_of_In, in_flat_map in Hv as (n & _ & Hn).
  - destruct (negb _ && _) eqn:Hc; [|inversion Hn].
    destruct Hn as [<-|[]]. simpl in Hr. rewrite Hr in Hc. discriminate.
  - destruct (negb _ && _) eqn:Hc; [|inversion Hn].
    destruct Hn as [<-|[]]. simpl in Hr. rewrite Hr in Hc. discriminate.
Qed.

(** C5.  When an instrument is marked removed, [playStep] at whatever step
    index appends to the engine's log only voices of other instruments, even
    where the removed instrument's flag is set, and changes neither the
    activation flags nor the pitch arrays nor the removed flags.  Marking an
    instrument removed (or restoring it) flips its flag and leaves the
    activation flags and the pitch arrays untouched. *)
Theorem removal_hides_never_deletes (i : Instrument) (s : Sequencer) :
  (isRemoved i s = true ->
     fired (playStep s) = fired s ++ voicesAt (currentStep s) s /\
     (forall v, v ∈ voicesAt (currentStep s) s -> instrumentOf v <> i) /\
     tracks (sequence (playStep s)) = tracks (sequence s) /\
     synthNotes (playStep s) = synthNotes s /\
     removed (sequence (playStep s)) = removed (sequence s)) /\
  tracks (sequence (toggleInstrumentRemoved i s)) = tracks (sequence s) /\
  synthNotes (toggleInstrumentRemoved i s) = synthNotes s /\
  isRemoved i (toggleInstrumentRemoved i s) = negb (isRemoved i s).
Proof.
  split; [intros Hr; repeat split; try done|].
  - intros v. by apply voicesAt_skips_removed.
  - repeat split; destruct i as [[]|[]]; done.
Qed.

(** C5 on a grid where the removed kick is set on the step being played. *)
Lemma removal_hides_never_deletes_witness :
  isRemoved (InDrums kick) kickAndBassRemoved = true /\
  at_index (d_kick (drums (tracks (sequence kickAndBassRemoved))))
           (currentStep kickAndBassRemoved) = Some true /\
  (forall v, v ∈ voicesAt (currentStep kickAndBassRemoved) kickAndBassRemoved ->
             instrumentOf v <> InDrums kick) /\
  tracks (sequence (playStep kickAndBassRemoved)) = tracks (sequence kickAndBassRemoved).
Proof.
  split; [reflexivity|]. split; [reflexivity|].
  destruct (removal_hides_never_deletes (InDrums kick) kickAndBassRemoved) as [H _].
  destruct (H eq_refl) as (_ & Hv & Ht & _).
  split; [exact Hv | exact Ht].
Defined.

(** ** Unknown pattern slots *)

(** C7.  For a slot id with no pattern in the store, [applyPattern] returns
    the state it was given, without an exception and without saving the
    outgoing pattern.  [requestPattern] returns without an exception too and
    leaves the active id, the live tracks, the removed flags, the pitch
    arrays, the step count, the step index and the store as they were.  When
    stopped, and when the id is the active one, it returns the very same
    state; when playing it records the id as the pending one, in the place
    of any id queued before, and writes nothing else. *)
Theorem nonexistent_slot_noop (i : Z) (s : Sequencer) :
  store (patterns s) !! i = None ->
  applyPattern i s = Some s /\
  exists s', requestPattern i s = Some s' /\
    active (patterns s') = active (patterns s) /\
    store (patterns s') = store (patterns s) /\
    sequence s' = sequence s /\
    synthNotes s' = synthNotes s /\
    steps s' = steps s /\
    currentStep s' = currentStep s /\
    (isPlaying s = false -> s' = s) /\
    (i = active (patterns s) -> s' = s) /\
    (isPlaying s = true -> i <> active (patterns s) -> s' = set_pending (Some i) s).
Proof.
  intros Hi.
  assert (Ha : applyPattern i s = Some s) by (unfold applyPattern; by rewrite Hi).
  split; [exact Ha|].
  unfold requestPattern.
  destruct (Z.eqb_spec i (active (patterns s))) as [He|Hne].
  - exists s. do 7 (split; [reflexivity|]).
    split; [done|]. split; [done|]. intros _ Hne. by destruct Hne.
  - destruct (isPlaying s) eqn:Hp.
    + exists (set_pending (Some i) s). do 7 (split; [reflexivity|]).
      split; [discriminate|]. split; [intros He; by destruct Hne | done].
    + exists s. rewrite Ha. do 7 (split; [reflexivity|]).
      split; [done|]. split; [done | discriminate].
Qed.

(** C7 on the constructor's state, stopped and started, and slot 7. *)
Lemma nonexistent_slot_noop_witness :
  store (patterns init) !! 7 = None /\
  applyPattern 7 init = Some init /\
  requestPattern 7 init = Some init /\
  store (patterns (play init)) !! 7 = None /\
  requestPattern 7 (play init) = Some (set_pending (Some 7) (play init)).
Proof.
  split; [reflexivity|].
  destruct (nonexistent_slot_noop 7 init eq_refl)
    as (Ha & s' & Hr & _ & _ & _ & _ & _ & _ & Hs & _).
  split; [exact Ha|]. split; [rewrite Hr; f_equal; apply Hs; reflexivity|].
  split; [reflexivity|].
  destruct (nonexistent_slot_noop 7 (play init) eq_refl)
    as (_ & s'' & Hr' & _ & _ & _ & _ & _ & _ & _ & _ & Hp).
  rewrite Hr'. f_equal. apply Hp; [reflexivity | discriminate].
Defined.

(** Playing at step 10 with slot 2 queued, a request for slot 7, which has no
    pattern, changes the state: it takes the place of the queued id.  Six
    firings later the loop has wrapped with slot 1 still active, where
    without that request slot 2 would be. *)
Lemma nonexistent_slot_counterexample :
  exists s s',
    after toStepTen = Some s /\
    store (patterns s) !! 7 = None /\
    requestPattern 7 s = Some s' /\
    pending (patterns s) = Some 2 /\ pending (patterns s') = Some 7 /\
    s' <> s /\
    (fun x => active (patterns x)) <$> runAll (replicate 6 (OpTick 1)) s = Some 2 /\
    (fun x => active (patterns x)) <$> runAll (replicate 6 (OpTick 1)) s' = Some 1.
Proof.
  exists (default init (after toStepTen)),
         (set_pending (Some 7) (default init (after toStepTen))).
  split; [vm_compute; reflexivity|].
  split; [vm_compute; reflexivity|].
  split; [vm_compute; reflexivity|].
  split; [vm_compute; reflexivity|].
  split; [vm_compute; reflexivity|].
  split.
  { intros H. apply (f_equal (fun x => pending (patterns x))) in H.
    vm_compute in H. discriminate. }
  split; [vm_compute; reflexivity|].
  vm_compute; reflexivity.
Qed.

(** At the loop boundary a pending id without a pattern is dropped and the
    tick is otherwise the plain one. *)
Lemma playTick_drops_unknown_pending (i : Z) (s : Sequencer) :
  currentStep s = steps s - 1 ->
  pendingPattern s = Some i ->
  store (patterns s) !! i = None ->
  playTick s = Some (set_currentStep (Z.rem (currentStep s + 1) (steps s))
                       (set_pending None (playStep s))).
Proof.
  intros Hc Hp Hi. unfold playTick. simpl.
  rewrite Hc, Z.eqb_refl.
  change (pendingPattern (playStep s)) with (pendingPattern s). rewrite Hp. simpl.
  unfold applyPattern. simpl. rewrite Hi. cbn. rewrite Hc. reflexivity.
Qed.

(** ** Envelopes *)

Section Envelopes.
Local Open Scope Q_scope.

(** The boundaries [generateSynth] schedules are in order exactly when the
    attack is not negative and the stages are ordered. *)
Lemma gain_generateSynth_boundaries (f : Q) (w : Waveform) (p : Adsr) (level now : Q) :
  nondecreasing (boundaries (GainEngine.generateSynth f w p level now)) <->
  0 <= attack p /\ stagesOrdered p.
Proof.
  unfold stagesOrdered. simpl. split.
  - intros (H1 & H2 & H3 & H4 & _). repeat split; lra.
  - intros (H1 & H2 & H3 & H4). repeat split; lra.
Qed.

Lemma enhanced_generateSynth_boundaries (f : Q) (w : Waveform) (p : Adsr) (now : Q) :
  nondecreasing (boundaries (EnhancedEngine.generateSynth f w p now)) <->
  0 <= attack p /\ stagesOrdered p.
Proof.
  unfold stagesOrdered. simpl. split.
  - intros (H1 & H2 & H3 & H4 & _). repeat split; lra.
  - intros (H1 & H2 & H3 & H4). repeat split; lra.
Qed.

(** Where the decay ends and where the release starts, per recipe. *)
Lemma gain_recipes_overlap (n : Synth) :
  let p := GainEngine.recipe n in
  duration p - release p < attack p + decay p.
Proof. destruct n; simpl; lra. Qed.

(** C3.  The envelope constants of the engine sources.  In the engine with
    per-instrument gains all four recipes, and in both engines the default
    arguments of [generateSynth], end the decay after the release has
    started, so [attack+decay <= duration-release] fails and the scheduled
    boundaries are out of order; in the enhanced engine the same holds for
    the arp, while its bass, lead and pad keep their boundaries in order. *)
Theorem adsr_stage_order (f now : Q) :
  (forall n, ~ stagesOrdered (GainEngine.recipe n)) /\
  (forall n, ~ nondecreasing (boundaries (GainEngine.playSynthSound n f now))) /\
  ~ stagesOrdered defaultAdsr /\
  ~ stagesOrdered EnhancedEngine.arpRecipe /\
  ~ nondecreasing (boundaries (EnhancedEngine.playSynthSound arp f now)) /\
  nondecreasing (boundaries (EnhancedEngine.playSynthSound bass f now)) /\
  nondecreasing (boundaries (EnhancedEngine.playSynthSound lead f now)) /\
  nondecreasing (boundaries (EnhancedEngine.playSynthSound pad f now)).
Proof.
  split; [|split; [|split; [|split; [|split]]]].
  - intros n (_ & H & _). pose proof (gain_recipes_overlap n) as Ho. simpl in Ho. lra.
  - intros n H. pose proof (gain_recipes_overlap n) as Ho.
    destruct n; simpl in H, Ho; lra.
  - intros (_ & H & _). simpl in H. lra.
  - intros (_ & H & _). simpl in H. lra.
  - intros H. simpl in H. lra.
  - simpl. repeat split; lra.
Qed.

End Envelopes.

(** ** Timers *)

(** [play] always registers a fresh timer and points the handle at it. *)
Lemma play_registers_timer (s : Sequencer) :
  timers (play s) = <[nextTimer s := mkTimer PlayTick (getStepDuration s)]> (timers s) /\
  stepInterval (play s) = Some (nextTimer s) /\
  nextTimer (play s) = S (nextTimer s) /\
  isPlaying (play s) = true /\
  currentStep (play s) = currentStep s.
Proof. repeat split. Qed.

(** The closure of [updateStepInterval] never looks at the patterns. *)
Lemma rebuiltTick_keeps_patterns (s : Sequencer) :
  patterns (rebuiltTick s) = patterns s /\
  timers (rebuiltTick s) = timers s /\
  sequence (rebuiltTick s) = sequence s /\
  steps (rebuiltTick s) = steps s.
Proof. repeat split. Qed.

Lemma rebuilt_ticks_keep_patterns (id : nat) (n : nat) (s : Sequencer) :
  callback <$> timers s !! id = Some RebuiltTick ->
  exists s', runAll (replicate n (OpTick id)) s = Some s' /\
             patterns s' = patterns s /\ timers s' = timers s.
Proof.
  revert s. induction n as [|n IH]; intros s Ht.
  - exists s. by repeat split.
  - destruct (timers s !! id) as [t|] eqn:Hid; [|discriminate].
    simpl in Ht. injection Ht as Hcb.
    destruct (IH (rebuiltTick s)) as (s' & Hr & Hp & Hm).
    { change (timers (rebuiltTick s)) with (timers s). by rewrite Hid; simpl; f_equal. }
    exists s'. split; [|by split].
    change (replicate (S n) (OpTick id)) with (OpTick id :: replicate n (OpTick id)).
    cbn [runAll run]. unfold tick. rewrite Hid, Hcb. exact Hr.
Qed.

Lemma runAll_app (os1 os2 : list Op) (s : Sequencer) :
  runAll (os1 ++ os2) s = runAll os1 s ≫= runAll os2.
Proof.
  revert s. induction os1 as [|o os1 IH]; intros s; [done|].
  simpl. destruct (run o s) as [s'|]; [apply IH | done].
Qed.

Lemma after_app (os1 os2 : list Op) :
  after (os1 ++ os2) = after os1 ≫= runAll os2.
Proof. apply runAll_app. Qed.

(** C6.  [play] on a playing sequencer.  On every state it keeps the step
    index and sets the playing flag, but it registers one more timer under a
    new handle and moves [stepInterval] to it without cancelling the one it
    held.  On the constructor's state after [play(); play()] two timers with
    the closure of [play] are active; [stop()] then cancels only the second,
    and the first keeps ticking on the stopped sequencer. *)
Theorem play_twice_orphans_timer :
  let s1 := play init in
  let s2 := play s1 in
  let s3 := stop s2 in
  (forall s,
     isPlaying (play s) = true /\ currentStep (play s) = currentStep s /\
     stepInterval (play s) = Some (nextTimer s) /\
     timers (play s) = <[nextTimer s := mkTimer PlayTick (getStepDuration s)]> (timers s)) /\
  (isPlaying s1 = true /\ stepInterval s1 = Some 1%nat /\ size (timers s1) = 1%nat) /\
  (isPlaying s2 = true /\ currentStep s2 = currentStep s1 /\
   stepInterval s2 = Some 2%nat /\ size (timers s2) = 2%nat /\
   callback <$> timers s2 !! 1%nat = Some PlayTick /\
   callback <$> timers s2 !! 2%nat = Some PlayTick) /\
  (isPlaying s3 = false /\ stepInterval s3 = None /\
   callback <$> timers s3 !! 1%nat = Some PlayTick /\
   currentStep <$> tick 1 s3 = Some 1).
Proof.
  split; [intros s; repeat split|].
  vm_compute. repeat split.
Qed.

(** ** Rendering and the store *)

Lemma bind_some {A B} (x : A) (f : A -> option B) : Some x ≫= f = f x.
Proof. reflexivity. Qed.

Lemma ensureNotes_ok (n : Z) (notes : list Z) :
  0 <= n ->
  exists l, ensureNotes n notes = Some l /\ len l = n /\ (len notes = n -> l = notes).
Proof.
  intros Hn. unfold ensureNotes, newArray.
  destruct (Z.eqb_spec (len notes) n) as [He|Hne].
  - exists notes. auto.
  - destruct (Z.ltb_spec n 0); [lia|].
    exists (replicate (Z.to_nat n) 69). split; [done|]. split; [|done].
    rewrite len_replicate. lia.
Qed.

(** Rendering succeeds on a non-negative step count, writes at most the pitch
    arrays, and writes nothing when they already have the right length. *)
Lemma renderTracks_ok (s : Sequencer) :
  0 <= steps s ->
  exists m, renderTracks s = Some (set_synthNotes m s) /\
            notesShape (steps s) m /\
            (notesShape (steps s) (synthNotes s) -> m = synthNotes s).
Proof.
  intros Hn. unfold renderTracks, renderSynthTracks.
  destruct (ensureNotes_ok (steps s) (y_bass (synthNotes s)) Hn) as (b & -> & Hb & Hb').
  destruct (ensureNotes_ok (steps s) (y_lead (synthNotes s)) Hn) as (l & -> & Hl & Hl').
  destruct (ensureNotes_ok (steps s) (y_pad (synthNotes s)) Hn) as (p & -> & Hp & Hp').
  destruct (ensureNotes_ok (steps s) (y_arp (synthNotes s)) Hn) as (a & -> & Ha & Ha').
  rewrite !bind_some. exists (mkSynths b l p a). split; [done|]. split.
  - intros []; done.
  - intros H. rewrite (Hb' (H bass)), (Hl' (H lead)), (Hp' (H pad)), (Ha' (H arp)).
    by destruct (synthNotes s).
Qed.

Lemma updateStepInterval_frame (s : Sequencer) :
  let s' := updateStepInterval s in
  isPlaying s' = isPlaying s /\ currentStep s' = currentStep s /\
  bpm s' = bpm s /\ timeSignature s' = timeSignature s /\ steps s' = steps s /\
  currentSequenceId s' = currentSequenceId s /\ synthNotes s' = synthNotes s /\
  patterns s' = patterns s /\ sequence s' = sequence s /\ fired s' = fired s.
Proof.
  unfold updateStepInterval.
  destruct (stepInterval s) as [[|k]|]; destruct (isPlaying s) eqn:Hp; simpl;
    rewrite ?Hp; repeat split.
Qed.

Lemma resizePatternsTo_lookup (L : Z) (s : Sequencer) (i : Z) :
  store (patterns (resizePatternsTo L s)) !! i =
  if decide (i ∈ slotIds) then resizePattern L <$> store (patterns s) !! i
  else store (patterns s) !! i.
Proof.
  unfold resizePatternsTo, slotIds. simpl.
  rewrite !lookup_alter.
  destruct (decide (i ∈ [1; 2; 3; 4])) as [Hin|Hout].
  - set_unfold. repeat case_decide; subst; try lia; try done.
  - set_unfold. repeat case_decide; subst; try done; exfalso; apply Hout; auto.
Qed.

Lemma resizePatternsTo_bars (L : Z) (s : Sequencer) (i : Z) (p : Pattern) :
  store (patterns (resizePatternsTo L s)) !! i = Some p ->
  exists p0, store (patterns s) !! i = Some p0 /\ bars p = bars p0 /\
             (i ∈ slotIds -> p = resizePattern L p0).
Proof.
  rewrite resizePatternsTo_lookup. case_decide as Hin.
  - destruct (store (patterns s) !! i) as [p0|]; [|discriminate].
    simpl. intros [= <-]. exists p0. auto.
  - intros Hp. exists p. repeat split; auto. done.
Qed.

Lemma resizePattern_shape (L : Z) (p : Pattern) :
  0 <= L -> patternShape L (resizePattern L p).
Proof.
  intros HL. unfold patternShape, tracksShape, notesShape. simpl.
  repeat split; intros []; simpl;
    rewrite resizeStored_padOrTruncate by done; by apply len_padOrTruncate.
Qed.

Lemma or1_pos (x : Z) : 0 <= x -> 1 <= or1 x.
Proof. unfold or1. destruct (Z.eqb_spec x 0); lia. Qed.

Lemma or1_idem (x : Z) : or1 (or1 x) = or1 x.
Proof. unfold or1. destruct (Z.eqb_spec x 0) as [->|Hx]; [done|]. by destruct (Z.eqb_spec x 0). Qed.

Lemma or1_id (x : Z) : 1 <= x -> or1 x = x.
Proof. unfold or1. destruct (Z.eqb_spec x 0); lia. Qed.

Lemma stepsPerBar_pos (s : Sequencer) : 1 <= stepsPerBar s.
Proof. unfold stepsPerBar. lia. Qed.

Lemma getBars_active (s : Sequencer) (pa : Pattern) :
  store (patterns s) !! active (patterns s) = Some pa -> getBars s = or1 (bars pa).
Proof. unfold getBars. by intros ->. Qed.

Lemma saveCurrentPattern_ok (s : Sequencer) (pa : Pattern) :
  store (patterns s) !! active (patterns s) = Some pa ->
  saveCurrentPattern s =
  Some (set_store (<[active (patterns s) :=
                     mkPattern (or1 (bars pa)) (tracks (sequence s))
                               (removed (sequence s)) (synthNotes s)]>
                   (store (patterns s))) s).
Proof.
  intros Ha. unfold saveCurrentPattern. rewrite (getBars_active s pa Ha), Ha. reflexivity.
Qed.

(** What [applyPattern] does for a slot that exists. *)
Lemma applyPattern_ok (i : Z) (s : Sequencer) (q pa : Pattern) :
  store (patterns s) !! i = Some q ->
  store (patterns s) !! active (patterns s) = Some pa ->
  0 <= bars q ->
  exists s', applyPattern i s = Some s' /\
    steps s' = or1 (bars q) * stepsPerBar s /\
    currentStep s' = currentStep s /\ isPlaying s' = isPlaying s /\
    timeSignature s' = timeSignature s /\ bpm s' = bpm s /\
    active (patterns s') = i /\ pending (patterns s') = pending (patterns s) /\
    timers s' = timers s /\ nextTimer s' = nextTimer s /\
    stepInterval s' = stepInterval s /\ fired s' = fired s /\
    seq_bpm (sequence s') = seq_bpm (sequence s) /\
    (forall j p, store (patterns s') !! j = Some p ->
       (j = active (patterns s) /\ bars p = or1 (bars pa)) \/
       (exists p0, store (patterns s) !! j = Some p0 /\ bars p = bars p0)) /\
    (exists p', store (patterns s') !! i = Some p' /\
       tracks (sequence s') = p_tracks p' /\
       removed (sequence s') = p_removed p' /\
       (i ∈ slotIds -> synthNotes s' = p_synthNotes p')).
Proof.
  intros Hq Ha Hb.
  set (n := or1 (bars q) * stepsPerBar s).
  assert (Hn : 1 <= n).
  { pose proof (or1_pos _ Hb). pose proof (stepsPerBar_pos s). unfold n. nia. }
  set (saved := mkPattern (or1 (bars pa)) (tracks (sequence s)) (removed (sequence s))
                  (synthNotes s)).
  set (s1 := set_store (<[active (patterns s) := saved]> (store (patterns s))) s).
  assert (Hp : exists p, store (patterns s1) !! i = Some p /\ or1 (bars p) = or1 (bars q)).
  { simpl. destruct (decide (active (patterns s) = i)) as [<-|Hne].
    - rewrite lookup_insert_eq. exists saved. split; [done|]. simpl.
      rewrite Ha in Hq. injection Hq as <-. apply or1_idem.
    - rewrite lookup_insert_ne by done. by exists q. }
  destruct Hp as (p & Hp & Hpb).
  set (s3 := set_sequence (seq_set_steps n (sequence (set_steps n s1))) (set_steps n s1)).
  set (s4 := resizePatternsTo (steps s3) s3).
  assert (Hp' : exists p', store (patterns s4) !! i = Some p' /\
                           (i ∈ slotIds -> p' = resizePattern n p)).
  { unfold s4. rewrite resizePatternsTo_lookup.
    change (store (patterns s3) !! i) with (store (patterns s1) !! i). rewrite Hp.
    case_decide; simpl; eauto. eexists; split; [done|]. done. }
  destruct Hp' as (p' & Hp' & Hres).
  set (s8 := set_active i
               (set_synthNotes (p_synthNotes p')
                  (set_sequence (seq_set_removed (p_removed p')
                     (sequence (set_sequence (seq_set_tracks (p_tracks p') (sequence s4)) s4)))
                     (set_sequence (seq_set_tracks (p_tracks p') (sequence s4)) s4)))).
  assert (Happ : applyPattern i s = renderTracks s8).
  { unfold applyPattern. rewrite Hq, (saveCurrentPattern_ok s pa Ha), bind_some.
    fold saved. fold s1. rewrite Hp, bind_some. rewrite Hpb.
    change (stepsPerBar s1) with (stepsPerBar s). fold n.
    cbv zeta. fold s3. fold s4. rewrite Hp', bind_some. reflexivity. }
  destruct (renderTracks_ok s8) as (m & Hr & Hm & Hid); [simpl; lia|].
  exists (set_synthNotes m s8). rewrite Happ, Hr.
  split; [done|]. repeat split; try done.
  - intros j pj Hj.
    change (store (patterns (set_synthNotes m s8))) with (store (patterns s4)) in Hj.
    apply resizePatternsTo_bars in Hj as (p0 & Hj & Hbars & _).
    change (store (patterns s3) !! j) with (store (patterns s1) !! j) in Hj. simpl in Hj.
    destruct (decide (active (patterns s) = j)) as [<-|Hne].
    + rewrite lookup_insert_eq in Hj. injection Hj as <-. left. by rewrite Hbars.
    + rewrite lookup_insert_ne in Hj by done. right. eauto.
  - exists p'. split; [exact Hp'|]. repeat split; try done.
    intros Hin. simpl. apply Hid. simpl. rewrite (Hres Hin). simpl.
    intros []; simpl; rewrite resizeStored_padOrTruncate by lia;
      apply len_padOrTruncate; lia.
Qed.

(** ** Resizing *)

Lemma resize_tracks (n : Z) (t : Tracks) :
  0 <= n ->
  mkTracks (drumsMap (fun a => resize a n false) (drums t))
           (synthsMap (fun a => resize a n false) (synths t)) = tracksResized n t.
Proof.
  intros Hn. unfold tracksResized, drumsMap, synthsMap.
  by rewrite !resize_padOrTruncate by done.
Qed.

Lemma resize_notes (n : Z) (m : Synths (list Z)) :
  0 <= n -> synthsMap (fun a => resize a n 69) m = notesResized n m.
Proof.
  intros Hn. unfold notesResized, synthsMap. by rewrite !resize_padOrTruncate by done.
Qed.

Lemma tracksResized_shape (n : Z) (t : Tracks) : 0 <= n -> tracksShape n (tracksResized n t).
Proof. intros Hn. split; intros []; simpl; by apply len_padOrTruncate. Qed.

Lemma notesResized_shape (n : Z) (m : Synths (list Z)) : 0 <= n -> notesShape n (notesResized n m).
Proof. intros Hn []; simpl; by apply len_padOrTruncate. Qed.

Lemma resizePatternsTo_frame (L : Z) (s : Sequencer) :
  let s' := resizePatternsTo L s in
  steps s' = steps s /\ sequence s' = sequence s /\ synthNotes s' = synthNotes s /\
  currentStep s' = currentStep s /\ active (patterns s') = active (patterns s) /\
  pending (patterns s') = pending (patterns s) /\ isPlaying s' = isPlaying s /\
  timeSignature s' = timeSignature s /\ bpm s' = bpm s /\ fired s' = fired s.
Proof. repeat split. Qed.

(** The stored pattern after a resize, in the words of the specification. *)
Lemma resizePattern_padOrTruncate (n : Z) (p : Pattern) :
  0 <= n ->
  resizePattern n p =
  mkPattern (bars p) (tracksResized n (p_tracks p)) (p_removed p)
            (notesResized n (p_synthNotes p)).
Proof.
  intros Hn. unfold resizePattern, tracksResized, notesResized, drumsMap, synthsMap.
  by rewrite !resizeStored_padOrTruncate by done.
Qed.

(** [setBars] in full: with the step count unchanged it only records the bar
    count; otherwise it resizes the live arrays and the four slots, and takes
    the step index modulo the new count. *)
Lemma setBars_ok (b : Z) (s : Sequencer) (pat : Pattern) :
  store (patterns s) !! active (patterns s) = Some pat ->
  let c := Z.max 1 (Z.min 16 b) in
  let n := c * stepsPerBar s in
  let st1 := <[active (patterns s) :=
                 mkPattern c (p_tracks pat) (p_removed pat) (p_synthNotes pat)]>
               (store (patterns s)) in
  (steps s = n -> setBars b s = Some (set_store st1 s)) /\
  (steps s <> n ->
   exists s', setBars b s = Some s' /\
     steps s' = n /\ seq_steps (sequence s') = n /\
     tracks (sequence s') = tracksResized n (tracks (sequence s)) /\
     synthNotes s' = notesResized n (synthNotes s) /\
     currentStep s' = Z.rem (currentStep s) n /\
     (forall j, store (patterns s') !! j =
                if decide (j ∈ slotIds) then resizePattern n <$> st1 !! j else st1 !! j) /\
     active (patterns s') = active (patterns s) /\
     pending (patterns s') = pending (patterns s) /\
     isPlaying s' = isPlaying s /\ timeSignature s' = timeSignature s /\
     bpm s' = bpm s /\ fired s' = fired s /\
     removed (sequence s') = removed (sequence s) /\
     seq_bpm (sequence s') = seq_bpm (sequence s)).
Proof.
  intros Hpat c n st1.
  assert (Hn : 1 <= n).
  { pose proof (stepsPerBar_pos s). unfold n, c. nia. }
  unfold setBars. rewrite Hpat. cbv zeta.
  fold c. fold st1.
  change (stepsPerBar (set_store st1 s)) with (stepsPerBar s). fold n.
  change (steps (set_store st1 s)) with (steps s).
  split; intros Hs.
  - destruct (Z.eqb_spec n (steps s)); [done | lia].
  - destruct (Z.eqb_spec n (steps s)) as [He|_]; [lia|].
    set (s5 := set_synthNotes _ _).
    destruct (renderTracks_ok s5) as (m & Hr & _ & Hid); [simpl; lia|].
    assert (Hm : m = synthNotes s5).
    { apply Hid. simpl. rewrite resize_notes by lia. apply notesResized_shape. lia. }
    rewrite Hr, bind_some. subst m.
    set (s7 := set_currentStep _ _).
    set (s8 := if isPlaying s7 then updateStepInterval s7 else s7).
    assert (H8 : isPlaying s8 = isPlaying s7 /\ currentStep s8 = currentStep s7 /\
                 bpm s8 = bpm s7 /\ timeSignature s8 = timeSignature s7 /\
                 steps s8 = steps s7 /\ synthNotes s8 = synthNotes s7 /\
                 patterns s8 = patterns s7 /\ sequence s8 = sequence s7 /\
                 fired s8 = fired s7).
    { unfold s8. destruct (isPlaying s7) eqn:Hp; [|by rewrite ?Hp].
      pose proof (updateStepInterval_frame s7) as H. cbv zeta in H.
      rewrite Hp in H. destruct H as (?&?&?&?&?&?&?&?&?&?). by repeat split. }
    destruct H8 as (H8p & H8c & H8b & H8t & H8s & H8n & H8pat & H8q & H8f).
    exists (resizePatternsTo (steps s8) s8). split; [reflexivity|].
    destruct (resizePatternsTo_frame (steps s8) s8)
      as (Fs & Fq & Fn & Fc & Fa & Fp & Fi & Ft & Fb & Ff).
    rewrite Fs, Fq, Fn, Fc, Fa, Fp, Fi, Ft, Fb, Ff.
    rewrite H8s, H8q, H8n, H8c, H8pat, H8p, H8t, H8b, H8f.
    repeat split; try done.
    + simpl. by rewrite resize_tracks by lia.
    + simpl. by rewrite resize_notes by lia.
    + intros j. rewrite resizePatternsTo_lookup, H8pat. reflexivity.
Qed.

(** ** The step invariant *)






(** The constructor returns, and its state satisfies the invariants. *)
Lemma init_invariants :
  newSequencer = Some init /\ StepInv init /\ StoreInv init /\
  60 <= seq_bpm (sequence init) <= 200.
Proof.
  split; [vm_compute; reflexivity|].
  split; [vm_compute; repeat split; discriminate|].
  split; [|vm_compute; split; discriminate].
  split; [vm_compute; eexists; reflexivity|].
  split; [|vm_compute; discriminate].
  apply (bool_decide_unpack (map_Forall (fun _ p => 0 <= bars p) (store (patterns init)))).
  vm_compute. exact I.
Qed.





(** ** Resize consistency *)

(** The steps per bar as the specification writes them. *)
Lemma stepsPerBar_formula (s : Sequencer) :
  stepsPerBar s =
  Z.max 1 (Math_round (inject_Z (num (timeSignature s) * 16)
                       / inject_Z (den (timeSignature s)))).
Proof.
  unfold stepsPerBar, Math_round. f_equal. apply Qfloor_comp.
  rewrite inject_Z_mult. unfold Qdiv. ring.
Qed.

Lemma setBars_resizeOutcome (b : Z) (s : Sequencer) (pat : Pattern) :
  1 <= b <= 16 ->
  store (patterns s) !! active (patterns s) = Some pat ->
  resizeOutcome b s (setBars b s).
Proof.
  intros Hb Hpat. destruct (setBars_ok b s pat Hpat) as [Heq Hne].
  replace (Z.max 1 (Z.min 16 b)) with b in * by lia.
  set (n := b * stepsPerBar s) in *.
  assert (Hn : 1 <= n) by (pose proof (stepsPerBar_pos s); unfold n; nia).
  set (st1 := <[active (patterns s) := _]> _) in *.
  assert (Hst1 : forall j p, store (patterns s) !! j = Some p ->
            exists p1, st1 !! j = Some p1 /\ p_tracks p1 = p_tracks p /\
                       p_synthNotes p1 = p_synthNotes p).
  { intros j p Hj. unfold st1. destruct (decide (active (patterns s) = j)) as [<-|Hd].
    - rewrite lookup_insert_eq. eexists. split; [done|]. simpl.
      rewrite Hpat in Hj. by injection Hj as <-.
    - rewrite lookup_insert_ne by done. eauto. }
  unfold resizeOutcome. fold n.
  destruct (decide (steps s = n)) as [He|He].
  - exists (set_store st1 s). split; [by apply Heq|]. split; [done|].
    split; [done|]. intros _. split; [|by repeat split].
    intros (Ht & Hm & Hp). split; [done|]. split; [done|].
    intros j p' Hin Hj. simpl in Hj.
    unfold st1 in Hj. destruct (decide (active (patterns s) = j)) as [<-|Hd].
    + rewrite lookup_insert_eq in Hj. injection Hj as <-.
      exact (Hp _ _ Hin Hpat).
    + rewrite lookup_insert_ne in Hj by done. by apply (Hp j).
  - destruct (Hne He) as (s' & Hr & Hs' & _ & Ht & Hm & Hc & Hlk & _).
    exists s'. split; [done|]. split; [done|]. split; [|done]. intros _.
    split; [|split; [done|split; [done|split; [done|]]]].
    + split; [|split].
      * rewrite Hs', Ht. apply tracksResized_shape. lia.
      * rewrite Hs', Hm. apply notesResized_shape. lia.
      * intros j p' Hin. rewrite Hlk, decide_True by done.
        destruct (st1 !! j) as [p1|]; [|discriminate]. simpl. intros [= <-].
        rewrite Hs'. apply resizePattern_shape. lia.
    + intros j p Hin Hj. destruct (Hst1 j p Hj) as (p1 & Hp1 & Ht1 & Hm1).
      exists (resizePattern n p1). rewrite Hlk, decide_True, Hp1 by done.
      split; [done|]. rewrite resizePattern_padOrTruncate by lia. simpl.
      by rewrite Ht1, Hm1.
Qed.

(** C2.  For a bar count [b] in [[1,16]] and a time signature with a
    non-zero denominator, [setBars b] does not throw and leaves the step
    count [b * stepsPerBar], with [stepsPerBar = max 1 (round (num*16/den))].
    When that differs from the step count before, every drum, synth and
    pitch array, live and in the four slots, is the old one padded at the
    tail with [false] or 69 or truncated at the tail, so has exactly that
    length, and the step index is taken modulo the new count.  When it
    equals the step count before, every array and the step index are left as
    they were, so the arrays have that length if they had it before.  The
    same holds for a change of time signature, with the bar count of the
    active pattern. *)
Theorem resize_consistency :
  (forall b s pat,
     1 <= b <= 16 ->
     den (timeSignature s) <> 0 ->
     store (patterns s) !! active (patterns s) = Some pat ->
     stepsPerBar s = Z.max 1 (Math_round (inject_Z (num (timeSignature s) * 16)
                                          / inject_Z (den (timeSignature s)))) /\
     resizeOutcome b s (setBars b s)) /\
  (forall n d s pat,
     d <> 0 ->
     store (patterns s) !! active (patterns s) = Some pat ->
     1 <= bars pat <= 16 ->
     let s0 := set_timeSignature (mkTimeSignature n d) s in
     stepsPerBar s0 = Z.max 1 (Math_round (inject_Z (n * 16) / inject_Z d)) /\
     resizeOutcome (bars pat) s0 (onTsChange n d s)).
Proof.
  split.
  - intros b s pat Hb _ Hpat. split; [apply stepsPerBar_formula|].
    by apply (setBars_resizeOutcome b s pat).
  - intros n d s pat _ Hpat Hb s0. split; [apply (stepsPerBar_formula s0)|].
    unfold onTsChange, applyTimeSignature. fold s0.
    assert (Hpat0 : store (patterns s0) !! active (patterns s0) = Some pat) by exact Hpat.
    rewrite (getBars_active s0 pat Hpat0), or1_id by lia.
    by apply (setBars_resizeOutcome (bars pat) s0 pat).
Qed.

(** C2 at the constructor's state: two bars in 4/4, and a change to 3/4. *)
Lemma resize_consistency_witness :
  exists pat,
    store (patterns init) !! active (patterns init) = Some pat /\
    1 <= bars pat <= 16 /\
    resizeOutcome 2 init (setBars 2 init) /\
    resizeOutcome (bars pat) (set_timeSignature (mkTimeSignature 3 4) init)
      (onTsChange 3 4 init).
Proof.
  pose (pat := default (mkPattern 0 (tracks (sequence init)) defaultRemoved (synthNotes init))
                 (store (patterns init) !! 1)).
  assert (Hpat : store (patterns init) !! active (patterns init) = Some pat)
    by (vm_compute; reflexivity).
  assert (Hb : 1 <= bars pat <= 16) by (vm_compute; split; discriminate).
  assert (Hd : den (timeSignature init) <> 0) by (vm_compute; discriminate).
  exists pat. split; [exact Hpat|]. split; [exact Hb|]. split.
  - exact (proj2 (proj1 resize_consistency 2 init pat ltac:(lia) Hd Hpat)).
  - exact (proj2 (proj2 resize_consistency 3 4 init pat ltac:(lia) Hpat Hb)).
Defined.

(** A two-bar loop saved and loaded into a fresh one-bar sequencer: the live
    arrays have 32 cells while the step count is 16. *)
Lemma loaded_two_bars :
  exists s s', after [OpLoadSequence twoBarSnapshot] = Some s /\
    is_Some (store (patterns s) !! active (patterns s)) /\
    den (timeSignature s) <> 0 /\
    setBars 1 s = Some s' /\
    stepsPerBar s = 16 /\ steps s' = 16 /\
    len (d_kick (drums (tracks (sequence s')))) = 32.
Proof.
  exists (default init (after [OpLoadSequence twoBarSnapshot])).
  exists (default init (setBars 1 (default init (after [OpLoadSequence twoBarSnapshot])))).
  split; [vm_compute; reflexivity|].
  split; [vm_compute; eexists; reflexivity|].
  split; [vm_compute; discriminate|].
  split; [vm_compute; reflexivity|].
  split; [vm_compute; reflexivity|].
  split; vm_compute; reflexivity.
Qed.

(** C2 as worded fails after loading a snapshot of another length:
    [setBars 1] returns with the step count [1 * stepsPerBar = 16] and live
    arrays of length 32. *)
Lemma resize_consistency_counterexample :
  exists s s', after [OpLoadSequence twoBarSnapshot] = Some s /\
    is_Some (store (patterns s) !! active (patterns s)) /\
    den (timeSignature s) <> 0 /\
    setBars 1 s = Some s' /\
    steps s' = 1 * stepsPerBar s /\
    len (d_kick (drums (tracks (sequence s')))) <> steps s' /\
    ~ Shape s'.
Proof.
  destruct loaded_two_bars as (s & s' & Hs & Ha & Hd & Hs' & Hspb & Hst & Hk).
  exists s, s'.
  split; [exact Hs|]. split; [exact Ha|]. split; [exact Hd|]. split; [exact Hs'|].
  split; [by rewrite Hst, Hspb|]. split.
  - rewrite Hst, Hk. discriminate.
  - intros ((Hsh & _) & _). specialize (Hsh kick). simpl in Hsh.
    rewrite Hst, Hk in Hsh. discriminate.
Qed.

(** ** Snapshots *)

(** Merging a sequence with its own snapshot changes only the [id]
    property. *)
Lemma mergeSnapshot_own (s : Sequencer) :
  mergeSnapshot (sequence s) (getSequenceData s) =
  mkSequence (name (sequence s)) (seq_bpm (sequence s)) (seq_steps (sequence s))
    (tracks (sequence s)) (volume (sequence s)) (effects (sequence s))
    (removed (sequence s)) (currentSequenceId s).
Proof.
  unfold mergeSnapshot, getSequenceData. simpl. f_equal.
  by destruct (volume (sequence s)).
Qed.

(** C4.  On a state whose tempo is in [[60,200]] and whose step count is not
    negative, as in every state the sequencer reaches,
    [loadSequence(getSequenceData())] does not throw and leaves every drum
    and synth activation flag, the master, section and per-instrument
    volumes, the effect levels, the removed flags, the tempo, the name and
    the step count of the sequence as they were; the transport's step count,
    step index, playing flag, patterns and sequence id are unchanged too. *)
Theorem load_roundtrip (s : Sequencer) :
  60 <= seq_bpm (sequence s) <= 200 ->
  0 <= steps s ->
  exists s', loadSequence (Some (getSequenceData s)) s = Some s' /\
    tracks (sequence s') = tracks (sequence s) /\
    volume (sequence s') = volume (sequence s) /\
    effects (sequence s') = effects (sequence s) /\
    removed (sequence s') = removed (sequence s) /\
    seq_bpm (sequence s') = seq_bpm (sequence s) /\
    name (sequence s') = name (sequence s) /\
    seq_steps (sequence s') = seq_steps (sequence s) /\
    bpm s' = seq_bpm (sequence s) /\
    steps s' = steps s /\ currentStep s' = currentStep s /\
    isPlaying s' = isPlaying s /\ patterns s' = patterns s /\
    currentSequenceId s' = currentSequenceId s /\
    (notesShape (steps s) (synthNotes s) -> synthNotes s' = synthNotes s).
Proof.
  intros Hb Hs. unfold loadSequence.
  rewrite mergeSnapshot_own.
  set (s2 := set_currentSequenceId _ _).
  destruct (setBpm_frame (seq_bpm (sequence s2)) s2)
    as (Hp & Hc & Hst & Hts & Hpat & Hn & Hid & Hf & Hq).
  destruct (renderTracks_ok (setBpm (seq_bpm (sequence s2)) s2)) as (m & -> & _ & Hm).
  { by rewrite Hst. }
  eexists. split; [done|].
  cbn [sequence set_synthNotes bpm steps currentStep isPlaying patterns
       currentSequenceId synthNotes].
  rewrite Hq, Hst, Hc, Hp, Hpat, Hid.
  destruct (setBpm_stores (seq_bpm (sequence s2)) s2) as (Hbpm & _).
  rewrite Hbpm.
  replace (Z.max 60 (Z.min 200 (seq_bpm (sequence s2)))) with (seq_bpm (sequence s))
    by (simpl; lia).
  repeat split; try done.
  intros Hsh. rewrite (Hm ltac:(rewrite Hst, Hn; exact Hsh)). exact Hn.
Qed.

(** C4 on the constructor's state. *)
Lemma load_roundtrip_witness :
  60 <= seq_bpm (sequence init) <= 200 /\ 0 <= steps init /\
  exists s', loadSequence (Some (getSequenceData init)) init = Some s' /\
    tracks (sequence s') = tracks (sequence init) /\
    volume (sequence s') = volume (sequence init) /\
    effects (sequence s') = effects (sequence init) /\
    removed (sequence s') = removed (sequence init) /\
    seq_bpm (sequence s') = seq_bpm (sequence init).
Proof.
  assert (Hb : 60 <= seq_bpm (sequence init) <= 200) by (vm_compute; split; discriminate).
  assert (Hs : 0 <= steps init) by (vm_compute; discriminate).
  split; [exact Hb|]. split; [exact Hs|].
  destruct (load_roundtrip init Hb Hs) as (s' & Hl & Ht & Hv & He & Hr & Hq & _).
  exists s'. split; [exact Hl|]. split; [exact Ht|]. split; [exact Hv|].
  split; [exact He|]. split; [exact Hr | exact Hq].
Defined.

(** ** Quantized switching *)

(** Before the last step, and on the last step with nothing pending, the
    tick fires the step and advances; patterns and grid are untouched. *)
Lemma playTick_plain (s : Sequencer) :
  currentStep s <> steps s - 1 \/ pendingPattern s = None ->
  playTick s = Some (set_currentStep (Z.rem (currentStep s + 1) (steps s)) (playStep s)).
Proof.
  intros H. unfold playTick.
  change (currentStep (playStep s)) with (currentStep s).
  change (steps (playStep s)) with (steps s).
  change (pendingPattern (playStep s)) with (pendingPattern s).
  destruct (Z.eqb_spec (currentStep s) (steps s - 1)) as [He|Hne]; [|done].
  destruct H as [H|H]; [done|]. by rewrite H.
Qed.

(** On the last step with pattern [i] pending, the tick first fires the
    voices of the outgoing grid, then makes [i] active with its own step
    count and clears the pending id, then advances the index modulo the new
    count. *)
Lemma playTick_switches (i : Z) (s : Sequencer) (q : Pattern) :
  1 <= steps s -> StoreInv s ->
  currentStep s = steps s - 1 ->
  pendingPattern s = Some i ->
  store (patterns s) !! i = Some q ->
  exists s', playTick s = Some s' /\
    fired s' = fired s ++ voicesAt (currentStep s) s /\
    active (patterns s') = i /\ pending (patterns s') = None /\
    steps s' = or1 (bars q) * stepsPerBar s /\
    currentStep s' = Z.rem (steps s) (steps s').
Proof.
  intros Hs ([pa Ha] & Hbars & Hden) Hc Hp Hq. unfold playTick.
  change (currentStep (playStep s)) with (currentStep s).
  change (steps (playStep s)) with (steps s).
  change (pendingPattern (playStep s)) with (pendingPattern s).
  rewrite Hc, Z.eqb_refl, Hp.
  destruct (applyPattern_ok i (playStep s) q pa Hq Ha (Hbars _ _ Hq))
    as (s' & -> & Hst & Hcs & _ & _ & _ & Hact & _ & _ & _ & _ & Hf & _).
  rewrite !bind_some. eexists. split; [reflexivity|].
  cbn [fired set_currentStep set_pending set_patterns patterns active pending steps
       currentStep].
  rewrite Hf, Hact, Hst, Hcs.
  change (currentStep (playStep s)) with (currentStep s). rewrite Hc.
  change (stepsPerBar (playStep s)) with (stepsPerBar s).
  replace (steps s - 1 + 1) with (steps s) by lia.
  split; [unfold playStep; simpl; by rewrite Hc|]. by repeat split.
Qed.

(** The state after playing to step 10, asking for pattern 2 and changing the
    tempo: pattern 2 is pending and the one timer left is the rebuilt one. *)
Lemma rebuilt_interval_state :
  exists s0, after (toStepTen ++ [OpSetBpm 140]) = Some s0 /\
    active (patterns s0) = 1 /\ pending (patterns s0) = Some 2 /\
    callback <$> timers s0 !! 2%nat = Some RebuiltTick.
Proof.
  exists (default init (after (toStepTen ++ [OpSetBpm 140]))).
  vm_compute. repeat split.
Qed.

(** C1.  From the constructor's state, playing to step 10 and asking for
    pattern 2.  With the interval [play] created, five ticks later the
    active pattern is still 1 with 2 pending, and the tick at step 15 makes
    2 active, clears the pending id and wraps to step 0.  The closure that
    [updateStepInterval] installs never writes the patterns; so after a
    [setBpm] in between, the rebuilt interval ticks through step 15 and any
    number of further steps with pattern 1 still active and 2 still
    pending. *)
Theorem pending_pattern_lost_after_setBpm :
  let view := fun s => (currentStep s, active (patterns s), pending (patterns s)) in
  (forall s, patterns (rebuiltTick s) = patterns s) /\
  view <$> after toStepTen = Some (10, 1, Some 2) /\
  view <$> after (toStepTen ++ replicate 5 (OpTick 1)) = Some (15, 1, Some 2) /\
  view <$> after (toStepTen ++ replicate 6 (OpTick 1)) = Some (0, 2, None) /\
  view <$> after (toStepTen ++ [OpSetBpm 140] ++ replicate 6 (OpTick 2))
    = Some (0, 1, Some 2) /\
  (forall n, exists s,
     after (toStepTen ++ [OpSetBpm 140] ++ replicate n (OpTick 2)) = Some s /\
     active (patterns s) = 1 /\ pending (patterns s) = Some 2).
Proof.
  split; [reflexivity|].
  split; [vm_compute; reflexivity|]. split; [vm_compute; reflexivity|].
  split; [vm_compute; reflexivity|]. split; [vm_compute; reflexivity|].
  intros n.
  destruct rebuilt_interval_state as (s0 & H0 & Ha & Hp & Ht).
  destruct (rebuilt_ticks_keep_patterns 2 n s0 Ht) as (s & Hr & Hps & _).
  exists s. split.
  - rewrite app_assoc, after_app, H0. exact Hr.
  - rewrite Hps. split; [exact Ha | exact Hp].
Qed.

(** * Further properties *)

(** ** Note names and colours *)

Lemma pitchClass_mod (midi : Z) : pitchClass midi = midi mod 12.
Proof. unfold pitchClass. Z.to_euclidean_division_equations. lia. Qed.

Lemma pitchClass_range (midi : Z) : 0 <= pitchClass midi < 12.
Proof. rewrite pitchClass_mod. apply Z.mod_pos_bound. lia. Qed.

Lemma small_cases (x : Z) :
  0 <= x < 12 ->
  x = 0 \/ x = 1 \/ x = 2 \/ x = 3 \/ x = 4 \/ x = 5 \/
  x = 6 \/ x = 7 \/ x = 8 \/ x = 9 \/ x = 10 \/ x = 11.
Proof. lia. Qed.

Lemma noteNames_inj (x y : Z) :
  0 <= x < 12 -> 0 <= y < 12 ->
  at_index noteNames x = at_index noteNames y -> x = y.
Proof.
  intros Hx Hy.
  destruct (small_cases x Hx) as [->|[->|[->|[->|[->|[->|[->|[->|[->|[->|[->| ->]]]]]]]]]]];
  destruct (small_cases y Hy) as [->|[->|[->|[->|[->|[->|[->|[->|[->|[->|[->| ->]]]]]]]]]]];
  vm_compute; congruence.
Qed.

Lemma hue_inj (x y : Z) :
  0 <= x < 12 -> 0 <= y < 12 ->
  "hsl(" +:+ pretty (x * 30) +:+ ", 90%, 50%)" = "hsl(" +:+ pretty (y * 30) +:+ ", 90%, 50%)" ->
  x = y.
Proof.
  intros Hx Hy.
  destruct (small_cases x Hx) as [->|[->|[->|[->|[->|[->|[->|[->|[->|[->|[->| ->]]]]]]]]]]];
  destruct (small_cases y Hy) as [->|[->|[->|[->|[->|[->|[->|[->|[->|[->|[->| ->]]]]]]]]]]];
  vm_compute; congruence.
Qed.

(** X1.  [midiToName] never yields [undefined], also for negative numbers:
    it is always one of the twelve names; it repeats every octave, and two
    numbers get the same name exactly when they differ by a multiple
    of 12. *)
Theorem midiToName_pitch_class (a b : Z) :
  (exists n, midiToName a = Some n /\ n ∈ noteNames) /\
  midiToName (a + 12) = midiToName a /\
  (midiToName a = midiToName b <-> (a - b) mod 12 = 0).
Proof.
  unfold midiToName. split; [|split].
  - pose proof (pitchClass_range a) as Ha.
    destruct (small_cases _ Ha) as [H|[H|[H|[H|[H|[H|[H|[H|[H|[H|[H|H]]]]]]]]]]];
      rewrite H; eexists; (split; [reflexivity|]); unfold noteNames;
      rewrite !elem_of_cons; tauto.
  - rewrite !pitchClass_mod. replace (a + 12) with (a + 1 * 12) by lia.
    by rewrite Z.mod_add by lia.
  - split.
    + intros H. apply noteNames_inj in H; [|apply pitchClass_range..].
      rewrite !pitchClass_mod in H. Z.to_euclidean_division_equations. lia.
    + intros H. f_equal. rewrite !pitchClass_mod.
      Z.to_euclidean_division_equations. lia.
Qed.

(** X2.  The colour of a note is a hue that is a multiple of 30 between 0
    and 330, and two notes get the same colour exactly when they get the same
    name. *)
Theorem noteColor_matches_name (a b : Z) :
  (exists k, 0 <= k < 12 /\
     noteColorForMidi a = "hsl(" +:+ pretty (k * 30) +:+ ", 90%, 50%)") /\
  (noteColorForMidi a = noteColorForMidi b <-> midiToName a = midiToName b).
Proof.
  split.
  - exists (pitchClass a). split; [apply pitchClass_range | reflexivity].
  - unfold noteColorForMidi, midiToName. cbv zeta. split; intros H.
    + apply hue_inj in H; [|apply pitchClass_range..]. by rewrite H.
    + apply noteNames_inj in H; [|apply pitchClass_range..]. by rewrite H.
Qed.

(** ** Editing the grid *)

Lemma at_index_assign {v : bool} (arr : list bool) (step : Z) :
  0 <= step -> at_index (assign arr step v) step = Some v.
Proof.
  intros Hs. unfold at_index, assign, len.
  destruct (Z.ltb_spec step 0); [lia|].
  destruct (Z.ltb_spec step (Z.of_nat (length arr))).
  - apply list_lookup_insert_eq. lia.
  - rewrite lookup_app_r by lia.
    rewrite lookup_app_r by (rewrite length_replicate; lia).
    rewrite length_replicate.
    replace (Z.to_nat step - length arr - Z.to_nat (step - Z.of_nat (length arr)))%nat
      with 0%nat by lia.
    reflexivity.
Qed.

Lemma at_index_assign_ne {v : bool} (arr : list bool) (step k : Z) :
  k <> step -> 0 <= k < len arr ->
  at_index (assign arr step v) k = at_index arr k.
Proof.
  intros Hne Hk. unfold at_index, assign, len in *.
  destruct (Z.ltb_spec k 0); [lia|].
  destruct (Z.ltb_spec step 0); [done|].
  destruct (Z.ltb_spec step (Z.of_nat (length arr))).
  - apply list_lookup_insert_ne. lia.
  - apply lookup_app_l. lia.
Qed.

Lemma len_assign {v : bool} (arr : list bool) (step : Z) :
  len (assign arr step v) = Z.max (len arr) (step + 1).
Proof.
  unfold assign, len.
  destruct (Z.ltb_spec step 0); [lia|].
  destruct (Z.ltb_spec step (Z.of_nat (length arr))).
  - rewrite length_insert. lia.
  - rewrite !length_app, length_replicate. simpl. lia.
Qed.

Lemma assign_in_range {v : bool} (arr : list bool) (step : Z) :
  0 <= step < len arr -> assign arr step v = <[Z.to_nat step := v]> arr.
Proof.
  intros Hs. unfold assign.
  destruct (Z.ltb_spec step 0); [lia|].
  destruct (Z.ltb_spec step (len arr)); [done | lia].
Qed.

Lemma trackOf_setStep (i j : Instrument) (step : Z) (v : bool) (s : Sequencer) :
  trackOf j (setStep i step v s) =
  if bool_decide (j = i) then assign (trackOf i s) step v else trackOf j s.
Proof.
  assert (H : tracks (sequence (setStep i step v s)) =
              match i with
              | InDrums d =>
                  mkTracks (drumSet d (assign (drumAt d (drums (tracks (sequence s)))) step v)
                              (drums (tracks (sequence s)))) (synths (tracks (sequence s)))
              | InSynths y =>
                  mkTracks (drums (tracks (sequence s)))
                    (synthSet y (assign (synthAt y (synths (tracks (sequence s)))) step v)
                       (synths (tracks (sequence s))))
              end).
  { unfold setStep. destruct v, i; reflexivity. }
  unfold trackOf at 1. rewrite H.
  destruct i as [[]|[]], j as [[]|[]]; reflexivity.
Qed.

(** X3.  After [setStep] the cell reads back the value set, every other
    cell of the grid is as before, and a step on the grid leaves the length
    of the track unchanged; a step past the end lengthens that one track to
    reach it. *)
Theorem setStep_reads_back (i : Instrument) (step : Z) (v : bool) (s : Sequencer) :
  0 <= step ->
  let s' := setStep i step v s in
  at_index (trackOf i s') step = Some v /\
  (forall k, k <> step -> 0 <= k < len (trackOf i s) ->
             at_index (trackOf i s') k = at_index (trackOf i s) k) /\
  (forall j, j <> i -> trackOf j s' = trackOf j s) /\
  len (trackOf i s') = Z.max (len (trackOf i s)) (step + 1) /\
  synthNotes s' = synthNotes s /\ removed (sequence s') = removed (sequence s).
Proof.
  intros Hs s'. subst s'. split; [|split; [|split; [|split]]].
  - rewrite trackOf_setStep, bool_decide_eq_true_2 by done. by apply at_index_assign.
  - intros k Hk Hr. rewrite trackOf_setStep, bool_decide_eq_true_2 by done.
    by apply at_index_assign_ne.
  - intros j Hj. by rewrite trackOf_setStep, bool_decide_eq_false_2.
  - rewrite trackOf_setStep, bool_decide_eq_true_2 by done. apply len_assign.
  - unfold setStep. destruct v, i; done.
Qed.

Lemma setStep_reads_back_witness :
  0 <= 3 /\ at_index (trackOf (InDrums snare) (setStep (InDrums snare) 3 true init)) 3 = Some true.
Proof.
  split; [lia|].
  exact (proj1 (setStep_reads_back (InDrums snare) 3 true init ltac:(lia))).
Defined.

Lemma trackOf_toggleStep (i j : Instrument) (step : Z) (s : Sequencer) :
  trackOf j (toggleStep i step s) =
  if bool_decide (j = i)
  then assign (trackOf i s) step (negb (truthy (at_index (trackOf i s) step)))
  else trackOf j s.
Proof.
  unfold toggleStep.
  destruct (negb (truthy (at_index (trackOf i s) step)));
    destruct i as [[]|[]], j as [[]|[]]; reflexivity.
Qed.

Lemma fired_toggleStep (i : Instrument) (step : Z) (s : Sequencer) :
  exists vs, fired (toggleStep i step s) = fired s ++ vs /\
    (forall v, v ∈ vs -> instrumentOf v = i) /\
    length vs = if truthy (at_index (trackOf i s) step) then 0%nat else 1%nat.
Proof.
  unfold toggleStep. destruct (truthy (at_index (trackOf i s) step)); simpl.
  - exists []. rewrite app_nil_r. split; [done|]. split; [|done]. intros v Hv. inversion Hv.
  - destruct i; simpl; eexists; (split; [reflexivity|]); (split; [|done]);
      intros v Hv; apply list_elem_of_singleton in Hv; by subst.
Qed.

(** X4.  Toggling a step of the grid twice restores every track, and of
    the two toggles exactly one sounds the instrument: the log of voices
    grows by one voice of that instrument. *)
Theorem toggleStep_twice (i : Instrument) (step : Z) (s : Sequencer) :
  0 <= step < len (trackOf i s) ->
  let s2 := toggleStep i step (toggleStep i step s) in
  (forall j, trackOf j s2 = trackOf j s) /\
  exists v, fired s2 = fired s ++ [v] /\ instrumentOf v = i.
Proof.
  intros Hs s2. subst s2.
  assert (Hx : exists x, at_index (trackOf i s) step = Some x).
  { unfold at_index, len in *. destruct (Z.ltb_spec step 0); [lia|].
    apply lookup_lt_is_Some_2. lia. }
  destruct Hx as [x Hx].
  assert (H1 : at_index (trackOf i (toggleStep i step s)) step = Some (negb x)).
  { rewrite trackOf_toggleStep, bool_decide_eq_true_2, Hx by done.
    apply at_index_assign. lia. }
  split.
  - intros j. rewrite trackOf_toggleStep. case_bool_decide as Hj; [subst j|].
    + rewrite H1. simpl. rewrite negb_involutive.
      rewrite trackOf_toggleStep, bool_decide_eq_true_2, Hx by done. simpl.
      rewrite (assign_in_range (trackOf i s)) by done.
      rewrite assign_in_range by (unfold len in *; rewrite length_insert; done).
      rewrite list_insert_insert_eq. apply list_insert_id.
      unfold at_index in Hx. by destruct (Z.ltb_spec step 0); [lia|].
    + by rewrite trackOf_toggleStep, bool_decide_eq_false_2.
  - destruct (fired_toggleStep i step s) as (vs1 & Hf1 & Hi1 & Hl1).
    destruct (fired_toggleStep i step (toggleStep i step s)) as (vs2 & Hf2 & Hi2 & Hl2).
    rewrite Hx in Hl1. rewrite H1 in Hl2. simpl in *.
    rewrite Hf2, Hf1, <- app_assoc.
    destruct x; simpl in *.
    + destruct vs1; [|done]. destruct vs2 as [|v [|]]; try done.
      exists v. split; [done|]. apply Hi2, elem_of_cons. by left.
    + destruct vs2; [|done]. destruct vs1 as [|v [|]]; try done.
      exists v. rewrite app_nil_r. split; [done|]. apply Hi1, elem_of_cons. by left.
Qed.

Lemma toggleStep_twice_witness :
  0 <= 5 < len (trackOf (InSynths lead) init) /\
  (forall j, trackOf j (toggleStep (InSynths lead) 5 (toggleStep (InSynths lead) 5 init))
             = trackOf j init).
Proof.
  assert (H : 0 <= 5 < len (trackOf (InSynths lead) init)) by (vm_compute; split; congruence).
  split; [exact H|].
  exact (proj1 (toggleStep_twice (InSynths lead) 5 init H)).
Defined.

(** ** Bars *)

Lemma clamp_bars_idem (b : Z) :
  Z.max 1 (Z.min 16 (Z.max 1 (Z.min 16 b))) = Z.max 1 (Z.min 16 b).
Proof. lia. Qed.

(** A bar count outside [[1,16]] acts as the nearest bound. *)
Lemma setBars_clamp (b : Z) (s : Sequencer) :
  setBars b s = setBars (Z.max 1 (Z.min 16 b)) s.
Proof. unfold setBars. by rewrite clamp_bars_idem. Qed.

Lemma set_store_same (s : Sequencer) : set_store (store (patterns s)) s = s.
Proof. by destruct s as [? ? ? ? ? ? ? ? [] ? ? ? ?]. Qed.

(** X5.  With a time signature whose denominator is not 0, [setBars] never
    throws, whatever the bar count.  When the active slot exists, [getBars]
    afterwards is the bar count clamped to [[1,16]] and the step count is
    that many bars. *)
Theorem setBars_getBars (b : Z) (s : Sequencer) :
  den (timeSignature s) <> 0 ->
  exists s', setBars b s = Some s' /\
    (is_Some (store (patterns s) !! active (patterns s)) ->
     getBars s' = Z.max 1 (Z.min 16 b) /\
     steps s' = Z.max 1 (Z.min 16 b) * stepsPerBar s /\
     stepsPerBar s' = stepsPerBar s).
Proof.
  intros _.
  destruct (store (patterns s) !! active (patterns s)) as [pat|] eqn:Hpat.
  - destruct (setBars_ok b s pat Hpat) as [Heq Hne].
    set (c := Z.max 1 (Z.min 16 b)) in *.
    destruct (decide (steps s = c * stepsPerBar s)) as [He|He].
    + eexists. split; [by apply Heq|]. intros _.
      split; [|by split].
      unfold getBars. simpl. rewrite lookup_insert_eq. simpl. apply or1_id. unfold c. lia.
    + destruct (Hne He) as (s' & Hr & Hst & _ & _ & _ & _ & Hlk & Hact & _ & _ & Hts & _).
      exists s'. split; [done|]. intros _. split; [|split; [done|]].
      * unfold getBars. rewrite Hact, Hlk, lookup_insert_eq.
        case_decide; simpl; apply or1_id; unfold c; lia.
      * unfold stepsPerBar. by rewrite Hts.
  - exists s. split; [|by intros [? ?]]. unfold setBars. by rewrite Hpat.
Qed.

(** X5 on the constructor's state, in 4/4, asked for 40 bars. *)
Lemma setBars_getBars_witness :
  den (timeSignature init) <> 0 /\
  is_Some (store (patterns init) !! active (patterns init)) /\
  exists s', setBars 40 init = Some s' /\ getBars s' = Z.max 1 (Z.min 16 40).
Proof.
  assert (Hd : den (timeSignature init) <> 0) by (vm_compute; discriminate).
  assert (H : is_Some (store (patterns init) !! active (patterns init)))
    by (vm_compute; eexists; reflexivity).
  split; [exact Hd|]. split; [exact H|].
  destruct (setBars_getBars 40 init Hd) as (s' & Hr & Hs').
  exists s'. split; [exact Hr|]. exact (proj1 (Hs' H)).
Defined.

(** X6.  At the limits the bar buttons do nothing: with 16 bars in the
    active pattern [addBars(1)], and with 1 bar [addBars(-1)], return the
    state unchanged, provided the step count is that of the bar count. *)
Theorem addBars_saturates (s : Sequencer) (pat : Pattern) :
  store (patterns s) !! active (patterns s) = Some pat ->
  steps s = bars pat * stepsPerBar s ->
  (bars pat = 16 -> addBars 1 s = Some s) /\
  (bars pat = 1 -> addBars (-1) s = Some s).
Proof.
  intros Hpat Hst.
  assert (H : forall delta, 1 <= bars pat <= 16 ->
            Z.max 1 (Z.min 16 (bars pat + delta)) = bars pat -> addBars delta s = Some s).
  { intros delta Hb Hc. unfold addBars.
    rewrite (getBars_active s pat Hpat), or1_id by lia.
    destruct (setBars_ok (bars pat + delta) s pat Hpat) as [Heq _].
    rewrite Hc in Heq. rewrite (Heq Hst). f_equal.
    replace (mkPattern (bars pat) (p_tracks pat) (p_removed pat) (p_synthNotes pat))
      with pat by (by destruct pat).
    rewrite insert_id by done. apply set_store_same. }
  split; intros Hb; apply H; lia.
Qed.

Lemma addBars_saturates_witness :
  exists pat,
    store (patterns init) !! active (patterns init) = Some pat /\
    steps init = bars pat * stepsPerBar init /\
    bars pat = 1 /\ addBars (-1) init = Some init.
Proof.
  pose (pat := default (mkPattern 0 (tracks (sequence init)) defaultRemoved (synthNotes init))
                 (store (patterns init) !! 1)).
  assert (Hpat : store (patterns init) !! active (patterns init) = Some pat)
    by (vm_compute; reflexivity).
  assert (Hst : steps init = bars pat * stepsPerBar init) by (vm_compute; reflexivity).
  assert (Hb : bars pat = 1) by (vm_compute; reflexivity).
  exists pat. split; [exact Hpat|]. split; [exact Hst|]. split; [exact Hb|].
  exact (proj2 (addBars_saturates init pat Hpat Hst) Hb).
Defined.

(** ** Step duration and timers *)

Lemma getStepDuration_closed (s : Sequencer) :
  bpm s <> 0 -> (getStepDuration s == 15000 / inject_Z (bpm s))%Q.
Proof.
  intros Hb. unfold getStepDuration. field.
  intros H. apply Hb. unfold Qeq in H. simpl in H. lia.
Qed.

(** X7.  After [setBpm], for every input, the step lasts between 75 and
    250 milliseconds: it is [15000 / bpm] with the tempo clamped to
    [[60,200]], whatever the time signature and the step count. *)
Theorem step_duration_bounds (t : Z) (s : Sequencer) :
  let s' := setBpm t s in
  (getStepDuration s' == 15000 / inject_Z (Z.max 60 (Z.min 200 t)))%Q /\
  (75 <= getStepDuration s' <= 250)%Q.
Proof.
  intros s'. destruct (setBpm_stores t s) as [Hb _]. fold s' in Hb.
  assert (Hd : (getStepDuration s' == 15000 / inject_Z (Z.max 60 (Z.min 200 t)))%Q).
  { rewrite <- Hb. apply getStepDuration_closed. lia. }
  split; [exact Hd|]. rewrite Hd.
  set (c := Z.max 60 (Z.min 200 t)). assert (Hc : 60 <= c <= 200) by lia.
  assert (Hq : (0 < inject_Z c)%Q) by (unfold Qlt; simpl; lia).
  split.
  - apply Qle_shift_div_l; [done|]. unfold Qle, Qmult, inject_Z. simpl. lia.
  - apply Qle_shift_div_r; [done|]. unfold Qle, Qmult, inject_Z. simpl. lia.
Qed.

Lemma TimerInv_frame (s s' : Sequencer) :
  isPlaying s' = isPlaying s -> timers s' = timers s -> nextTimer s' = nextTimer s ->
  stepInterval s' = stepInterval s ->
  (isPlaying s = false -> currentStep s' = 0) ->
  TimerInv s -> TimerInv s'.
Proof.
  intros Hp Ht Hn Hi Hc (H1 & H2 & H3). unfold TimerInv.
  rewrite Hp, Ht, Hn, Hi. split; [done|]. split; [done|].
  destruct (isPlaying s); [done|].
  destruct H3 as (? & ? & ?). by rewrite Hc.
Qed.

Lemma updateStepInterval_TimerInv (s : Sequencer) :
  TimerInv s -> TimerInv (updateStepInterval s).
Proof.
  intros (H1 & H2 & H3). unfold updateStepInterval.
  destruct (isPlaying s) eqn:Hp.
  - destruct H3 as (k & t & -> & Ht). simpl. unfold TimerInv. simpl. rewrite Hp, Ht.
    split; [done|]. split.
    + intros id. rewrite delete_singleton_eq, insert_empty.
      intros [x Hx]. apply lookup_singleton_Some in Hx as [<- _]. lia.
    + destruct (nextTimer s) as [|n] eqn:Hn; [done|].
      exists n. eexists. split; [done|]. by rewrite delete_singleton_eq, insert_empty.
  - destruct H3 as (Ht & Hi & Hc). rewrite Hi. unfold TimerInv. rewrite Hp, Ht, Hi.
    split; [done|]. split; [by rewrite <- Ht|]. done.
Qed.

Lemma play_TimerInv (s : Sequencer) :
  TimerInv s -> isPlaying s = false -> TimerInv (play s).
Proof.
  intros (Hn & Hlt & H3) Hp. rewrite Hp in H3. destruct H3 as (Ht & Hi & Hc).
  unfold TimerInv. change (isPlaying (play s)) with true.
  change (timers (play s))
    with (<[nextTimer s := mkTimer PlayTick (getStepDuration s)]> (timers s)).
  change (nextTimer (play s)) with (S (nextTimer s)).
  change (stepInterval (play s)) with (Some (nextTimer s)).
  rewrite Ht, insert_empty. split; [done|]. split.
  - intros id [x Hx]. apply lookup_singleton_Some in Hx as [<- _]. lia.
  - destruct (nextTimer s) as [|n]; [done|]. by exists n, (mkTimer PlayTick (getStepDuration s)).
Qed.


Lemma init_TimerInv : TimerInv init.
Proof.
  split; [vm_compute; discriminate|]. split.
  - intros id [x Hx]. vm_compute in Hx. discriminate.
  - vm_compute. repeat split.
Qed.

(** X8.  Starting and stopping from the stopped state leaves no timer
    behind: pressing the play button twice returns the state it started
    from, up to the next handle the host will hand out. *)
Theorem play_then_stop (s : Sequencer) :
  TimerInv s -> isPlaying s = false ->
  onPlayButton (onPlayButton s) = set_timers (timers s) (S (nextTimer s)) s /\
  timers (onPlayButton (onPlayButton s)) = ∅.
Proof.
  intros (Hn & _ & H3) Hp. rewrite Hp in H3. destruct H3 as (Ht & Hi & Hc).
  assert (H : onPlayButton (onPlayButton s) = set_timers (timers s) (S (nextTimer s)) s).
  { unfold onPlayButton. rewrite Hp.
    change (isPlaying (play s)) with true. cbv iota.
    unfold stop. change (stepInterval (set_isPlaying false (play s))) with (Some (nextTimer s)).
    destruct (nextTimer s) as [|n] eqn:Hnx; [done|].
    destruct s as [pl cs b ts st si csid sn pat sq tm nx fr].
    simpl in *. subst. unfold set_timers, set_currentStep, set_stepInterval, clearInterval,
      set_timers. simpl. f_equal. by rewrite insert_empty, delete_singleton_eq. }
  split; [exact H|]. rewrite H. exact Ht.
Qed.

Lemma play_then_stop_witness :
  TimerInv init /\ isPlaying init = false /\
  timers (onPlayButton (onPlayButton init)) = ∅.
Proof.
  split; [exact init_TimerInv|]. split; [reflexivity|].
  exact (proj2 (play_then_stop init init_TimerInv eq_refl)).
Defined.

(** X9.  A tempo change while playing replaces the interval: afterwards
    exactly one timer is active, it is the one [stepInterval] holds, and its
    period is the step duration of the new tempo.  While stopped no timer is
    created. *)
Theorem setBpm_replaces_timer (t : Z) (s : Sequencer) :
  TimerInv s ->
  TimerInv (setBpm t s) /\
  (isPlaying s = true ->
   stepInterval (setBpm t s) = Some (nextTimer s) /\
   timers (setBpm t s) =
     {[nextTimer s := mkTimer RebuiltTick (getStepDuration (setBpm t s))]}) /\
  (isPlaying s = false -> timers (setBpm t s) = ∅).
Proof.
  intros Hi.
  set (s2 := set_sequence (seq_set_bpm (Z.max 60 (Z.min 200 t))
                              (sequence (set_bpm (Z.max 60 (Z.min 200 t)) s)))
               (set_bpm (Z.max 60 (Z.min 200 t)) s)).
  assert (H2 : TimerInv s2).
  { apply (TimerInv_frame s); try done.
    destruct Hi as (_ & _ & H). intros Hp. rewrite Hp in H. apply H. }
  assert (Hs : setBpm t s = if isPlaying s then updateStepInterval s2 else s2) by reflexivity.
  rewrite Hs. destruct Hi as (Hn & Hlt & H3).
  destruct (isPlaying s) eqn:Hp.
  - split; [by apply updateStepInterval_TimerInv|]. split; [|done]. intros _.
    destruct H3 as (k & tm & Hsi & Htm).
    unfold updateStepInterval.
    change (stepInterval s2) with (stepInterval s). change (isPlaying s2) with (isPlaying s).
    rewrite Hsi, Hp. simpl. split; [done|].
    rewrite Htm, delete_singleton_eq, insert_empty. reflexivity.
  - split; [done|]. split; [done|]. intros _. by destruct H3.
Qed.

Lemma setBpm_replaces_timer_witness :
  TimerInv (play init) /\ isPlaying (play init) = true /\
  stepInterval (setBpm 90 (play init)) = Some 2%nat.
Proof.
  assert (Hi : TimerInv (play init)) by (apply play_TimerInv; [apply init_TimerInv | reflexivity]).
  split; [exact Hi|]. split; [reflexivity|].
  exact (proj1 (proj1 (proj2 (setBpm_replaces_timer 90 (play init) Hi)) eq_refl)).
Defined.

(** ** The invariants of the running page *)



Lemma TimerInv_stopped (s : Sequencer) :
  TimerInv s -> isPlaying s = false -> currentStep s = 0 /\ timers s = ∅.
Proof. intros (_ & _ & H) Hp. rewrite Hp in H. by destruct H as (? & ? & ?). Qed.








(** The grid and note edits leave the transport and the store alone. *)
Lemma setStep_frame (i : Instrument) (step : Z) (v : bool) (s : Sequencer) :
  let s' := setStep i step v s in
  isPlaying s' = isPlaying s /\ currentStep s' = currentStep s /\ steps s' = steps s /\
  timeSignature s' = timeSignature s /\ patterns s' = patterns s /\
  timers s' = timers s /\ nextTimer s' = nextTimer s /\ stepInterval s' = stepInterval s /\
  synthNotes s' = synthNotes s /\ removed (sequence s') = removed (sequence s).
Proof. unfold setStep. destruct v, i; repeat split. Qed.




Lemma StoreInv_same (s s' : Sequencer) :
  patterns s' = patterns s -> timeSignature s' = timeSignature s -> StoreInv s -> StoreInv s'.
Proof. unfold StoreInv. by intros -> ->. Qed.





(** Without an audio context the play button throws on a stopped sequencer,
    and what [play] has written by then, the playing flag without a timer,
    is not a transport in order; a click on a step throws too, once the cell
    is written. *)
Lemma play_without_audio (s : Sequencer) :
  TimerInv s -> isPlaying s = false ->
  handleOn false EvPlayButton s = None /\ ~ TimerInv (playThrown s).
Proof.
  intros Ht Hp. split; [cbn [handleOn]; by rewrite Hp|].
  destruct (TimerInv_stopped s Ht Hp) as [_ He].
  intros (_ & _ & k & t & _ & Hk).
  change (timers s = {[S k := t]}) in Hk. rewrite He in Hk.
  apply (f_equal (fun m => m !! S k)) in Hk.
  rewrite lookup_empty, lookup_singleton_eq in Hk. discriminate.
Qed.

Lemma click_without_audio (i : Instrument) (step : nat) (s : Sequencer) :
  handleOn false (EvStepClick i step) s = None.
Proof.
  cbn [handleOn handle]. unfold withEngine. rewrite bind_some.
  assert (H : exists v, fired (setStep i (Z.of_nat step) true s) = fired s ++ [v]).
  { unfold setStep. destruct i; by eexists. }
  destruct H as [v ->]. by rewrite drop_app_length.
Qed.



(** ** Switching patterns *)

(** [applyPattern] in full, for a slot that exists: the live arrays are
    saved to the active slot, every slot is resized to the incoming step
    count, and slot [i] becomes the live sequence. *)
Lemma applyPattern_full (i : Z) (s : Sequencer) (q pa : Pattern) :
  store (patterns s) !! i = Some q ->
  store (patterns s) !! active (patterns s) = Some pa ->
  0 <= bars q ->
  let n := or1 (bars q) * stepsPerBar s in
  let st1 := <[active (patterns s) :=
                 mkPattern (or1 (bars pa)) (tracks (sequence s)) (removed (sequence s))
                           (synthNotes s)]> (store (patterns s)) in
  exists s' p', applyPattern i s = Some s' /\
    steps s' = n /\ 1 <= n /\
    (forall j, store (patterns s') !! j =
               if decide (j ∈ slotIds) then resizePattern n <$> st1 !! j else st1 !! j) /\
    store (patterns s') !! i = Some p' /\
    sequence s' = mkSequence (name (sequence s)) (seq_bpm (sequence s)) n (p_tracks p')
                    (volume (sequence s)) (effects (sequence s)) (p_removed p')
                    (seq_id (sequence s)) /\
    notesShape n (synthNotes s') /\
    (notesShape n (p_synthNotes p') -> synthNotes s' = p_synthNotes p') /\
    active (patterns s') = i /\ pending (patterns s') = pending (patterns s) /\
    timeSignature s' = timeSignature s /\ currentSequenceId s' = currentSequenceId s /\
    fired s' = fired s.
Proof.
  intros Hq Ha Hb n st1.
  assert (Hn : 1 <= n).
  { pose proof (or1_pos _ Hb). pose proof (stepsPerBar_pos s). unfold n. nia. }
  set (s1 := set_store st1 s).
  assert (Hp : exists p, store (patterns s1) !! i = Some p /\ or1 (bars p) = or1 (bars q)).
  { simpl. unfold st1. destruct (decide (active (patterns s) = i)) as [<-|Hne].
    - rewrite lookup_insert_eq. eexists. split; [done|]. simpl.
      rewrite Ha in Hq. injection Hq as <-. apply or1_idem.
    - rewrite lookup_insert_ne by done. by exists q. }
  destruct Hp as (p & Hp & Hpb).
  set (s3 := set_sequence (seq_set_steps n (sequence (set_steps n s1))) (set_steps n s1)).
  set (s4 := resizePatternsTo (steps s3) s3).
  assert (Hp' : exists p', store (patterns s4) !! i = Some p').
  { unfold s4. rewrite resizePatternsTo_lookup.
    change (store (patterns s3) !! i) with (store (patterns s1) !! i). rewrite Hp.
    case_decide; simpl; eauto. }
  destruct Hp' as (p' & Hp').
  set (s8 := set_active i
               (set_synthNotes (p_synthNotes p')
                  (set_sequence (seq_set_removed (p_removed p')
                     (sequence (set_sequence (seq_set_tracks (p_tracks p') (sequence s4)) s4)))
                     (set_sequence (seq_set_tracks (p_tracks p') (sequence s4)) s4)))).
  assert (Happ : applyPattern i s = renderTracks s8).
  { unfold applyPattern. rewrite Hq, (saveCurrentPattern_ok s pa Ha), bind_some.
    fold st1. fold s1. rewrite Hp, bind_some. rewrite Hpb.
    change (stepsPerBar s1) with (stepsPerBar s). fold n.
    cbv zeta. fold s3. fold s4. rewrite Hp', bind_some. reflexivity. }
  destruct (renderTracks_ok s8) as (m & Hr & Hm & Hid); [simpl; lia|].
  exists (set_synthNotes m s8), p'. rewrite Happ, Hr.
  split; [done|]. split; [done|]. split; [done|].
  split.
  { intros j.
    change (store (patterns (set_synthNotes m s8))) with (store (patterns s4)).
    unfold s4. by rewrite resizePatternsTo_lookup. }
  split; [exact Hp'|]. split; [done|]. split; [exact Hm|]. split; [exact Hid|].
  repeat split.
Qed.

Lemma padOrTruncate_twice {A} (arr : list A) (m n : Z) (v : A) :
  len arr = n -> n <= m -> padOrTruncate (padOrTruncate arr m v) n v = arr.
Proof.
  unfold len, padOrTruncate. intros Hl Hnm.
  rewrite take_app_le.
  2:{ rewrite length_take. lia. }
  rewrite take_take. rewrite take_ge by lia.
  rewrite length_app, length_take, length_replicate.
  replace (Z.to_nat n - _)%nat with 0%nat by lia. simpl. by rewrite app_nil_r.
Qed.

Lemma tracksResized_twice (t : Tracks) (m n : Z) :
  tracksShape n t -> n <= m -> tracksResized n (tracksResized m t) = t.
Proof.
  intros [Hd Hy] Hnm. destruct t as [[a1 a2 a3 a4 a5 a6] [b1 b2 b3 b4]].
  unfold tracksResized, drumsMap, synthsMap.
  pose proof (Hd kick). pose proof (Hd snare). pose proof (Hd hihat).
  pose proof (Hd openhat). pose proof (Hd crash). pose proof (Hd clap).
  pose proof (Hy bass). pose proof (Hy lead). pose proof (Hy pad). pose proof (Hy arp).
  cbn [drumAt synthAt drums synths d_kick d_snare d_hihat d_openhat d_crash d_clap
       y_bass y_lead y_pad y_arp] in *.
  by rewrite !padOrTruncate_twice.
Qed.

Lemma notesResized_twice (t : Synths (list Z)) (m n : Z) :
  notesShape n t -> n <= m -> notesResized n (notesResized m t) = t.
Proof.
  intros Hy Hnm. destruct t as [b1 b2 b3 b4]. unfold notesResized, synthsMap.
  pose proof (Hy bass). pose proof (Hy lead). pose proof (Hy pad). pose proof (Hy arp).
  cbn [synthAt y_bass y_lead y_pad y_arp] in *.
  by rewrite !padOrTruncate_twice.
Qed.

Lemma init_Shape : Shape init /\ DomInv init.
Proof.
  split; [split; [|split]|].
  - split; intros []; vm_compute; reflexivity.
  - intros []; vm_compute; reflexivity.
  - intros i p Hi Hp. unfold slotIds in Hi. rewrite !elem_of_cons, elem_of_nil in Hi.
    destruct Hi as [->|[->|[->|[->|[]]]]]; vm_compute in Hp; injection Hp as <-;
      (split; [split|]; intros []; reflexivity).
  - intros i [p Hp]. revert i p Hp.
    apply (bool_decide_unpack (map_Forall (fun i _ => i ∈ slotIds) (store (patterns init)))).
    vm_compute. exact I.
Qed.

Lemma slot_1 : 1 ∈ slotIds.
Proof. unfold slotIds. rewrite !elem_of_cons. tauto. Qed.

Lemma slot_2 : 2 ∈ slotIds.
Proof. unfold slotIds. rewrite !elem_of_cons. tauto. Qed.

(** X11.  Switching to another slot and back.  With the live arrays in the
    length of the step count, the step count that of the active bars, and
    both slots among the four, [applyPattern i] followed by
    [applyPattern] of the slot left comes back to the same step count,
    active slot and removed flags; the live flags and pitches come back cut
    to the step count of slot [i] and padded again, so they are restored in
    full exactly when slot [i] is at least as long. *)
Theorem switch_and_back (i : Z) (s : Sequencer) (q pa : Pattern) :
  let a := active (patterns s) in
  let ni := or1 (bars q) * stepsPerBar s in
  store (patterns s) !! i = Some q ->
  store (patterns s) !! a = Some pa ->
  0 <= bars q -> 0 <= bars pa ->
  i ∈ slotIds -> a ∈ slotIds -> i <> a ->
  steps s = or1 (bars pa) * stepsPerBar s ->
  tracksShape (steps s) (tracks (sequence s)) ->
  notesShape (steps s) (synthNotes s) ->
  exists s1 s2,
    applyPattern i s = Some s1 /\ applyPattern a s1 = Some s2 /\
    steps s1 = ni /\ active (patterns s1) = i /\
    steps s2 = steps s /\ active (patterns s2) = a /\
    removed (sequence s2) = removed (sequence s) /\
    tracks (sequence s2) = tracksResized (steps s) (tracksResized ni (tracks (sequence s))) /\
    synthNotes s2 = notesResized (steps s) (notesResized ni (synthNotes s)) /\
    (steps s <= ni ->
       tracks (sequence s2) = tracks (sequence s) /\ synthNotes s2 = synthNotes s).
Proof.
  intros a ni Hq Ha Hbq Hba Hi Hain Hne Hsteps Hts Hns.
  destruct (applyPattern_full i s q pa Hq Ha Hbq)
    as (s1 & p1 & Happ1 & Hst1 & Hn1 & Hstore1 & Hp1 & Hseq1 & Hsh1 & Hnotes1 & Hact1 & _ & Hts1 & _).
  fold a in Hstore1. fold ni in Hst1, Hn1, Hstore1, Hseq1, Hsh1, Hnotes1.
  set (saved := mkPattern (or1 (bars pa)) (tracks (sequence s)) (removed (sequence s))
                  (synthNotes s)) in Hstore1.
  assert (Hsa : store (patterns s1) !! a = Some (resizePattern ni saved)).
  { rewrite Hstore1. rewrite decide_True by done. by rewrite lookup_insert_eq. }
  assert (Hsi : store (patterns s1) !! active (patterns s1) = Some p1) by (by rewrite Hact1).
  assert (Hspb : stepsPerBar s1 = stepsPerBar s) by (unfold stepsPerBar; by rewrite Hts1).
  assert (Hba' : 0 <= bars (resizePattern ni saved)).
  { simpl. pose proof (or1_pos _ Hba). lia. }
  destruct (applyPattern_full a s1 _ p1 Hsa Hsi Hba')
    as (s2 & p2 & Happ2 & Hst2 & Hn2 & Hstore2 & Hp2 & Hseq2 & Hsh2 & Hnotes2 & Hact2 & _).
  assert (Hna : or1 (bars (resizePattern ni saved)) * stepsPerBar s1 = steps s).
  { simpl. by rewrite or1_idem, Hspb, Hsteps. }
  rewrite Hna in Hst2, Hn2, Hstore2, Hseq2, Hsh2, Hnotes2.
  assert (Hp2' : p2 = resizePattern (steps s) (resizePattern ni saved)).
  { rewrite Hstore2 in Hp2. rewrite decide_True in Hp2 by done.
    rewrite Hact1 in Hp2. rewrite lookup_insert_ne in Hp2 by done.
    rewrite Hsa in Hp2. simpl in Hp2. by injection Hp2 as <-. }
  assert (Htr : p_tracks p2 = tracksResized (steps s) (tracksResized ni (tracks (sequence s)))).
  { rewrite Hp2'. rewrite !resizePattern_padOrTruncate by lia. reflexivity. }
  assert (Hno : p_synthNotes p2 = notesResized (steps s) (notesResized ni (synthNotes s))).
  { rewrite Hp2'. rewrite !resizePattern_padOrTruncate by lia. reflexivity. }
  assert (Hrm : p_removed p2 = removed (sequence s)).
  { rewrite Hp2'. reflexivity. }
  assert (Hn2' : synthNotes s2 = notesResized (steps s) (notesResized ni (synthNotes s))).
  { rewrite <- Hno. apply Hnotes2. rewrite Hno. apply notesResized_shape. lia. }
  exists s1, s2.
  split; [exact Happ1|]. split; [exact Happ2|]. split; [exact Hst1|]. split; [exact Hact1|].
  split; [exact Hst2|]. split; [exact Hact2|].
  split; [by rewrite Hseq2|]. split; [by rewrite Hseq2|]. split; [exact Hn2'|].
  intros Hle. split.
  - rewrite Hseq2. simpl. rewrite Htr. by apply tracksResized_twice.
  - rewrite Hn2'. by apply notesResized_twice.
Qed.

(** X11 at the constructor's state: to slot 2 and back to slot 1. *)
Lemma switch_and_back_witness :
  exists s1 s2,
    applyPattern 2 init = Some s1 /\ applyPattern 1 s1 = Some s2 /\
    tracks (sequence s2) = tracks (sequence init) /\ synthNotes s2 = synthNotes init.
Proof.
  pose (pat := default (mkPattern 0 (tracks (sequence init)) defaultRemoved (synthNotes init))
                 (store (patterns init) !! 1)).
  assert (Hq : store (patterns init) !! 2 = Some pat) by (vm_compute; reflexivity).
  assert (Ha : store (patterns init) !! active (patterns init) = Some pat)
    by (vm_compute; reflexivity).
  assert (Hb : 0 <= bars pat) by (vm_compute; discriminate).
  assert (Hne : 2 <> active (patterns init)) by (vm_compute; discriminate).
  assert (Hs : steps init = or1 (bars pat) * stepsPerBar init) by (vm_compute; reflexivity).
  destruct init_Shape as ((Ht & Hn & _) & _).
  destruct (switch_and_back 2 init pat pat Hq Ha Hb Hb slot_2 slot_1 Hne Hs Ht Hn)
    as (s1 & s2 & H1 & H2 & _ & _ & _ & _ & _ & _ & _ & H3).
  assert (Hle : steps init <= or1 (bars pat) * stepsPerBar init) by (vm_compute; discriminate).
  exists s1, s2. split; [exact H1|]. split; [exact H2|]. exact (H3 Hle).
Defined.

(** ** The arrays keep the length of the step count *)



















(** ** What a step sounds *)

Lemma drumNames_all (d : Drum) : In d drumNames.
Proof. destruct d; simpl; tauto. Qed.

Lemma synthNames_all (y : Synth) : In y synthNames.
Proof. destruct y; simpl; tauto. Qed.

Lemma flat_map_guard_sublist {A B C} (c : A -> bool) (g : A -> B) (h : B -> C) (l : list A) :
  h <$> flat_map (fun n => if c n then [g n] else []) l `sublist_of` (fun n => h (g n)) <$> l.
Proof.
  induction l as [|a l IH]; [constructor|]. simpl. destruct (c a); simpl.
  - by constructor.
  - by constructor.
Qed.

Lemma instruments_NoDup :
  NoDup ((InDrums <$> drumNames) ++ (InSynths <$> synthNames)).
Proof. apply (bool_decide_unpack _). vm_compute. exact I. Qed.

(** X13.  The voices of a step.  A voice is handed to the engine at a step
    exactly when its instrument is not removed and its flag at that step is
    set, a synth voice with the pitch stored for the step (69 where none is
    stored); no instrument sounds twice in one step. *)
Theorem voicesAt_iff (step : Z) (s : Sequencer) :
  (forall v, v ∈ voicesAt step s <->
     isRemoved (instrumentOf v) s = false /\
     truthy (at_index (trackOf (instrumentOf v) s) step) = true /\
     match v with
     | DrumVoice _ => True
     | SynthVoice y midi => midi = noteAt y step s
     end) /\
  NoDup (instrumentOf <$> voicesAt step s).
Proof.
  split.
  - intros v. unfold voicesAt. rewrite elem_of_app, !list_elem_of_In, !in_flat_map. split.
    + intros [(n & _ & Hn)|(n & _ & Hn)].
      * destruct (negb _ && _) eqn:Hc; [|inversion Hn]. destruct Hn as [<-|[]].
        apply andb_true_iff in Hc as [Hr Ht]. apply negb_true_iff in Hr. by repeat split.
      * destruct (negb _ && _) eqn:Hc; [|inversion Hn]. destruct Hn as [<-|[]].
        apply andb_true_iff in Hc as [Hr Ht]. apply negb_true_iff in Hr. by repeat split.
    + intros (Hr & Ht & Hm). destruct v as [d|y midi]; simpl in Hr, Ht.
      * left. exists d. split; [apply drumNames_all|]. rewrite Hr, Ht. simpl. by left.
      * right. exists y. split; [apply synthNames_all|]. rewrite Hr, Ht. simpl. left. by rewrite Hm.
  - unfold voicesAt. rewrite fmap_app.
    eapply sublist_NoDup; [exact instruments_NoDup|].
    apply sublist_app.
    + apply (flat_map_guard_sublist _ DrumVoice instrumentOf).
    + apply (flat_map_guard_sublist _ (fun n => SynthVoice n (noteAt n step s)) instrumentOf).
Qed.

Lemma at_index_fmap {A B} (f : A -> B) (l : list A) (i : Z) :
  at_index (f <$> l) i = f <$> at_index l i.
Proof. unfold at_index. destruct (i <? 0); [done|]. apply list_lookup_fmap. Qed.

Lemma voicesAt_nil (step : Z) (s : Sequencer) :
  (forall i, truthy (at_index (trackOf i s) step) = false) -> voicesAt step s = [].
Proof.
  intros H. unfold voicesAt.
  pose proof (H (InDrums kick)) as H1. pose proof (H (InDrums snare)) as H2.
  pose proof (H (InDrums hihat)) as H3. pose proof (H (InDrums openhat)) as H4.
  pose proof (H (InDrums crash)) as H5. pose proof (H (InDrums clap)) as H6.
  pose proof (H (InSynths bass)) as H7. pose proof (H (InSynths lead)) as H8.
  pose proof (H (InSynths pad)) as H9. pose proof (H (InSynths arp)) as H10.
  cbn [trackOf drumAt synthAt] in *. cbn [flat_map drumNames synthNames drumAt synthAt].
  rewrite H1, H2, H3, H4, H5, H6, H7, H8, H9, H10. by rewrite !andb_false_r.
Qed.

Lemma trackOf_clearSequence (i : Instrument) (s : Sequencer) :
  trackOf i (clearSequence s) = (fun _ => false) <$> trackOf i s.
Proof. by destruct i as [[]|[]]. Qed.

(** X14.  A new sequence is silent and unsaved: after [newSequence] no step
    hands a voice to the engine, so [playStep] leaves the engine's log as it
    is whatever the step index; the sequence id is forgotten, so that the
    next save creates a sequence; the pitches, the removed flags, the
    volumes, the pattern store and the transport are kept. *)
Theorem newSequence_silent (s : Sequencer) :
  let s' := newSequence s in
  (forall step, voicesAt step s' = []) /\
  (forall c, fired (playStep (set_currentStep c s')) = fired s) /\
  currentSequenceId s' = None /\
  (forall trimmed, exists d, saveRequest trimmed s' = CreateSequence d) /\
  synthNotes s' = synthNotes s /\ removed (sequence s') = removed (sequence s) /\
  volume (sequence s') = volume (sequence s) /\ patterns s' = patterns s /\
  isPlaying s' = isPlaying s /\ currentStep s' = currentStep s /\ steps s' = steps s /\
  timers s' = timers s.
Proof.
  assert (H : forall step, voicesAt step (newSequence s) = []).
  { intros step. apply voicesAt_nil. intros i.
    change (trackOf i (newSequence s)) with (trackOf i (clearSequence s)).
    rewrite trackOf_clearSequence, at_index_fmap.
    by destruct (at_index (trackOf i s) step). }
  split; [exact H|]. split.
  { intros c. unfold playStep.
    change (voicesAt (currentStep (set_currentStep c (newSequence s)))
              (set_currentStep c (newSequence s)))
      with (voicesAt c (newSequence s)).
    rewrite H. simpl. by rewrite app_nil_r. }
  split; [done|]. split; [intros trimmed; by eexists|]. by repeat split.
Qed.

(** ** Playing round the loop *)

Lemma voicesAt_ext (step : Z) (s s' : Sequencer) :
  sequence s' = sequence s -> synthNotes s' = synthNotes s ->
  voicesAt step s' = voicesAt step s.
Proof. unfold voicesAt, noteAt. by intros -> ->. Qed.

(** With nothing pending, and in any case once the interval has been
    rebuilt, a firing of the timer sounds the step and advances. *)
Lemma tick_plain (id : nat) (s : Sequencer) (t : Timer) :
  timers s !! id = Some t ->
  callback t = RebuiltTick \/ pendingPattern s = None ->
  tick id s = Some (set_currentStep (Z.rem (currentStep s + 1) (steps s)) (playStep s)).
Proof.
  intros Ht H. unfold tick. rewrite Ht. destruct (callback t); simpl.
  - apply playTick_plain. destruct H as [H|H]; [done | by right].
  - reflexivity.
Qed.

Lemma flat_map_seq_shift {B} (f : nat -> list B) (k : nat) :
  flat_map f (seq 1 k) = flat_map (fun j => f (S j)) (seq 0 k).
Proof.
  rewrite <- seq_shift. generalize (seq 0 k). intros l.
  induction l as [|a l IH]; [done|]. simpl. by rewrite IH.
Qed.

(** X15.  Playing round the loop.  While the timer of the transport is
    registered and no slot is pending (or the interval is the rebuilt one),
    [k] firings of the timer never throw, move the step index from [c] to
    [(c + k) mod steps], and hand to the engine the voices of the steps
    [c], [c+1], ... in that order, wrapping at the end of the loop; the grid,
    the pitches, the removed flags, the pattern store and the timer are left
    alone.  In particular [steps] firings come back to the step they
    started from. *)
Theorem ticks_loop (k : nat) (id : nat) (s : Sequencer) (t : Timer) :
  StepInv s ->
  timers s !! id = Some t ->
  callback t = RebuiltTick \/ pendingPattern s = None ->
  exists s', handleAll (replicate k (EvTimer id)) s = Some s' /\
    currentStep s' = (currentStep s + Z.of_nat k) mod steps s /\
    fired s' = fired s ++
      flat_map (fun j => voicesAt ((currentStep s + Z.of_nat j) mod steps s) s) (seq 0 k) /\
    sequence s' = sequence s /\ synthNotes s' = synthNotes s /\
    patterns s' = patterns s /\ steps s' = steps s /\
    timers s' = timers s /\ isPlaying s' = isPlaying s /\
    (Z.of_nat k = steps s -> currentStep s' = currentStep s).
Proof.
  revert s. induction k as [|k IH]; intros s (Hn & Hc) Ht Hp.
  - exists s. split; [done|]. rewrite Z.add_0_r, Z.mod_small by lia.
    split; [done|]. split; [simpl; by rewrite app_nil_r|]. repeat split; try done; lia.
  - set (s1 := set_currentStep (Z.rem (currentStep s + 1) (steps s)) (playStep s)).
    assert (Hc1 : currentStep s1 = (currentStep s + 1) mod steps s).
    { unfold s1. simpl. apply Z.rem_mod_nonneg; lia. }
    destruct (IH s1) as (s' & Hr & Hcs & Hf & Hq & Hno & Hpat & Hst & Hti & Hpl & _).
    { split; [exact Hn|]. rewrite Hc1. apply Z.mod_pos_bound. simpl. lia. }
    { exact Ht. }
    { exact Hp. }
    exists s'. split.
    { cbn [replicate handleAll handle]. by rewrite (tick_plain id s t Ht Hp), bind_some. }
    assert (Hcs' : currentStep s' = (currentStep s + Z.of_nat (S k)) mod steps s).
    { rewrite Hcs, Hc1. change (steps s1) with (steps s).
      rewrite Zplus_mod_idemp_l. f_equal. lia. }
    split; [exact Hcs'|]. split.
    { rewrite Hf. change (fired s1) with (fired s ++ voicesAt (currentStep s) s).
      rewrite <- app_assoc. f_equal.
      change (seq 0 (S k)) with (0%nat :: seq 1 k).
      cbn [flat_map]. rewrite Z.add_0_r, (Z.mod_small (currentStep s)) by lia. f_equal.
      rewrite flat_map_seq_shift. apply flat_map_ext. intros j.
      rewrite Hc1. change (steps s1) with (steps s). rewrite Zplus_mod_idemp_l.
      replace (currentStep s + 1 + Z.of_nat j) with (currentStep s + Z.of_nat (S j)) by lia.
      by apply voicesAt_ext. }
    split; [by rewrite Hq|]. split; [by rewrite Hno|]. split; [by rewrite Hpat|].
    split; [by rewrite Hst|]. split; [by rewrite Hti|]. split; [by rewrite Hpl|].
    intros Hk. rewrite Hcs', Hk.
    rewrite <- (Z.mul_1_l (steps s)) at 1. rewrite Z.mod_add by lia.
    apply Z.mod_small. lia.
Qed.

Lemma ticks_loop_witness :
  exists s', handleAll (replicate 16 (EvTimer 1)) (play init) = Some s' /\
    currentStep s' = currentStep (play init).
Proof.
  assert (Hi : StepInv (play init)) by (vm_compute; repeat split; discriminate).
  assert (Ht : timers (play init) !! 1%nat = Some (mkTimer PlayTick (getStepDuration init)))
    by (vm_compute; reflexivity).
  assert (Hp : callback (mkTimer PlayTick (getStepDuration init)) = RebuiltTick \/
               pendingPattern (play init) = None) by (right; vm_compute; reflexivity).
  destruct (ticks_loop 16 1 (play init) _ Hi Ht Hp) as (s' & Hr & _ & _ & _ & _ & _ & _ & _ & _ & H).
  exists s'. split; [exact Hr|]. apply H. vm_compute. reflexivity.
Defined.

(** ** Switching on the bar line *)

Lemma handleAll_app (es1 es2 : list UiEvent) (s : Sequencer) :
  handleAll (es1 ++ es2) s = s' ← handleAll es1 s; handleAll es2 s'.
Proof.
  revert s. induction es1 as [|e es1 IH]; intros s; [done|].
  simpl. destruct (handle e s) as [s1|]; [|done]. simpl. apply IH.
Qed.

(** Before the last step of the loop a firing of the timer sounds the step
    and advances, whichever closure the timer runs. *)
Lemma tick_early (id : nat) (s : Sequencer) (t : Timer) :
  timers s !! id = Some t ->
  currentStep s <> steps s - 1 ->
  tick id s = Some (set_currentStep (Z.rem (currentStep s + 1) (steps s)) (playStep s)).
Proof.
  intros Ht H. unfold tick. rewrite Ht. destruct (callback t); simpl.
  - apply playTick_plain. by left.
  - reflexivity.
Qed.

Lemma ticks_before_last (k : nat) (id : nat) (s : Sequencer) (t : Timer) :
  0 <= currentStep s ->
  timers s !! id = Some t ->
  currentStep s + Z.of_nat k <= steps s - 1 ->
  exists s', handleAll (replicate k (EvTimer id)) s = Some s' /\
    currentStep s' = currentStep s + Z.of_nat k /\
    fired s' = fired s ++
      flat_map (fun j => voicesAt (currentStep s + Z.of_nat j) s) (seq 0 k) /\
    sequence s' = sequence s /\ synthNotes s' = synthNotes s /\
    patterns s' = patterns s /\ steps s' = steps s /\
    timers s' = timers s /\ isPlaying s' = isPlaying s /\
    timeSignature s' = timeSignature s.
Proof.
  revert s. induction k as [|k IH]; intros s Hc Ht Hk.
  - exists s. split; [done|]. split; [lia|]. split; [simpl; by rewrite app_nil_r|].
    by repeat split.
  - set (s1 := set_currentStep (Z.rem (currentStep s + 1) (steps s)) (playStep s)).
    assert (Hc1 : currentStep s1 = currentStep s + 1).
    { unfold s1. simpl. apply Z.rem_small. lia. }
    destruct (IH s1) as (s' & Hr & Hcs & Hf & Hq & Hno & Hpat & Hst & Hti & Hpl & Hts).
    { lia. }
    { exact Ht. }
    { rewrite Hc1. change (steps s1) with (steps s). lia. }
    exists s'. split.
    { cbn [replicate handleAll handle].
      rewrite (tick_early id s t Ht) by lia. by rewrite bind_some. }
    split; [lia|]. split.
    { rewrite Hf. change (fired s1) with (fired s ++ voicesAt (currentStep s) s).
      rewrite <- app_assoc. f_equal.
      change (seq 0 (S k)) with (0%nat :: seq 1 k).
      cbn [flat_map]. rewrite Z.add_0_r. f_equal.
      rewrite flat_map_seq_shift. apply flat_map_ext. intros j.
      rewrite Hc1.
      replace (currentStep s + 1 + Z.of_nat j) with (currentStep s + Z.of_nat (S j)) by lia.
      by apply voicesAt_ext. }
    split; [by rewrite Hq|]. split; [by rewrite Hno|]. split; [by rewrite Hpat|].
    split; [by rewrite Hst|]. split; [by rewrite Hti|]. split; [by rewrite Hpl|].
    by rewrite Hts.
Qed.

(** X25.  A pattern asked for while playing comes in on the bar line.  With
    the interval of [play] running, pressing the button of another slot
    changes nothing but the pending id; the firings up to the last step of
    the loop still sound the old grid, with the old slot active; the firing
    of the last step sounds the old grid once more, then makes the slot
    asked for active with its own step count, clears the pending id and
    continues at the old step count modulo the new one: at 0 when the old
    count is a multiple of the new one, and at the old count, inside the new
    loop, when the new loop is longer. *)
Theorem quantized_switch (i : Z) (id : nat) (s : Sequencer) (t : Timer) (q : Pattern) :
  StepInv s -> StoreInv s ->
  isPlaying s = true ->
  timers s !! id = Some t -> callback t = PlayTick ->
  store (patterns s) !! i = Some q ->
  i <> active (patterns s) -> i <> 0 ->
  let k := Z.to_nat (steps s - 1 - currentStep s) in
  (forall j, (j <= k)%nat ->
     exists sj, handleAll (EvPatternButton i :: replicate j (EvTimer id)) s = Some sj /\
       active (patterns sj) = active (patterns s) /\ pending (patterns sj) = Some i /\
       steps sj = steps s /\ currentStep sj = currentStep s + Z.of_nat j /\
       sequence sj = sequence s /\
       fired sj = fired s ++
         flat_map (fun j => voicesAt (currentStep s + Z.of_nat j) s) (seq 0 j)) /\
  exists s', handleAll (EvPatternButton i :: replicate (S k) (EvTimer id)) s = Some s' /\
    active (patterns s') = i /\ pending (patterns s') = None /\
    steps s' = or1 (bars q) * stepsPerBar s /\
    currentStep s' = Z.rem (steps s) (steps s') /\
    ((steps s' | steps s) -> currentStep s' = 0) /\
    (steps s < steps s' -> currentStep s' = steps s) /\
    fired s' = fired s ++
      flat_map (fun j => voicesAt (currentStep s + Z.of_nat j) s) (seq 0 (S k)).
Proof.
  intros (Hn & Hc) Hst Hp Ht Hcb Hq Hne Hi0 k.
  set (s0 := set_pending (Some i) s).
  assert (Hreq : handle (EvPatternButton i) s = Some s0).
  { cbn [handle]. unfold requestPattern.
    destruct (Z.eqb_spec i (active (patterns s))); [done|]. by rewrite Hp. }
  assert (Hbefore : forall j, (j <= k)%nat ->
            exists sj, handleAll (replicate j (EvTimer id)) s0 = Some sj /\
              currentStep sj = currentStep s + Z.of_nat j /\
              fired sj = fired s ++
                flat_map (fun j => voicesAt (currentStep s + Z.of_nat j) s) (seq 0 j) /\
              sequence sj = sequence s /\ synthNotes sj = synthNotes s /\
              patterns sj = patterns s0 /\ steps sj = steps s /\
              timeSignature sj = timeSignature s).
  { intros j Hj.
    destruct (ticks_before_last j id s0 t) as (sj & Hr & H1 & H2 & H3 & H4 & H5 & H6 & _ & _ & H9).
    { simpl. lia. }
    { exact Ht. }
    { simpl. unfold k in Hj. lia. }
    exists sj. split; [exact Hr|]. split; [exact H1|]. split; [|by repeat split].
    rewrite H2. f_equal. }
  split.
  - intros j Hj. destruct (Hbefore j Hj) as (sj & Hr & H1 & H2 & H3 & _ & H5 & H6 & _).
    exists sj. split; [cbn [handleAll]; by rewrite Hreq, bind_some|].
    rewrite H5. by repeat split.
  - destruct (Hbefore k ltac:(lia)) as (sk & Hr & H1 & H2 & H3 & H4 & H5 & H6 & H7).
    assert (Hck : currentStep sk = steps sk - 1) by (rewrite H1, H6; unfold k; lia).
    assert (Hstk : StoreInv sk).
    { apply (StoreInv_same s0); [exact H5 | exact H7 | exact Hst]. }
    assert (Hpk : pendingPattern sk = Some i).
    { unfold pendingPattern. rewrite H5. simpl. by destruct (Z.eqb_spec i 0). }
    assert (Hqk : store (patterns sk) !! i = Some q) by (by rewrite H5).
    destruct (playTick_switches i sk q ltac:(lia) Hstk Hck Hpk Hqk)
      as (s' & Hr' & Hf & Ha & Hpe & Hs' & Hc').
    exists s'. split.
    { cbn [handleAll]. rewrite Hreq, bind_some, replicate_S_end, handleAll_app, Hr, bind_some.
      cbn [handleAll handle]. unfold tick.
      replace (timers sk !! id) with (Some t).
      - rewrite Hcb. simpl. by rewrite Hr'.
      - symmetry. destruct (ticks_before_last k id s0 t) as (sk' & Hr2 & _ & _ & _ & _ & _ & _ & Hti & _).
        { simpl. lia. }
        { exact Ht. }
        { simpl. unfold k. lia. }
        rewrite Hr in Hr2. injection Hr2 as <-. by rewrite Hti. }
    assert (Hspb : stepsPerBar sk = stepsPerBar s) by (unfold stepsPerBar; by rewrite H7).
    split; [exact Ha|]. split; [exact Hpe|]. split; [by rewrite Hs', Hspb|].
    split; [by rewrite Hc', H6|].
    assert (Hs1 : 1 <= steps s').
    { rewrite Hs'. destruct Hst as (_ & Hbars & _).
      pose proof (or1_pos _ (Hbars _ _ Hq)). pose proof (stepsPerBar_pos sk). nia. }
    split.
    { intros [m Hm]. rewrite Hc', H6, Hm. apply Z.rem_mul. lia. }
    split; [intros Hlt; rewrite Hc', H6; apply Z.rem_small; lia|].
    rewrite Hf, H2, seq_S, flat_map_app, app_assoc. f_equal. simpl.
    rewrite app_nil_r, H1. by apply voicesAt_ext.
Qed.

Lemma quantized_switch_witness :
  exists s', handleAll (EvPatternButton 2 :: replicate 16 (EvTimer 1)) (play init) = Some s' /\
    active (patterns s') = 2 /\ pending (patterns s') = None.
Proof.
  pose (pat := default (mkPattern 0 (tracks (sequence init)) defaultRemoved (synthNotes init))
                 (store (patterns init) !! 2)).
  assert (Hi : StepInv (play init)) by (vm_compute; repeat split; discriminate).
  destruct init_invariants as (_ & _ & Hst & _).
  assert (Hp : isPlaying (play init) = true) by reflexivity.
  assert (Ht : timers (play init) !! 1%nat = Some (mkTimer PlayTick (getStepDuration init)))
    by (vm_compute; reflexivity).
  assert (Hq : store (patterns (play init)) !! 2 = Some pat) by (vm_compute; reflexivity).
  assert (Hne : 2 <> active (patterns (play init))) by (vm_compute; discriminate).
  assert (H0 : 2 <> 0) by discriminate.
  destruct (quantized_switch 2 1 (play init) _ pat Hi Hst Hp Ht eq_refl Hq Hne H0)
    as (_ & s' & Hr & Ha & Hpe & _).
  exists s'. split; [exact Hr|]. split; [exact Ha | exact Hpe].
Defined.

(** ** Dragging a note *)

Lemma synthAt_synthSet {A} (z y : Synth) (v : A) (o : Synths A) :
  synthAt z (synthSet y v o) = if bool_decide (z = y) then v else synthAt z o.
Proof. by destruct z, y. Qed.

Lemma at_index_nat {A} (l : list A) (k : nat) : at_index l (Z.of_nat k) = l !! k.
Proof.
  unfold at_index. destruct (Z.ltb_spec (Z.of_nat k) 0); [lia|]. by rewrite Nat2Z.id.
Qed.

Lemma synthNotes_setStep (i : Instrument) (step : Z) (v : bool) (s : Sequencer) :
  synthNotes (setStep i step v s) = synthNotes s.
Proof. by destruct (setStep_frame i step v s) as (_ & _ & _ & _ & _ & _ & _ & _ & H & _). Qed.

(** X16.  One move of a note drag.  For a step that has a pitch cell, the
    pitch stored afterwards is the start pitch plus one semitone per 8
    pixels of upward movement, clamped to 48..84; no other pitch cell and no
    other track changes; and unless this drag has already activated the
    step, the step is active afterwards.  The cell's own track changes, if
    at all, only at the dragged step. *)
Theorem dragMove_note (d : DragState) (clientY : Q) (s : Sequencer) :
  let y := dr_sound d in
  let k := dr_step d in
  let midi := Z.max 48 (Z.min 84 (dr_startMidi d + Math_round ((dr_startY d - clientY) / 8))) in
  let s' := snd (dragMove d clientY s) in
  (k < length (synthAt y (synthNotes s)))%nat ->
  synthAt y (synthNotes s') !! k = Some midi /\ 48 <= midi <= 84 /\
  (forall z j, (z, j) <> (y, k) ->
     synthAt z (synthNotes s') !! j = synthAt z (synthNotes s) !! j) /\
  (forall i, i <> InSynths y -> trackOf i s' = trackOf i s) /\
  (forall j, j <> Z.of_nat k -> 0 <= j < len (trackOf (InSynths y) s) ->
     at_index (trackOf (InSynths y) s') j = at_index (trackOf (InSynths y) s) j) /\
  (dr_activatedOnDrag d = false ->
     truthy (at_index (trackOf (InSynths y) s') (Z.of_nat k)) = true).
Proof.
  intros y k midi s' Hk.
  assert (Hnote : forall s1 : Sequencer,
            synthNotes s1 = synthNotes s ->
            let s2 := snd (if bool_decide (at_index (synthAt y (synthNotes s1)) (Z.of_nat k)
                                           = Some midi)
                           then (d, s1)
                           else (d, set_fired (fired s1 ++ [SynthVoice y midi])
                                      (setNote y k midi s1))) in
            synthAt y (synthNotes s2) !! k = Some midi /\
            (forall z j, (z, j) <> (y, k) ->
               synthAt z (synthNotes s2) !! j = synthAt z (synthNotes s) !! j) /\
            (forall i, trackOf i s2 = trackOf i s1)).
  { intros s1 Hn. cbv zeta. case_bool_decide as Hb; cbn [snd].
    - rewrite at_index_nat in Hb. split; [exact Hb|]. split; [by rewrite Hn | done].
    - split; [|split; [|done]].
      + simpl. rewrite synthAt_synthSet, bool_decide_eq_true_2 by done.
        apply list_lookup_insert_eq. by rewrite Hn.
      + intros z j Hne. simpl. rewrite synthAt_synthSet, Hn.
        case_bool_decide as Hz; [|done]. subst z.
        apply list_lookup_insert_ne. intros ->. by apply Hne. }
  assert (Hs' : s' = snd (if bool_decide
                     (at_index (synthAt y (synthNotes
                        (if negb (dr_activatedOnDrag d) &&
                            negb (truthy (at_index (synthAt y (synths (tracks (sequence s))))
                                            (Z.of_nat k)))
                         then setStep (InSynths y) (Z.of_nat k) true s else s)))
                        (Z.of_nat k) = Some midi)
                   then (d, if negb (dr_activatedOnDrag d) &&
                               negb (truthy (at_index (synthAt y (synths (tracks (sequence s))))
                                               (Z.of_nat k)))
                            then setStep (InSynths y) (Z.of_nat k) true s else s)
                   else (d, set_fired
                          (fired (if negb (dr_activatedOnDrag d) &&
                                     negb (truthy (at_index (synthAt y (synths (tracks (sequence s))))
                                                     (Z.of_nat k)))
                                  then setStep (InSynths y) (Z.of_nat k) true s else s)
                           ++ [SynthVoice y midi])
                          (setNote y k midi
                             (if negb (dr_activatedOnDrag d) &&
                                 negb (truthy (at_index (synthAt y (synths (tracks (sequence s))))
                                                 (Z.of_nat k)))
                              then setStep (InSynths y) (Z.of_nat k) true s else s))))).
  { unfold s', dragMove. cbv zeta. fold y. fold k. fold midi.
    destruct (negb (dr_activatedOnDrag d) && _); by case_bool_decide. }
  set (s1 := if negb (dr_activatedOnDrag d) && _ then _ else s) in Hs'.
  assert (Hn1 : synthNotes s1 = synthNotes s).
  { unfold s1. destruct (negb _ && _); [apply synthNotes_setStep | done]. }
  destruct (Hnote s1 Hn1) as (H1 & H2 & H3). rewrite <- Hs' in H1, H2, H3.
  split; [exact H1|]. split; [unfold midi; lia|]. split; [exact H2|].
  split; [|split].
  - intros i Hi. rewrite H3. unfold s1. destruct (negb _ && _); [|done].
    rewrite trackOf_setStep. by rewrite bool_decide_eq_false_2.
  - intros j Hj Hr. rewrite H3. unfold s1. destruct (negb _ && _); [|done].
    rewrite trackOf_setStep, bool_decide_eq_true_2 by done.
    by apply at_index_assign_ne.
  - intros Ha. rewrite H3. unfold s1. rewrite Ha. cbn [negb andb].
    destruct (truthy (at_index (synthAt y (synths (tracks (sequence s)))) (Z.of_nat k))) eqn:Ht.
    + exact Ht.
    + cbn [negb]. rewrite trackOf_setStep, bool_decide_eq_true_2 by done.
      rewrite at_index_assign by lia. reflexivity.
Qed.

Lemma dragMove_note_witness :
  synthAt bass (synthNotes (snd (dragMove (dragStart bass 3 100 init) 60 init))) !! 3%nat
  = Some 74.
Proof.
  assert (Hk : (dr_step (dragStart bass 3 100 init)
                < length (synthAt (dr_sound (dragStart bass 3 100 init)) (synthNotes init)))%nat)
    by (vm_compute; lia).
  exact (proj1 (dragMove_note (dragStart bass 3 100 init) 60 init Hk)).
Defined.

(** ** The volume drag on a track label *)

Lemma clamp01 (r : Q) : (0 <= Qmax 0 (Qmin 1 r) <= 1)%Q.
Proof.
  split; [apply Q.le_max_l|].
  apply Q.max_lub; [discriminate | apply Q.le_min_l].
Qed.

Lemma Math_round_mono (a b : Q) : (a <= b)%Q -> Math_round a <= Math_round b.
Proof. intros H. unfold Math_round. apply Qfloor_resp_le. lra. Qed.

Lemma instrumentVolume_set (i j : Instrument) (v : Q) (s : Sequencer) :
  instrumentVolume j (setInstrumentVolume i v s) =
  if bool_decide (j = i) then v else instrumentVolume j s.
Proof. destruct i as [[]|[]], j as [[]|[]]; reflexivity. Qed.

(** X17.  The volume drag on a track label.  On a label of positive width
    the volume stored for the instrument is the pointer's position across
    the label, between 0 (at or left of the left edge) and 1 (at or right of
    the right edge), never decreasing as the pointer moves right; the fill
    shown is between 0 and 100 percent; no other instrument's volume, no
    section or master volume and nothing else of the sequence changes. *)
Theorem labelVolumeDrag_range (i : Instrument) (clientX left width : Q) (s : Sequencer) :
  (0 < width)%Q ->
  let v := labelVolumeAt clientX left width in
  let s' := labelVolumeDrag i clientX left width s in
  instrumentVolume i s' = v /\ (0 <= v <= 1)%Q /\
  0 <= fillPercent v <= 100 /\
  ((clientX <= left)%Q -> (v == 0)%Q) /\
  ((left + width <= clientX)%Q -> (v == 1)%Q) /\
  ((left <= clientX <= left + width)%Q -> (v == (clientX - left) / width)%Q) /\
  (forall x', (clientX <= x')%Q -> (v <= labelVolumeAt x' left width)%Q) /\
  (forall j, j <> i -> instrumentVolume j s' = instrumentVolume j s) /\
  master (volume (sequence s')) = master (volume (sequence s)) /\
  vol_drums (volume (sequence s')) = vol_drums (volume (sequence s)) /\
  vol_synths (volume (sequence s')) = vol_synths (volume (sequence s)) /\
  tracks (sequence s') = tracks (sequence s) /\ effects (sequence s') = effects (sequence s) /\
  removed (sequence s') = removed (sequence s) /\ synthNotes s' = synthNotes s /\
  patterns s' = patterns s /\ fired s' = fired s.
Proof.
  intros Hw v s'.
  assert (Hv : (0 <= v <= 1)%Q) by apply clamp01.
  assert (Hdiv : forall a b, (a <= b)%Q -> (a / width <= b / width)%Q).
  { intros a b Hab. unfold Qdiv. apply Qmult_le_compat_r; [exact Hab|].
    apply Qlt_le_weak, Qinv_lt_0_compat, Hw. }
  split; [unfold s', labelVolumeDrag; by rewrite instrumentVolume_set, bool_decide_eq_true_2|].
  split; [exact Hv|]. split.
  { unfold fillPercent. split.
    - exact (Math_round_mono 0 (v * 100) ltac:(destruct Hv; lra)).
    - exact (Math_round_mono (v * 100) 100 ltac:(destruct Hv; lra)). }
  split.
  { intros Hx. unfold v, labelVolumeAt. cbv zeta.
    assert (Hr : ((clientX - left) / width <= 0)%Q).
    { apply Qle_shift_div_r; [exact Hw | lra]. }
    apply Q.max_l. exact (Qle_trans _ _ _ (Q.le_min_r _ _) Hr). }
  split.
  { intros Hx. unfold v, labelVolumeAt. cbv zeta.
    assert (Hr : (1 <= (clientX - left) / width)%Q).
    { apply Qle_shift_div_l; [exact Hw | lra]. }
    apply (Qeq_trans _ (Qmin 1 ((clientX - left) / width))); [|by apply Q.min_l].
    apply Q.max_r, Q.min_glb; [discriminate | lra]. }
  split.
  { intros [Hx1 Hx2]. unfold v, labelVolumeAt. cbv zeta.
    assert (Hr0 : (0 <= (clientX - left) / width)%Q).
    { apply Qle_shift_div_l; [exact Hw | lra]. }
    assert (Hr1 : ((clientX - left) / width <= 1)%Q).
    { apply Qle_shift_div_r; [exact Hw | lra]. }
    apply (Qeq_trans _ (Qmin 1 ((clientX - left) / width))); [|by apply Q.min_r].
    apply Q.max_r, Q.min_glb; [discriminate | exact Hr0]. }
  split.
  { intros x' Hx. unfold v, labelVolumeAt. cbv zeta.
    apply Q.max_le_compat_l, Q.min_le_compat_l, Hdiv. lra. }
  split.
  { intros j Hj. unfold s', labelVolumeDrag. by rewrite instrumentVolume_set, bool_decide_eq_false_2. }
  unfold s', labelVolumeDrag. destruct i; by repeat split.
Qed.

Lemma labelVolumeDrag_range_witness :
  (0 <= instrumentVolume (InDrums kick) (labelVolumeDrag (InDrums kick) 130 100 120 init) <= 1)%Q.
Proof.
  assert (Hw : (0 < 120)%Q) by reflexivity.
  destruct (labelVolumeDrag_range (InDrums kick) 130 100 120 init Hw) as (H1 & H2 & _).
  rewrite H1. exact H2.
Defined.

(** ** Loading and saving *)

(** What [loadSequence] does with a snapshot, for any snapshot. *)
Lemma loadSequence_some (d : Snapshot) (s : Sequencer) :
  0 <= steps s ->
  let q := mergeSnapshot (sequence s) d in
  let t := Z.max 60 (Z.min 200 (seq_bpm q)) in
  exists s', loadSequence (Some d) s = Some s' /\
    sequence s' = seq_set_bpm t q /\ bpm s' = t /\
    currentSequenceId s' = mjoin (snap_id d) /\
    steps s' = steps s /\ currentStep s' = currentStep s /\
    isPlaying s' = isPlaying s /\ patterns s' = patterns s /\
    timeSignature s' = timeSignature s /\ fired s' = fired s /\
    notesShape (steps s) (synthNotes s') /\
    (notesShape (steps s) (synthNotes s) -> synthNotes s' = synthNotes s).
Proof.
  intros Hs q t. unfold loadSequence.
  set (s2 := set_currentSequenceId _ _).
  destruct (setBpm_frame (seq_bpm (sequence s2)) s2)
    as (Hp & Hc & Hst & Hts & Hpat & Hn & Hid & Hf & Hq).
  destruct (setBpm_stores (seq_bpm (sequence s2)) s2) as (Hbpm & _).
  destruct (renderTracks_ok (setBpm (seq_bpm (sequence s2)) s2)) as (m & -> & Hm & Hm').
  { by rewrite Hst. }
  eexists. split; [done|].
  cbn [sequence set_synthNotes bpm steps currentStep isPlaying patterns
       currentSequenceId synthNotes timeSignature fired].
  rewrite Hq, Hbpm, Hid, Hst, Hc, Hp, Hpat, Hts, Hf.
  split; [done|]. split; [done|]. split; [done|]. split; [done|]. split; [done|].
  split; [done|]. split; [done|]. split; [done|]. split; [done|].
  rewrite Hst in Hm, Hm'. split; [exact Hm|].
  intros Hsh. rewrite Hm' by (rewrite Hn; exact Hsh). exact Hn.
Qed.

(** X18.  Loading a snapshot, whatever it holds.  [loadSequence] does not
    throw; the properties the snapshot has replace those of the sequence and
    the others stay; a volume without [perInstrument] gets the default
    levels; the tempo of the result is clamped to 60..200 and is the same in
    the transport and in the sequence; the sequence id becomes that of the
    snapshot, and none when it has none.  The transport's step count, step
    index and playing flag, the time signature and the pattern store are not
    touched, and neither are the pitches, of which a snapshot carries
    none. *)
Theorem loadSequence_merges (d : Snapshot) (s : Sequencer) :
  0 <= steps s ->
  exists s', loadSequence (Some d) s = Some s' /\
    name (sequence s') = default (name (sequence s)) (snap_name d) /\
    tracks (sequence s') = default (tracks (sequence s)) (snap_tracks d) /\
    effects (sequence s') = default (effects (sequence s)) (snap_effects d) /\
    removed (sequence s') = default (removed (sequence s)) (snap_removed d) /\
    seq_steps (sequence s') = default (seq_steps (sequence s)) (snap_steps d) /\
    (snap_volume d = None -> volume (sequence s') = volume (sequence s)) /\
    (forall v, snap_volume d = Some v ->
       master (volume (sequence s')) = sv_master v /\
       vol_drums (volume (sequence s')) = sv_drums v /\
       vol_synths (volume (sequence s')) = sv_synths v /\
       perInstrument (volume (sequence s')) =
         default defaultPerInstrument (sv_perInstrument v)) /\
    bpm s' = Z.max 60 (Z.min 200 (default (seq_bpm (sequence s)) (snap_bpm d))) /\
    seq_bpm (sequence s') = bpm s' /\
    currentSequenceId s' = mjoin (snap_id d) /\
    steps s' = steps s /\ currentStep s' = currentStep s /\
    isPlaying s' = isPlaying s /\ timeSignature s' = timeSignature s /\
    patterns s' = patterns s /\
    (notesShape (steps s) (synthNotes s) -> synthNotes s' = synthNotes s).
Proof.
  intros Hs.
  destruct (loadSequence_some d s Hs)
    as (s' & Hr & Hq & Hb & Hid & Hst & Hc & Hp & Hpat & Hts & _ & _ & Hno).
  exists s'. split; [exact Hr|]. rewrite Hq, Hb, Hid, Hst, Hc, Hp, Hpat, Hts.
  unfold mergeSnapshot. cbn [seq_set_bpm name tracks effects removed seq_steps volume seq_bpm].
  split; [done|]. split; [done|]. split; [done|]. split; [done|]. split; [done|].
  split; [by intros ->|]. split; [by intros v ->|].
  split; [done|]. split; [done|]. split; [done|]. split; [done|]. split; [done|].
  split; [done|]. split; [done|]. split; [done | exact Hno].
Qed.

Lemma loadSequence_merges_witness :
  exists s', loadSequence (Some (mkSnapshot None (Some 500) None None
                                   (Some (mkSnapVolume 1 1 1 None)) None None None)) init
             = Some s' /\
    bpm s' = 200 /\ seq_bpm (sequence s') = 200 /\
    perInstrument (volume (sequence s')) = defaultPerInstrument /\
    tracks (sequence s') = tracks (sequence init).
Proof.
  assert (Hs : 0 <= steps init) by (vm_compute; discriminate).
  destruct (loadSequence_merges (mkSnapshot None (Some 500) None None
                                   (Some (mkSnapVolume 1 1 1 None)) None None None) init Hs)
    as (s' & Hr & _ & Ht & _ & _ & _ & _ & Hv & Hb & Hq & _).
  exists s'. split; [exact Hr|]. split; [exact Hb|]. split; [by rewrite Hq, Hb|].
  split; [exact (proj2 (proj2 (proj2 (Hv _ eq_refl)))) | exact Ht].
Defined.

(** X19.  Load, then save.  A snapshot that has every property, loaded into
    any sequencer, is what [getSequenceData] returns afterwards, except that
    the tempo comes back clamped to 60..200; so with the tempo in that range
    the snapshot comes back unchanged. *)
Theorem load_then_save (s : Sequencer) (nm : string) (b st : Z) (t : Tracks)
    (m dv sv : Q) (p : PerInstrument) (e : Effects) (r : Removed) (id : option SeqId) :
  0 <= steps s ->
  let d := fun b' => mkSnapshot (Some nm) (Some b') (Some st) (Some t)
                       (Some (mkSnapVolume m dv sv (Some p))) (Some e) (Some r) (Some id) in
  exists s', loadSequence (Some (d b)) s = Some s' /\
    getSequenceData s' = d (Z.max 60 (Z.min 200 b)) /\
    (60 <= b <= 200 -> getSequenceData s' = d b).
Proof.
  intros Hs d.
  destruct (loadSequence_some (d b) s Hs) as (s' & Hr & Hq & _ & Hid & _).
  exists s'. split; [exact Hr|].
  assert (H : getSequenceData s' = d (Z.max 60 (Z.min 200 b))).
  { unfold getSequenceData. rewrite Hq, Hid. reflexivity. }
  split; [exact H|]. intros Hb. rewrite H. f_equal. lia.
Qed.

Lemma load_then_save_witness :
  exists s', loadSequence (Some (getSequenceData init)) (play init) = Some s' /\
    getSequenceData s' = getSequenceData init.
Proof.
  assert (Hs : 0 <= steps (play init)) by (vm_compute; discriminate).
  assert (Hb : 60 <= seq_bpm (sequence init) <= 200) by (vm_compute; split; discriminate).
  destruct (load_then_save (play init) (name (sequence init)) (seq_bpm (sequence init))
              (seq_steps (sequence init)) (tracks (sequence init))
              (master (volume (sequence init))) (vol_drums (volume (sequence init)))
              (vol_synths (volume (sequence init))) (perInstrument (volume (sequence init)))
              (effects (sequence init)) (removed (sequence init)) (currentSequenceId init) Hs)
    as (s' & Hr & _ & H).
  exists s'. split; [exact Hr | exact (H Hb)].
Defined.

(** ** Saving from the application *)

Lemma sequenceNameOf_nonempty (trimmed : string) : sequenceNameOf trimmed <> "".
Proof. unfold sequenceNameOf. by case_bool_decide. Qed.

(** X20.  Saving from the dialog.  The snapshot sent is that of the
    sequencer under the name typed, or under 'Untitled Sequence' when the
    name is blank, so never under an empty name.  Without a sequence id the
    save creates a sequence; once it has completed with the id the server
    returned, the sequencer holds that id and the name, and every later save
    updates that same sequence, whatever is edited in between on the grid. *)
Theorem save_creates_then_updates (trimmed trimmed' : string) (id : SeqId) (s : Sequencer) :
  currentSequenceId s = None -> id <> "" ->
  let r := saveRequest trimmed s in
  let s1 := saveCompleted r trimmed (Some id) s in
  r = CreateSequence (snap_set_name (sequenceNameOf trimmed) (getSequenceData s)) /\
  sequenceNameOf trimmed <> "" /\
  currentSequenceId s1 = Some id /\ name (sequence s1) = sequenceNameOf trimmed /\
  tracks (sequence s1) = tracks (sequence s) /\ patterns s1 = patterns s /\
  (forall s2, currentSequenceId s2 = Some id ->
     saveRequest trimmed' s2 =
       UpdateSequence id (snap_set_name (sequenceNameOf trimmed') (getSequenceData s2)) /\
     currentSequenceId (saveCompleted (saveRequest trimmed' s2) trimmed' None s2) = Some id).
Proof.
  intros Hid Hne r s1.
  assert (Hr : r = CreateSequence (snap_set_name (sequenceNameOf trimmed) (getSequenceData s))).
  { unfold r, saveRequest. by rewrite Hid. }
  split; [exact Hr|]. split; [apply sequenceNameOf_nonempty|].
  unfold s1. rewrite Hr. split; [done|]. split; [done|]. split; [done|]. split; [done|].
  intros s2 H2. unfold saveRequest. rewrite H2, bool_decide_eq_false_2 by done.
  split; [done|]. exact H2.
Qed.

Lemma save_creates_then_updates_witness :
  saveRequest "" (newSequence init) =
  CreateSequence (snap_set_name "Untitled Sequence" (getSequenceData (newSequence init))).
Proof.
  assert (Hid : currentSequenceId (newSequence init) = None) by reflexivity.
  assert (Hne : "abc" <> ("" : string)) by discriminate.
  exact (proj1 (save_creates_then_updates "" "" "abc" (newSequence init) Hid Hne)).
Defined.

(** ** Levels of the synth voices *)

(** X21.  The envelope of a voice of the engine with per-instrument gains.
    Whatever level and sustain are passed, every value the envelope is
    driven to lies between 0 and 1; it starts and ends at 0, peaks at the
    level clamped to [[0,1]] and holds a sustain that is not above the peak;
    the oscillator is stopped at the time of the last envelope event.  The
    four instruments of [playSynthSound] peak at 0.45 at most, and the bass
    sounds an octave below the frequency asked for. *)
Theorem gain_envelope_levels (f : Q) (w : Waveform) (p : Adsr) (level now : Q) :
  let c := GainEngine.generateSynth f w p level now in
  let peak := Qmax 0 (Qmin 1 level) in
  let sus := (Qmax 0 (Qmin 1 (sustain p)) * peak)%Q in
  Forall (fun a => (0 <= eventValue a <= 1)%Q) (envelope c) /\
  eventValue <$> envelope c = [0%Q; peak; sus; sus; 0%Q] /\
  (sus <= peak)%Q /\
  ((level <= 0)%Q -> Forall (fun a => (eventValue a == 0)%Q) (envelope c)) /\
  last (boundaries c) = Some (stopTime c) /\
  oscillators c = [(w, f)] /\
  (forall n, Forall (fun a => (0 <= eventValue a <= 0.45)%Q)
               (envelope (GainEngine.playSynthSound n f now))) /\
  oscillators (GainEngine.playSynthSound bass f now) = [(sawtooth, (f * 0.5)%Q)].
Proof.
  intros c peak sus.
  assert (Hp : (0 <= peak <= 1)%Q) by apply clamp01.
  assert (Hc : (0 <= Qmax 0 (Qmin 1 (sustain p)) <= 1)%Q) by apply clamp01.
  assert (Hs0 : (0 <= sus)%Q).
  { unfold sus. apply Qmult_le_0_compat; [apply Hc | apply Hp]. }
  assert (Hsp : (sus <= peak)%Q).
  { unfold sus. apply (Qle_trans _ (1 * peak)); [|lra].
    apply Qmult_le_compat_r; [apply Hc | apply Hp]. }
  assert (Hs1 : (sus <= 1)%Q) by (destruct Hp; lra).
  split.
  { unfold c, GainEngine.generateSynth. cbn [envelope]. fold peak. fold sus.
    repeat constructor; cbn [eventValue]; try (apply Hp); try lra; done. }
  split; [reflexivity|]. split; [exact Hsp|]. split.
  { intros Hl.
    assert (Hp0 : (peak == 0)%Q).
    { unfold peak. apply Q.max_l. exact (Qle_trans _ _ _ (Q.le_min_r _ _) Hl). }
    assert (Hs : (sus == 0)%Q) by (unfold sus; rewrite Hp0; ring).
    unfold c, GainEngine.generateSynth. cbn [envelope]. fold peak. fold sus.
    repeat constructor; cbn [eventValue]; done. }
  split; [reflexivity|]. split; [reflexivity|]. split; [|reflexivity].
  intros []; unfold GainEngine.playSynthSound, GainEngine.generateSynth; cbn [envelope];
    repeat constructor; cbn [eventValue]; vm_compute; discriminate.
Qed.

(** ** The mixer of the engine *)

Lemma instrumentGain_set (i j : Instrument) (v : Q) (m : EngineMixer.Mixer) :
  EngineMixer.instrumentGain j (EngineMixer.setInstrumentVolume i v m) =
  if bool_decide (j = i) then (fun _ => v) <$> EngineMixer.instrumentGain i m
  else EngineMixer.instrumentGain j m.
Proof.
  destruct i as [d|y]; unfold EngineMixer.setInstrumentVolume.
  - destruct (drumAt d (EngineMixer.ig_drums m)) eqn:Hd.
    + destruct d, j as [[]|[]]; simpl in *; rewrite ?Hd; reflexivity.
    + case_bool_decide as Hj; [|done]. subst j. simpl. by rewrite Hd.
  - destruct (synthAt y (EngineMixer.ig_synths m)) eqn:Hy.
    + destruct y, j as [[]|[]]; simpl in *; rewrite ?Hy; reflexivity.
    + case_bool_decide as Hj; [|done]. subst j. simpl. by rewrite Hy.
Qed.

Lemma setInstrumentVolume_sections (i : Instrument) (v : Q) (m : EngineMixer.Mixer) :
  let m' := EngineMixer.setInstrumentVolume i v m in
  EngineMixer.masterGain m' = EngineMixer.masterGain m /\
  EngineMixer.drumsGain m' = EngineMixer.drumsGain m /\
  EngineMixer.synthsGain m' = EngineMixer.synthsGain m /\
  EngineMixer.filter m' = EngineMixer.filter m.
Proof.
  destruct i as [d|y]; unfold EngineMixer.setInstrumentVolume.
  - by destruct (drumAt d (EngineMixer.ig_drums m)).
  - by destruct (synthAt y (EngineMixer.ig_synths m)).
Qed.

(** X22.  The engine follows the loaded sequence.  On an engine that has
    all its nodes, as after [initializeAudio] when the audio context could be
    created, the calls [loadSequence] makes leave the master, drums and
    synths gains at the three volumes of the sequence, every instrument gain
    at its per-instrument volume, and the filter at the frequency of the
    filter level, whatever the gains were before.  On an engine whose
    context could not be created no node exists, and the same calls change
    nothing. *)
Theorem engine_follows_sequence (q : Sequence) (m : EngineMixer.Mixer) :
  EngineMixer.initialized m ->
  let on := EngineMixer.applySequence q m in
  EngineMixer.masterGain on = Some (master (volume q)) /\
  EngineMixer.drumsGain on = Some (vol_drums (volume q)) /\
  EngineMixer.synthsGain on = Some (vol_synths (volume q)) /\
  EngineMixer.filter on = Some (EngineMixer.filterFrequency (fx_filter (effects q))) /\
  (forall d, EngineMixer.instrumentGain (InDrums d) on
             = Some (drumAt d (pi_drums (perInstrument (volume q))))) /\
  (forall y, EngineMixer.instrumentGain (InSynths y) on
             = Some (synthAt y (pi_synths (perInstrument (volume q))))) /\
  EngineMixer.initialized on /\
  EngineMixer.applySequence q (EngineMixer.initializeAudio false EngineMixer.constructed)
    = EngineMixer.constructed.
Proof.
  intros (Hm & Hd & Hs & Hf & Hi). cbv zeta.
  pose proof (Hi (InDrums kick)) as [g1 H1]. pose proof (Hi (InDrums snare)) as [g2 H2].
  pose proof (Hi (InDrums hihat)) as [g3 H3]. pose proof (Hi (InDrums openhat)) as [g4 H4].
  pose proof (Hi (InDrums crash)) as [g5 H5]. pose proof (Hi (InDrums clap)) as [g6 H6].
  pose proof (Hi (InSynths bass)) as [g7 H7]. pose proof (Hi (InSynths lead)) as [g8 H8].
  pose proof (Hi (InSynths pad)) as [g9 H9]. pose proof (Hi (InSynths arp)) as [g10 H10].
  destruct Hm as [a1 Hm], Hd as [a2 Hd], Hs as [a3 Hs], Hf as [a4 Hf].
  destruct m as [mg dg sg fl [k1 k2 k3 k4 k5 k6] [y1 y2 y3 y4]].
  cbn [EngineMixer.masterGain EngineMixer.drumsGain EngineMixer.synthsGain EngineMixer.filter
       EngineMixer.instrumentGain EngineMixer.ig_drums EngineMixer.ig_synths drumAt synthAt
       d_kick d_snare d_hihat d_openhat d_crash d_clap y_bass y_lead y_pad y_arp]
    in Hm, Hd, Hs, Hf, H1, H2, H3, H4, H5, H6, H7, H8, H9, H10.
  subst. clear Hi.
  split; [reflexivity|]. split; [reflexivity|]. split; [reflexivity|]. split; [reflexivity|].
  split; [intros []; reflexivity|]. split; [intros []; reflexivity|].
  split; [|reflexivity].
  split; [eexists; reflexivity|]. split; [eexists; reflexivity|].
  split; [eexists; reflexivity|]. split; [eexists; reflexivity|].
  intros [[]|[]]; eexists; reflexivity.
Qed.

Lemma engine_follows_sequence_witness :
  EngineMixer.masterGain
    (EngineMixer.applySequence (sequence init)
       (EngineMixer.initializeAudio true EngineMixer.constructed))
  = Some (master (volume (sequence init))).
Proof.
  assert (H : EngineMixer.initialized (EngineMixer.initializeAudio true EngineMixer.constructed)).
  { split; [by eexists|]. split; [by eexists|]. split; [by eexists|]. split; [by eexists|].
    intros [[]|[]]; by eexists. }
  exact (proj1 (engine_follows_sequence (sequence init) _ H)).
Defined.

(** X23.  The filter level.  [setFilterLevel] on an engine that has its
    filter sets the cut-off to [200 + value * 21850]: a level in [[0,1]]
    gives a frequency in [[200, 22050]], growing with the level, 200 at 0
    and 22050 at 1, and equal levels away from each other give frequencies
    21850 times as far apart.  Without a filter the call changes nothing;
    in either case the gains are left alone. *)
Theorem filter_level_range (v w : Q) (m : EngineMixer.Mixer) :
  let m' := EngineMixer.setFilterLevel v m in
  (EngineMixer.filter m' = (fun _ => EngineMixer.filterFrequency v) <$> EngineMixer.filter m) /\
  ((0 <= v <= 1)%Q -> (200 <= EngineMixer.filterFrequency v <= 22050)%Q) /\
  ((v <= w)%Q -> (EngineMixer.filterFrequency v <= EngineMixer.filterFrequency w)%Q) /\
  (EngineMixer.filterFrequency 0 == 200)%Q /\ (EngineMixer.filterFrequency 1 == 22050)%Q /\
  (EngineMixer.filterFrequency w - EngineMixer.filterFrequency v == 21850 * (w - v))%Q /\
  EngineMixer.masterGain m' = EngineMixer.masterGain m /\
  EngineMixer.drumsGain m' = EngineMixer.drumsGain m /\
  EngineMixer.synthsGain m' = EngineMixer.synthsGain m /\
  (forall i, EngineMixer.instrumentGain i m' = EngineMixer.instrumentGain i m).
Proof.
  cbv zeta. unfold EngineMixer.setFilterLevel, EngineMixer.filterFrequency.
  split; [destruct (EngineMixer.filter m) eqn:Hf; simpl; by rewrite ?Hf|].
  split; [intros [? ?]; split; lra|]. split; [intros ?; lra|].
  split; [reflexivity|]. split; [reflexivity|]. split; [ring|].
  destruct (EngineMixer.filter m); by repeat split.
Qed.

Lemma filter_level_range_witness :
  (200 <= EngineMixer.filterFrequency (1 # 2) <= 22050)%Q.
Proof.
  assert (H : (0 <= 1 # 2 <= 1)%Q) by (split; discriminate).
  exact (proj1 (proj2 (filter_level_range (1 # 2) 1 EngineMixer.constructed)) H).
Defined.

(** X24.  The gain of one instrument.  [setInstrumentVolume] on the engine
    sets the gain of the instrument named, when its node exists, and leaves
    every other instrument gain, the section gains, the master gain and the
    filter alone; when the node does not exist nothing changes.  Setting a
    gain twice leaves the second value. *)
Theorem engine_setInstrumentVolume_only (i : Instrument) (v v' : Q) (m : EngineMixer.Mixer) :
  let m' := EngineMixer.setInstrumentVolume i v m in
  (EngineMixer.instrumentGain i m' = (fun _ => v) <$> EngineMixer.instrumentGain i m) /\
  (forall j, j <> i -> EngineMixer.instrumentGain j m' = EngineMixer.instrumentGain j m) /\
  (EngineMixer.instrumentGain i m = None -> m' = m) /\
  EngineMixer.masterGain m' = EngineMixer.masterGain m /\
  EngineMixer.drumsGain m' = EngineMixer.drumsGain m /\
  EngineMixer.synthsGain m' = EngineMixer.synthsGain m /\
  EngineMixer.filter m' = EngineMixer.filter m /\
  EngineMixer.setInstrumentVolume i v' m' = EngineMixer.setInstrumentVolume i v' m.
Proof.
  cbv zeta.
  split; [by rewrite instrumentGain_set, bool_decide_eq_true_2|].
  split; [intros j Hj; by rewrite instrumentGain_set, bool_decide_eq_false_2|].
  split.
  { destruct i as [d|y]; simpl; unfold EngineMixer.setInstrumentVolume; by intros ->. }
  destruct (setInstrumentVolume_sections i v m) as (H1 & H2 & H3 & H4).
  split; [exact H1|]. split; [exact H2|]. split; [exact H3|]. split; [exact H4|].
  destruct i as [d|y]; unfold EngineMixer.setInstrumentVolume.
  - destruct (drumAt d (EngineMixer.ig_drums m)) eqn:Hd; [|by rewrite Hd].
    destruct d; simpl in *; reflexivity.
  - destruct (synthAt y (EngineMixer.ig_synths m)) eqn:Hy; [|by rewrite Hy].
    destruct y; simpl in *; reflexivity.
Qed.

(** ** Adding a bar and taking it away *)

Lemma resizePattern_twice (p : Pattern) (m n : Z) :
  patternShape n p -> 0 <= n <= m -> resizePattern n (resizePattern m p) = p.
Proof.
  intros [Ht Hn] Hnm. rewrite !resizePattern_padOrTruncate by lia.
  cbn [bars p_tracks p_removed p_synthNotes].
  rewrite tracksResized_twice, notesResized_twice by (done || lia). by destruct p.
Qed.

(** X26.  A bar added and taken away again.  When the active pattern has
    fewer than 16 bars, the step count is that of its bars and every array
    has the length of the step count, the plus button followed by the minus
    button restores the step count, the bar count, the step index, the live
    flags and pitches and the whole pattern store: the bar that was added
    leaves no trace.  In between, the loop is one bar longer. *)
Theorem bars_plus_minus (s : Sequencer) (pat : Pattern) :
  store (patterns s) !! active (patterns s) = Some pat ->
  active (patterns s) ∈ slotIds ->
  1 <= bars pat < 16 ->
  steps s = bars pat * stepsPerBar s ->
  0 <= currentStep s < steps s ->
  Shape s ->
  exists s1 s2,
    handle EvBarsPlus s = Some s1 /\ handle EvBarsMinus s1 = Some s2 /\
    steps s1 = steps s + stepsPerBar s /\ getBars s1 = bars pat + 1 /\
    steps s2 = steps s /\ getBars s2 = bars pat /\
    currentStep s2 = currentStep s /\
    tracks (sequence s2) = tracks (sequence s) /\
    removed (sequence s2) = removed (sequence s) /\
    synthNotes s2 = synthNotes s /\
    store (patterns s2) = store (patterns s) /\
    active (patterns s2) = active (patterns s) /\
    isPlaying s2 = isPlaying s.
Proof.
  intros Hpat Ha Hb Hsteps Hc (Hts & Hns & Hsl).
  set (a := active (patterns s)) in *.
  set (b := bars pat) in *.
  pose proof (stepsPerBar_pos s) as Hspb.
  set (n1 := (b + 1) * stepsPerBar s).
  assert (Hn : 0 <= steps s <= n1) by (unfold n1; nia).
  (* plus *)
  destruct (setBars_ok (getBars s + 1) s pat Hpat) as [_ Hplus].
  rewrite (getBars_active s pat Hpat), or1_id in Hplus by (fold b; lia). fold b in Hplus.
  replace (Z.max 1 (Z.min 16 (b + 1))) with (b + 1) in Hplus by lia. fold n1 in Hplus.
  destruct Hplus as (s1 & Hr1 & Hst1 & _ & Htr1 & Hno1 & Hcs1 & Hlk1 & Hact1 & _ & Hp1 & Hts1 & _ & _ & Hrm1 & _).
  { unfold n1. nia. }
  fold a in Hlk1, Hact1.
  set (pat1 := resizePattern n1 (mkPattern (b + 1) (p_tracks pat) (p_removed pat)
                                   (p_synthNotes pat))).
  assert (Hpat1 : store (patterns s1) !! active (patterns s1) = Some pat1).
  { rewrite Hact1, Hlk1, decide_True by done. by rewrite lookup_insert_eq. }
  assert (Hspb1 : stepsPerBar s1 = stepsPerBar s) by (unfold stepsPerBar; by rewrite Hts1).
  (* minus *)
  destruct (setBars_ok (getBars s1 + -1) s1 pat1 Hpat1) as [_ Hminus].
  rewrite (getBars_active s1 pat1 Hpat1) in Hminus.
  change (bars pat1) with (b + 1) in Hminus. rewrite or1_id in Hminus by lia.
  replace (Z.max 1 (Z.min 16 (b + 1 + -1))) with b in Hminus by lia.
  rewrite Hspb1, <- Hsteps in Hminus.
  destruct Hminus as (s2 & Hr2 & Hst2 & _ & Htr2 & Hno2 & Hcs2 & Hlk2 & Hact2 & _ & Hp2 & _ & _ & _ & Hrm2 & _).
  { rewrite Hst1. unfold n1. nia. }
  rewrite Hact1 in Hlk2, Hact2.
  assert (Hstore : store (patterns s2) = store (patterns s)).
  { apply map_eq. intros j. rewrite Hlk2.
    destruct (decide (j = a)) as [->|Hja].
    - rewrite decide_True, lookup_insert_eq by done. cbn [fmap option_fmap option_map].
      rewrite Hpat. f_equal.
      change (mkPattern b (p_tracks pat1) (p_removed pat1) (p_synthNotes pat1))
        with (resizePattern n1 (mkPattern b (p_tracks pat) (p_removed pat) (p_synthNotes pat))).
      replace (mkPattern b (p_tracks pat) (p_removed pat) (p_synthNotes pat)) with pat
        by (by destruct pat).
      apply resizePattern_twice; [exact (Hsl a pat Ha Hpat) | done].
    - rewrite lookup_insert_ne by done. rewrite Hlk1, lookup_insert_ne by done.
      case_decide as Hin; [|done].
      destruct (store (patterns s) !! j) as [p|] eqn:Hj; [|done].
      cbn [fmap option_fmap option_map]. f_equal.
      apply resizePattern_twice; [exact (Hsl j p Hin Hj) | done]. }
  assert (Hg : getBars s = b) by (rewrite (getBars_active s pat Hpat); apply or1_id; fold b; lia).
  assert (Hg1 : getBars s1 = b + 1).
  { rewrite (getBars_active s1 pat1 Hpat1). change (bars pat1) with (b + 1). apply or1_id. lia. }
  exists s1, s2.
  split; [cbn [handle]; unfold addBars; by rewrite Hg|].
  split; [cbn [handle]; unfold addBars; by rewrite Hg1|].
  split; [rewrite Hst1; unfold n1; lia|].
  split; [exact Hg1|].
  split; [exact Hst2|].
  split.
  { unfold getBars. rewrite Hact2, Hstore, Hpat. apply or1_id. fold b. lia. }
  split.
  { rewrite Hcs2, Hcs1, (Z.rem_small (currentStep s)) by lia. apply Z.rem_small. lia. }
  split; [rewrite Htr2, Htr1; apply tracksResized_twice; [exact Hts | lia]|].
  split; [by rewrite Hrm2, Hrm1|].
  split; [rewrite Hno2, Hno1; apply notesResized_twice; [exact Hns | lia]|].
  split; [exact Hstore|]. split; [exact Hact2|]. by rewrite Hp2, Hp1.
Qed.

Lemma bars_plus_minus_witness :
  exists s1 s2,
    handle EvBarsPlus init = Some s1 /\ handle EvBarsMinus s1 = Some s2 /\
    steps s1 = steps init + stepsPerBar init /\
    tracks (sequence s2) = tracks (sequence init) /\
    store (patterns s2) = store (patterns init).
Proof.
  pose (pat := default (mkPattern 0 (tracks (sequence init)) defaultRemoved (synthNotes init))
                 (store (patterns init) !! 1)).
  assert (Hpat : store (patterns init) !! active (patterns init) = Some pat)
    by (vm_compute; reflexivity).
  assert (Hb : 1 <= bars pat < 16) by (vm_compute; split; [discriminate | reflexivity]).
  assert (Hs : steps init = bars pat * stepsPerBar init) by (vm_compute; reflexivity).
  assert (Hc : 0 <= currentStep init < steps init)
    by (vm_compute; split; [discriminate | reflexivity]).
  destruct init_Shape as (Hsh & _).
  destruct (bars_plus_minus init pat Hpat slot_1 Hb Hs Hc Hsh)
    as (s1 & s2 & H1 & H2 & H3 & _ & _ & _ & _ & H4 & _ & _ & H5 & _).
  exists s1, s2. split; [exact H1|]. split; [exact H2|]. split; [exact H3|].
  split; [exact H4 | exact H5].
Defined.

(** ** Steps per bar *)

(** X27.  The steps of a bar, in integers.  For a time signature whose
    denominator is a power of two, where [16 / den] is exact in the source's
    arithmetic, [stepsPerBar] is [num * 16 / den] rounded to the nearest
    integer, halves upwards, and at least 1; when the denominator divides
    [16 * num] it is the exact quotient (16 for 4/4, 12 for 3/4 and for
    6/8), and it never decreases when the numerator grows. *)
Theorem stepsPerBar_integers (s : Sequencer) :
  let n := num (timeSignature s) in
  let d := den (timeSignature s) in
  (exists k : nat, d = 2 ^ Z.of_nat k) ->
  stepsPerBar s = Z.max 1 ((32 * n + d) / (2 * d)) /\
  ((d | 16 * n) -> stepsPerBar s = Z.max 1 (16 * n / d)) /\
  (forall n', n <= n' ->
     stepsPerBar s <= stepsPerBar (set_timeSignature (mkTimeSignature n' d) s)).
Proof.
  intros n d Hpow.
  assert (Hd : 0 < d) by (destruct Hpow as [k ->]; apply Z.pow_pos_nonneg; lia).
  clear Hpow.
  assert (H : forall m, Math_round (inject_Z (m * 16) / inject_Z d) = (32 * m + d) / (2 * d)).
  { intros m. unfold Math_round. destruct d as [|p|p]; try lia.
    transitivity (Qfloor ((32 * m + Z.pos p) # (2 * p))).
    - apply Qfloor_comp. rewrite (Qmake_Qdiv (32 * m + Z.pos p) (2 * p)).
      rewrite !inject_Z_plus, !inject_Z_mult.
      change (inject_Z (Z.pos (2 * p))) with (inject_Z (2 * Z.pos p)).
      rewrite inject_Z_mult. field.
      intros H0. unfold Qeq in H0. simpl in H0. lia.
    - reflexivity. }
  assert (Hs : forall m, stepsPerBar (set_timeSignature (mkTimeSignature m d) s)
                         = Z.max 1 ((32 * m + d) / (2 * d))).
  { intros m. rewrite stepsPerBar_formula. cbn [timeSignature set_timeSignature num den].
    by rewrite H. }
  assert (H0 : stepsPerBar s = Z.max 1 ((32 * n + d) / (2 * d))).
  { rewrite stepsPerBar_formula. fold n. fold d. by rewrite H. }
  split; [exact H0|]. split.
  - intros [k Hk]. rewrite H0. f_equal.
    replace (32 * n + d) with (d + (2 * k) * d) by lia.
    rewrite Hk, Z.div_mul by lia.
    replace (d + 2 * k * d) with ((2 * k + 1) * d) by lia.
    symmetry. apply Z.div_unique with (r := d); lia.
  - intros n' Hn. rewrite H0, Hs.
    apply Z.max_le_compat_l. apply Z.div_le_mono; lia.
Qed.

Lemma stepsPerBar_integers_witness :
  stepsPerBar (set_timeSignature (mkTimeSignature 6 8) init) = Z.max 1 (16 * 6 / 8).
Proof.
  assert (Hd : exists k : nat,
            den (timeSignature (set_timeSignature (mkTimeSignature 6 8) init))
            = 2 ^ Z.of_nat k) by (exists 3%nat; reflexivity).
  assert (Hdiv : (den (timeSignature (set_timeSignature (mkTimeSignature 6 8) init))
                  | 16 * num (timeSignature (set_timeSignature (mkTimeSignature 6 8) init))))
    by (exists 12; reflexivity).
  exact (proj1 (proj2 (stepsPerBar_integers _ Hd)) Hdiv).
Defined.

(** ** The constructor's slots *)

Lemma createEmptyPattern_ok (s : Sequencer) :
  0 <= steps s ->
  createEmptyPattern s =
  Some (mkPattern 1
          (mkTracks (drumsAll (replicate (Z.to_nat (steps s)) false))
                    (synthsAll (replicate (Z.to_nat (steps s)) false)))
          defaultRemoved (synthsAll (replicate (Z.to_nat (steps s)) 69))).
Proof.
  intros Hn. unfold createEmptyPattern, newArray.
  destruct (Z.ltb_spec (steps s) 0); [lia|]. reflexivity.
Qed.

(** X28.  The four slots of a new sequencer.  For any field values with a
    non-negative step count and the active id among the four slots,
    [initializeSequencer] does not throw; afterwards the active slot holds
    one bar with the live flags, removed flags and pitches, and each other
    slot an empty pattern of one bar: every flag off, every pitch 69, no
    instrument removed, all arrays in the length of the step count.  The
    sequence itself is not changed.  With a negative step count both
    [createEmptyPattern] and [initializeSequencer] throw. *)
Theorem initializeSequencer_slots (s : Sequencer) :
  let a := active (patterns s) in
  let n := Z.to_nat (steps s) in
  let empty := mkPattern 1 (mkTracks (drumsAll (replicate n false))
                                     (synthsAll (replicate n false)))
                 defaultRemoved (synthsAll (replicate n 69)) in
  (0 <= steps s -> a ∈ slotIds ->
   exists s', initializeSequencer s = Some s' /\
     createEmptyPattern s = Some empty /\ patternShape (steps s) empty /\
     store (patterns s') !! a =
       Some (mkPattern 1 (tracks (sequence s)) (removed (sequence s)) (synthNotes s')) /\
     (forall j, j ∈ slotIds -> j <> a -> store (patterns s') !! j = Some empty) /\
     (forall j, j ∉ slotIds -> store (patterns s') !! j = store (patterns s) !! j) /\
     notesShape (steps s) (synthNotes s') /\
     (notesShape (steps s) (synthNotes s) -> synthNotes s' = synthNotes s) /\
     sequence s' = sequence s /\ steps s' = steps s /\
     active (patterns s') = a /\ pending (patterns s') = pending (patterns s)) /\
  (steps s < 0 -> createEmptyPattern s = None /\ initializeSequencer s = None).
Proof.
  intros a n empty. split.
  - intros Hn Ha. unfold initializeSequencer.
    destruct (renderTracks_ok s Hn) as (m & -> & Hm & Hm'). rewrite bind_some.
    set (s1 := set_synthNotes m s).
    destruct (updateStepInterval_frame s1) as (_ & _ & _ & _ & Hst & _ & Hno & Hpat & Hq & _).
    set (s2 := updateStepInterval s1) in *.
    assert (He : forall x : Sequencer, steps x = steps s -> createEmptyPattern x = Some empty).
    { intros x Hx. rewrite createEmptyPattern_ok by lia. by rewrite Hx. }
    cbn [foldl slotIds]. rewrite !bind_some.
    rewrite (He s2) by exact Hst. rewrite !bind_some.
    rewrite (He _) by exact Hst. rewrite !bind_some.
    rewrite (He _) by exact Hst. rewrite !bind_some.
    rewrite (He _) by exact Hst. rewrite !bind_some.
    pose (st4 := <[4 := empty]> (<[3 := empty]> (<[2 := empty]> (<[1 := empty]>
                   (store (patterns s2)))))).
    set (s3 := set_store (<[4 := empty]> _) _).
    assert (Hst4 : store (patterns s3) = st4) by reflexivity.
    assert (Hact : active (patterns s3) = a) by (unfold s3; simpl; by rewrite Hpat).
    assert (Hin : forall j, j ∈ slotIds -> st4 !! j = Some empty).
    { intros j Hj. unfold slotIds in Hj. rewrite !elem_of_cons, elem_of_nil in Hj.
      unfold st4. destruct Hj as [->|[->|[->|[->|[]]]]]; by simplify_map_eq. }
    assert (Hout : forall j, j ∉ slotIds -> st4 !! j = store (patterns s) !! j).
    { intros j Hj. unfold slotIds in Hj. rewrite !elem_of_cons, elem_of_nil in Hj.
      unfold st4. rewrite !lookup_insert_ne by (intros Heq; apply Hj; lia). by rewrite Hpat. }
    assert (Hsave : saveCurrentPattern s3 =
              Some (set_store (<[a := mkPattern 1 (tracks (sequence s)) (removed (sequence s)) m]>
                                 st4) s3)).
    { rewrite (saveCurrentPattern_ok s3 empty) by (rewrite Hact, Hst4; by apply Hin).
      rewrite Hact, Hst4. do 3 f_equal.
      change (sequence s3) with (sequence s2). change (synthNotes s3) with (synthNotes s2).
      by rewrite Hq, Hno. }
    set (s' := set_store _ s3) in Hsave.
    assert (Hn' : synthNotes s' = m) by (change (synthNotes s2 = m); by rewrite Hno).
    assert (Hstore' : store (patterns s') =
              <[a := mkPattern 1 (tracks (sequence s)) (removed (sequence s)) m]> st4)
      by reflexivity.
    exists s'. split; [exact Hsave|].
    split; [by apply He|].
    split.
    { assert (Hl : Z.of_nat n = steps s) by (unfold n; lia).
      split; [split|]; intros []; simpl; by rewrite len_replicate. }
    rewrite Hstore', Hn'.
    split; [by rewrite lookup_insert_eq|].
    split; [intros j Hj Hja; rewrite lookup_insert_ne by done; by apply Hin|].
    split.
    { intros j Hj. rewrite lookup_insert_ne by (intros <-; done). by apply Hout. }
    split; [exact Hm|]. split; [exact Hm'|].
    split; [exact Hq|]. split; [exact Hst|]. split; [exact Hact|].
    change (pending (patterns s2) = pending (patterns s)). by rewrite Hpat.
  - intros Hn.
    assert (Hc : createEmptyPattern s = None).
    { unfold createEmptyPattern, newArray. destruct (Z.ltb_spec (steps s) 0); [done | lia]. }
    split; [exact Hc|]. unfold initializeSequencer, renderTracks, renderSynthTracks.
    assert (He : ensureNotes (steps s) (y_bass (synthNotes s)) = None).
    { unfold ensureNotes, newArray. pose proof (len_nonneg (y_bass (synthNotes s))).
      destruct (Z.eqb_spec (len (y_bass (synthNotes s))) (steps s)); [lia|].
      destruct (Z.ltb_spec (steps s) 0); [done | lia]. }
    by rewrite He.
Qed.

Lemma initializeSequencer_slots_witness :
  exists s', initializeSequencer fields0 = Some s' /\
    sequence s' = sequence fields0 /\ steps s' = steps fields0.
Proof.
  assert (Hn : 0 <= steps fields0) by (vm_compute; discriminate).
  destruct (proj1 (initializeSequencer_slots fields0) Hn slot_1)
    as (s' & Hr & _ & _ & _ & _ & _ & _ & _ & Hq & Hs & _).
  exists s'. split; [exact Hr|]. split; [exact Hq | exact Hs].
Defined.

(** ** Levels of the enhanced voices *)

(** X29.  The voices of the enhanced engine.  Each of the four voices of
    [playSynthSound] drives its envelope only to values between 0 and 1,
    from 0 at the start back to 0 at the end, and stops its oscillators at
    the time of the last envelope event, at most 1.2 seconds after the
    start.  The bass sounds an octave below the frequency asked for, with a
    sub-oscillator one octave further down and a harmonic at the frequency
    asked for.  The general [generateSynth] peaks at 1 and takes the sustain
    level as it is passed: its envelope stays within [[0,1]] exactly when
    the sustain does. *)
Theorem enhanced_voices_levels (n : Synth) (f now : Q) (w : Waveform) (p : Adsr) :
  let c := EnhancedEngine.playSynthSound n f now in
  Forall (fun a => (0 <= eventValue a <= 1)%Q) (envelope c) /\
  head (eventValue <$> envelope c) = Some 0%Q /\
  last (eventValue <$> envelope c) = Some 0%Q /\
  last (boundaries c) = Some (stopTime c) /\
  (now <= stopTime c <= now + 1.2)%Q /\
  oscillators (EnhancedEngine.playSynthSound bass f now)
    = [(sawtooth, f * 0.5); (sine, f * 0.5 * 0.5); (square, f * 0.5 * 2)]%Q /\
  (Forall (fun a => (0 <= eventValue a <= 1)%Q)
     (envelope (EnhancedEngine.generateSynth f w p now))
   <-> (0 <= sustain p <= 1)%Q).
Proof.
  cbv zeta. split.
  { destruct n; unfold EnhancedEngine.playSynthSound; cbn [envelope
      EnhancedEngine.generateEnhancedBass EnhancedEngine.generateEnhancedLead
      EnhancedEngine.generateEnhancedPad EnhancedEngine.generateSynth];
      repeat constructor; cbn [eventValue]; vm_compute; discriminate. }
  split; [by destruct n|]. split; [by destruct n|]. split; [by destruct n|].
  split.
  { destruct n; unfold EnhancedEngine.playSynthSound; cbn [stopTime
      EnhancedEngine.generateEnhancedBass EnhancedEngine.generateEnhancedLead
      EnhancedEngine.generateEnhancedPad EnhancedEngine.generateSynth
      EnhancedEngine.arpRecipe duration]; split; lra. }
  split; [reflexivity|].
  unfold EnhancedEngine.generateSynth. cbn [envelope]. split.
  - intros H. apply Forall_cons in H as [_ H]. apply Forall_cons in H as [_ H].
    apply Forall_cons in H as [H _]. exact H.
  - intros Hs. repeat constructor; cbn [eventValue]; try (apply Hs); discriminate.
Qed.

(** ** Removing an instrument and taking it back *)

Lemma toggleInstrumentRemoved_twice (i : Instrument) (s : Sequencer) :
  toggleInstrumentRemoved i (toggleInstrumentRemoved i s) = s.
Proof.
  destruct s as [? ? ? ? ? ? ? ? ? [? ? ? ? ? ? [[? ? ? ? ? ?] [? ? ? ?]] ?] ? ? ?].
  destruct i as [[]|[]]; unfold toggleInstrumentRemoved; simpl;
    by rewrite negb_involutive.
Qed.

Lemma set_synthNotes_same (s : Sequencer) : set_synthNotes (synthNotes s) s = s.
Proof. by destruct s. Qed.

(** X30.  The context menu of a track label, twice.  With the pitch arrays
    in the length of the step count, removing an instrument and taking it
    back leaves the sequencer exactly as it was: flags, pitches, volumes,
    slots and transport.  In between, only the removed flag of that one
    instrument differs, and it is set exactly when it was not before. *)
Theorem label_menu_twice (i : Instrument) (s : Sequencer) :
  0 <= steps s -> notesShape (steps s) (synthNotes s) ->
  exists s1, onLabelContextMenu i s = Some s1 /\
    onLabelContextMenu i s1 = Some s /\
    isRemoved i s1 = negb (isRemoved i s) /\
    (forall j, j <> i -> isRemoved j s1 = isRemoved j s) /\
    tracks (sequence s1) = tracks (sequence s) /\ synthNotes s1 = synthNotes s /\
    volume (sequence s1) = volume (sequence s) /\ patterns s1 = patterns s.
Proof.
  intros Hn Hsh.
  assert (Hmenu : forall x : Sequencer, 0 <= steps x -> notesShape (steps x) (synthNotes x) ->
            onLabelContextMenu i x = Some (toggleInstrumentRemoved i x)).
  { intros x Hx Hshx. unfold onLabelContextMenu. destruct i as [d|y]; [done|].
    destruct (renderTracks_ok (toggleInstrumentRemoved (InSynths y) x)) as (m & Hr & _ & Hm);
      [exact Hx|].
    unfold renderTracks in Hr. rewrite Hr, (Hm Hshx). by rewrite set_synthNotes_same. }
  exists (toggleInstrumentRemoved i s). split; [by apply Hmenu|].
  split; [rewrite Hmenu by done; by rewrite toggleInstrumentRemoved_twice|].
  split; [by destruct i as [[]|[]]|].
  split; [intros j Hj; by destruct i as [[]|[]], j as [[]|[]]|].
  by repeat split.
Qed.

Lemma label_menu_twice_witness :
  exists s1, onLabelContextMenu (InSynths lead) init = Some s1 /\
    onLabelContextMenu (InSynths lead) s1 = Some init.
Proof.
  assert (Hn : 0 <= steps init) by (vm_compute; discriminate).
  destruct init_Shape as ((_ & Hsh & _) & _).
  destruct (label_menu_twice (InSynths lead) init Hn Hsh) as (s1 & H1 & H2 & _).
  exists s1. split; [exact H1 | exact H2].
Defined.
